(** * Talking Jerry: the voice session orchestrator of [App]

    A shallow embedding of the stateful part of the [App] component
    (React state, refs and the handlers that mutate them), followed by the
    properties of its playback scheduler, transcript accumulator, teardown
    paths and conversation state machine.

    Conventions of the embedding.

    - A handler is a function on [AppState].  React state ([useState]) and
      refs ([useRef]) are two records; a third one, [World], holds what
      lives outside the component: the process environment, the suspended
      [async] functions, the sessions opened on the service, the sources
      whose end is still due, and the log of calls made on external
      objects.
    - No handler reads a React state variable after having written it, so
      threading the state through the statements of a handler gives the
      state React commits once the handler has run.  The values a handler
      closes over (its render snapshot) are passed as a [Closure].
    - An [async] function is cut at its [await]s: the part up to the
      [await] suspends a [Pending] continuation, which a later step
      resumes.  [await decodeAudioData(...)] in [onmessage] is the
      exception: it resumes before any other handler runs, and a message is
      handled in one step; what waits in the microtask queue runs at that
      [await].
    - [decode] and [decodeAudioData] (utils/audioUtils) are not part of the
      sources at hand: what they make of a payload comes with the message
      ([decoded]).  The message types of the service library are reduced
      to the fields the handlers read.
    - [sessionPromiseRef.current] holds the promise of [live.connect].  A
      callback given to its [then] does not run on the spot: on a promise
      that has resolved it is queued as a microtask, which runs once the
      running code gives way (at the [await] of [onmessage], and when a
      handler returns); on a pending promise it waits until the promise
      resolves.  [World] keeps both queues.  The promise resolves, if it
      does, right after [onopen] has run: that is the library's affair,
      and the step of [onopen] says which.
    - A session on which [close()] was called delivers no more messages;
      it still reports its closing to [onclose].
    - Strings are sequences of code units below 256.  Audio time is a
      double: [Math.max] is [Math_max] and [+] the addition of binary64,
      both on the primitive floats.  The clock of the output context and
      the duration of a decoded buffer, which come with a message, are
      neither [NaN] nor negative.
    - Left out: the markup, the text of the system instruction (the
      connect call records the mode, name and age it is built from) and
      the forwarding of captured frames ([onaudioprocess]). *)

From Stdlib Require Import String Ascii List Bool Arith NArith ZArith.
From Stdlib Require Import QArith Lia Floats.
Import ListNotations.
Local Close Scope Q_scope.
Local Open Scope string_scope.
Local Open Scope list_scope.

(** ** types.ts *)

Module GameState.
Inductive t := PRE_GAME | GREETING | CONNECTING | LISTENING | THINKING | TALKING | IDLE.

Definition eq_dec (a b : t) : {a = b} + {a <> b}.
Proof. decide equality. Defined.

Definition eqb (a b : t) : bool := if eq_dec a b then true else false.
End GameState.

(** [JerryReaction] is a string enum: at run time a reaction is the string
    itself, and [fc.args.reaction as JerryReaction] checks nothing. *)
Module JerryReaction.
Definition t := string.
Definition IDLE : t := "idle".
Definition MIMICKING : t := "mimicking".
Definition SMART : t := "smart".
Definition LAUGHING : t := "laughing".
Definition THINKING : t := "thinking".
Definition SURPRISED : t := "surprised".
Definition SAD : t := "sad".

(** The values listed in the enum (and in the tool declaration). *)
Definition members : list t :=
  [IDLE; MIMICKING; SMART; LAUGHING; THINKING; SURPRISED; SAD].

Definition recognized (r : string) : bool :=
  existsb (String.eqb r) members.
End JerryReaction.

Module GameMode.
Inductive t := AI | MIMIC.
End GameMode.

(** ** JavaScript strings *)

(** [!s] is false exactly on the non-empty strings. *)
Definition truthy (s : string) : bool := negb (s =? "").

(** White space and line terminators of ECMAScript among the code units
    below 256: TAB, LF, VT, FF, CR, SP and NBSP. *)
Definition isWhiteSpace (c : ascii) : bool :=
  let n := nat_of_ascii c in
  ((n =? 9) || (n =? 10) || (n =? 11) || (n =? 12) || (n =? 13)
   || (n =? 32) || (n =? 160))%nat.

Fixpoint trimStart (s : string) : string :=
  match s with
  | EmptyString => EmptyString
  | String c r => if isWhiteSpace c then trimStart r else s
  end.

Fixpoint trimEnd (s : string) : string :=
  match s with
  | EmptyString => EmptyString
  | String c r =>
      match trimEnd r with
      | EmptyString => if isWhiteSpace c then EmptyString else String c EmptyString
      | r' => String c r'
      end
  end.

(** [String.prototype.trim]. *)
Definition trim (s : string) : string := trimEnd (trimStart s).

Fixpoint allWhiteSpace (s : string) : bool :=
  match s with
  | EmptyString => true
  | String c r => isWhiteSpace c && allWhiteSpace r
  end.

(** ** Numbers *)

(** [Math.max] of two doubles: [NaN] if one of them is, and [+0] above
    [-0]. *)
Definition Math_max (a b : float) : float :=
  if (PrimFloat.is_nan a || PrimFloat.is_nan b)%bool then PrimFloat.nan
  else if (a <? b)%float then b
  else if (b <? a)%float then a
  else if PrimFloat.get_sign a then b else a.

(** A time on the clock of an audio context, or the length of a buffer:
    not [NaN] and not negative. *)
Definition is_time (t : float) : bool := (0 <=? t)%float.

(** ** Web Audio objects *)

Inductive ContextState := running | suspended | closed.

Definition is_closed (st : ContextState) : bool :=
  match st with closed => true | _ => false end.

(** An [AudioContext]: the sample rate it was built with ([None] for the
    device default) and its [state]. *)
Record AudioContext := mkContext {
  sampleRate : option positive;
  ctx_state : ContextState
}.

Definition newAudioContext (rate : option positive) : AudioContext :=
  {| sampleRate := rate; ctx_state := running |}.

(** An [AudioBuffer], reduced to the property the component reads: its
    [duration], a double. *)
Record AudioBuffer := mkBuffer {
  duration : float
}.

Inductive ContextKind := InputContext | OutputContext | SfxContext.

(** ** Messages of the live session *)

(** One entry of [message.toolCall.functionCalls]: [fc.id], [fc.name] and
    [fc.args.reaction]. *)
Record FunctionCall := mkCall {
  fc_id : string;
  fc_name : string;
  fc_reaction : string
}.

(** [serverContent.modelTurn.parts[0].inlineData]: the base64 text and what
    [decodeAudioData(decode(data), ctx, 24000, 1)] makes of it ([None] when
    the promise rejects). *)
Record InlineData := mkInline {
  data : string;
  decoded : option AudioBuffer
}.

(** A [LiveServerMessage], reduced to the fields [onmessage] reads.  The
    fields the handler dereferences without [?.] are present. *)
Record Message := mkMessage {
  toolCall : option (list FunctionCall);
  outputTranscription : option string;
  inputTranscription : option string;
  turnComplete : bool;
  modelTurn : option InlineData;
  interrupted : bool
}.

(** ** The component's state *)

(** The values of React state a handler instance closes over. *)
Record Closure := mkClosure {
  cl_gameMode : GameMode.t;
  cl_userName : string;
  cl_userAge : string
}.

(** Calls made on objects outside the component, in program order. *)
Inductive Effect :=
| SessionClose (sid : nat)
| SendToolResponse (sid : nat) (id name result : string)
| LiveConnect (sid : nat) (cfg : Closure)
| GenerateContent (name : string)
| GetUserMedia
| TrackStop (stream : nat)
| NodeConnect (node : nat)
| NodeDisconnect (node : nat)
| ContextCreate (k : ContextKind)
| ContextClose (k : ContextKind)
| SourceStart (src : nat) (when : option float) (buf : AudioBuffer)
| SourceStop (src : nat)
| PlaySound (reaction : string)
| ConsoleError (what : string).

(** A suspended [async] function of the component. *)
Inductive Pending :=
| AwaitGenerateContent (c : Closure)
| AwaitGreetingEnded (c : Closure)
| AwaitUserMedia (c : Closure).

(** What a [then] on a session promise was given: [session =>
    session.close()] (line 78) or [session =>
    session.sendToolResponse(...)] (lines 260-268). *)
Inductive Job :=
| JobClose
| JobToolResponse (id name : string).

(** The connection of a session. *)
Inductive Transport :=
| TransportConnecting
| TransportOpen
| TransportClosing
| TransportClosed.

(** A session started by [live.connect]: its connection, and whether the
    promise [live.connect] returned has resolved. *)
Record Session := mkSession {
  transport : Transport;
  resolved : bool
}.

Record ReactState := mkReact {
  gameState : GameState.t;
  gameMode : GameMode.t;
  jerryReaction : string;
  userTranscript : string;
  jerryTranscript : string;
  error : option string;
  userName : string;
  userAge : string
}.

Record Refs := mkRefs {
  sessionPromiseRef : option nat;
  inputAudioContextRef : option AudioContext;
  outputAudioContextRef : option AudioContext;
  sfxAudioContextRef : option AudioContext;
  mediaStreamRef : option nat;
  scriptProcessorRef : option nat;
  mediaStreamSourceRef : option nat;
  nextStartTimeRef : float;
  audioSourcesRef : list nat;
  currentInputTranscriptionRef : string;
  currentOutputTranscriptionRef : string
}.

Record World := mkWorld {
  API_KEY : option string;            (* process.env.API_KEY *)
  pending : list (nat * Pending);     (* suspended continuations *)
  sessions : list (nat * Session);    (* the sessions started so far *)
  thens : list (nat * Job);           (* callbacks waiting on pending promises *)
  microtasks : list (nat * Job);      (* callbacks queued to run *)
  playing : list nat;                 (* sources whose 'ended' is still due *)
  fresh : nat;                        (* next object identity *)
  trace : list Effect
}.

Record AppState := mkApp {
  react : ReactState;
  refs : Refs;
  world : World
}.

(** The state at mount: the [useState] and [useRef] initial values. *)
Definition initialState (key : option string) : AppState :=
  {| react := {| gameState := GameState.PRE_GAME; gameMode := GameMode.AI;
                 jerryReaction := JerryReaction.IDLE;
                 userTranscript := ""; jerryTranscript := "";
                 error := None; userName := ""; userAge := "" |};
     refs := {| sessionPromiseRef := None; inputAudioContextRef := None;
                outputAudioContextRef := None; sfxAudioContextRef := None;
                mediaStreamRef := None; scriptProcessorRef := None;
                mediaStreamSourceRef := None; nextStartTimeRef := 0%float;
                audioSourcesRef := [];
                currentInputTranscriptionRef := "";
                currentOutputTranscriptionRef := "" |};
     world := {| API_KEY := key; pending := []; sessions := [];
                 thens := []; microtasks := [];
                 playing := []; fresh := 0; trace := [] |} |}.

(** ** Assignments *)

Definition Stmt := AppState -> AppState.

Definition seq (f g : Stmt) : Stmt := fun s => g (f s).
Notation "f ;; g" := (seq f g) (at level 61, left associativity).

Definition skip : Stmt := fun s => s.

Definition upd_react (f : ReactState -> ReactState) : Stmt := fun s =>
  {| react := f (react s); refs := refs s; world := world s |}.
Definition upd_refs (f : Refs -> Refs) : Stmt := fun s =>
  {| react := react s; refs := f (refs s); world := world s |}.
Definition upd_world (f : World -> World) : Stmt := fun s =>
  {| react := react s; refs := refs s; world := f (world s) |}.

(** React setters. *)
Definition setGameState (v : GameState.t) : Stmt := upd_react (fun r =>
  mkReact v (gameMode r) (jerryReaction r) (userTranscript r)
          (jerryTranscript r) (error r) (userName r) (userAge r)).
Definition setGameMode (v : GameMode.t) : Stmt := upd_react (fun r =>
  mkReact (gameState r) v (jerryReaction r) (userTranscript r)
          (jerryTranscript r) (error r) (userName r) (userAge r)).
Definition setJerryReaction (v : string) : Stmt := upd_react (fun r =>
  mkReact (gameState r) (gameMode r) v (userTranscript r)
          (jerryTranscript r) (error r) (userName r) (userAge r)).
Definition setUserTranscript (f : string -> string) : Stmt := upd_react (fun r =>
  mkReact (gameState r) (gameMode r) (jerryReaction r) (f (userTranscript r))
          (jerryTranscript r) (error r) (userName r) (userAge r)).
Definition setJerryTranscript (f : string -> string) : Stmt := upd_react (fun r =>
  mkReact (gameState r) (gameMode r) (jerryReaction r) (userTranscript r)
          (f (jerryTranscript r)) (error r) (userName r) (userAge r)).
Definition setError (v : option string) : Stmt := upd_react (fun r =>
  mkReact (gameState r) (gameMode r) (jerryReaction r) (userTranscript r)
          (jerryTranscript r) v (userName r) (userAge r)).
Definition setUserName (v : string) : Stmt := upd_react (fun r =>
  mkReact (gameState r) (gameMode r) (jerryReaction r) (userTranscript r)
          (jerryTranscript r) (error r) v (userAge r)).
Definition setUserAge (v : string) : Stmt := upd_react (fun r =>
  mkReact (gameState r) (gameMode r) (jerryReaction r) (userTranscript r)
          (jerryTranscript r) (error r) (userName r) v).

(** Assignments to [ref.current]. *)
Definition set_sessionPromiseRef (v : option nat) : Stmt := upd_refs (fun f =>
  mkRefs v (inputAudioContextRef f) (outputAudioContextRef f)
         (sfxAudioContextRef f) (mediaStreamRef f) (scriptProcessorRef f)
         (mediaStreamSourceRef f) (nextStartTimeRef f) (audioSourcesRef f)
         (currentInputTranscriptionRef f) (currentOutputTranscriptionRef f)).
Definition set_inputAudioContextRef (v : option AudioContext) : Stmt := upd_refs (fun f =>
  mkRefs (sessionPromiseRef f) v (outputAudioContextRef f)
         (sfxAudioContextRef f) (mediaStreamRef f) (scriptProcessorRef f)
         (mediaStreamSourceRef f) (nextStartTimeRef f) (audioSourcesRef f)
         (currentInputTranscriptionRef f) (currentOutputTranscriptionRef f)).
Definition set_outputAudioContextRef (v : option AudioContext) : Stmt := upd_refs (fun f =>
  mkRefs (sessionPromiseRef f) (inputAudioContextRef f) v
         (sfxAudioContextRef f) (mediaStreamRef f) (scriptProcessorRef f)
         (mediaStreamSourceRef f) (nextStartTimeRef f) (audioSourcesRef f)
         (currentInputTranscriptionRef f) (currentOutputTranscriptionRef f)).
Definition set_sfxAudioContextRef (v : option AudioContext) : Stmt := upd_refs (fun f =>
  mkRefs (sessionPromiseRef f) (inputAudioContextRef f) (outputAudioContextRef f)
         v (mediaStreamRef f) (scriptProcessorRef f)
         (mediaStreamSourceRef f) (nextStartTimeRef f) (audioSourcesRef f)
         (currentInputTranscriptionRef f) (currentOutputTranscriptionRef f)).
Definition set_mediaStreamRef (v : option nat) : Stmt := upd_refs (fun f =>
  mkRefs (sessionPromiseRef f) (inputAudioContextRef f) (outputAudioContextRef f)
         (sfxAudioContextRef f) v (scriptProcessorRef f)
         (mediaStreamSourceRef f) (nextStartTimeRef f) (audioSourcesRef f)
         (currentInputTranscriptionRef f) (currentOutputTranscriptionRef f)).
Definition set_scriptProcessorRef (v : option nat) : Stmt := upd_refs (fun f =>
  mkRefs (sessionPromiseRef f) (inputAudioContextRef f) (outputAudioContextRef f)
         (sfxAudioContextRef f) (mediaStreamRef f) v
         (mediaStreamSourceRef f) (nextStartTimeRef f) (audioSourcesRef f)
         (currentInputTranscriptionRef f) (currentOutputTranscriptionRef f)).
Definition set_mediaStreamSourceRef (v : option nat) : Stmt := upd_refs (fun f =>
  mkRefs (sessionPromiseRef f) (inputAudioContextRef f) (outputAudioContextRef f)
         (sfxAudioContextRef f) (mediaStreamRef f) (scriptProcessorRef f)
         v (nextStartTimeRef f) (audioSourcesRef f)
         (currentInputTranscriptionRef f) (currentOutputTranscriptionRef f)).
Definition set_nextStartTimeRef (v : float) : Stmt := upd_refs (fun f =>
  mkRefs (sessionPromiseRef f) (inputAudioContextRef f) (outputAudioContextRef f)
         (sfxAudioContextRef f) (mediaStreamRef f) (scriptProcessorRef f)
         (mediaStreamSourceRef f) v (audioSourcesRef f)
         (currentInputTranscriptionRef f) (currentOutputTranscriptionRef f)).
Definition set_audioSourcesRef (v : list nat) : Stmt := upd_refs (fun f =>
  mkRefs (sessionPromiseRef f) (inputAudioContextRef f) (outputAudioContextRef f)
         (sfxAudioContextRef f) (mediaStreamRef f) (scriptProcessorRef f)
         (mediaStreamSourceRef f) (nextStartTimeRef f) v
         (currentInputTranscriptionRef f) (currentOutputTranscriptionRef f)).
Definition set_currentInputTranscriptionRef (v : string) : Stmt := upd_refs (fun f =>
  mkRefs (sessionPromiseRef f) (inputAudioContextRef f) (outputAudioContextRef f)
         (sfxAudioContextRef f) (mediaStreamRef f) (scriptProcessorRef f)
         (mediaStreamSourceRef f) (nextStartTimeRef f) (audioSourcesRef f)
         v (currentOutputTranscriptionRef f)).
Definition set_currentOutputTranscriptionRef (v : string) : Stmt := upd_refs (fun f =>
  mkRefs (sessionPromiseRef f) (inputAudioContextRef f) (outputAudioContextRef f)
         (sfxAudioContextRef f) (mediaStreamRef f) (scriptProcessorRef f)
         (mediaStreamSourceRef f) (nextStartTimeRef f) (audioSourcesRef f)
         (currentInputTranscriptionRef f) v).

(** The world outside. *)
Definition set_pending (v : list (nat * Pending)) : Stmt := upd_world (fun w =>
  mkWorld (API_KEY w) v (sessions w) (thens w) (microtasks w)
          (playing w) (fresh w) (trace w)).
Definition set_sessions (v : list (nat * Session)) : Stmt := upd_world (fun w =>
  mkWorld (API_KEY w) (pending w) v (thens w) (microtasks w)
          (playing w) (fresh w) (trace w)).
Definition set_thens (v : list (nat * Job)) : Stmt := upd_world (fun w =>
  mkWorld (API_KEY w) (pending w) (sessions w) v (microtasks w)
          (playing w) (fresh w) (trace w)).
Definition set_microtasks (v : list (nat * Job)) : Stmt := upd_world (fun w =>
  mkWorld (API_KEY w) (pending w) (sessions w) (thens w) v
          (playing w) (fresh w) (trace w)).
Definition set_playing (v : list nat) : Stmt := upd_world (fun w =>
  mkWorld (API_KEY w) (pending w) (sessions w) (thens w) (microtasks w)
          v (fresh w) (trace w)).
Definition set_fresh (v : nat) : Stmt := upd_world (fun w =>
  mkWorld (API_KEY w) (pending w) (sessions w) (thens w) (microtasks w)
          (playing w) v (trace w)).
Definition set_trace (v : list Effect) : Stmt := upd_world (fun w =>
  mkWorld (API_KEY w) (pending w) (sessions w) (thens w) (microtasks w)
          (playing w) (fresh w) v).

(** Record a call on an external object. *)
Definition emit (e : Effect) : Stmt := fun s => set_trace (trace (world s) ++ [e]) s.

(** Take a new object identity. *)
Definition bump : Stmt := fun s => set_fresh (S (fresh (world s))) s.

Definition remove_key {A} (k : nat) (l : list (nat * A)) : list (nat * A) :=
  filter (fun p => negb (fst p =? k)%nat) l.

Fixpoint lookup_key {A} (k : nat) (l : list (nat * A)) : option A :=
  match l with
  | [] => None
  | (k', a) :: r => if (k' =? k)%nat then Some a else lookup_key k r
  end.

(** [Set.prototype.add] and [delete] on a set kept in insertion order. *)
Definition set_add (x : nat) (l : list nat) : list nat :=
  if existsb (Nat.eqb x) l then l else l ++ [x].
Definition set_delete (x : nat) (l : list nat) : list nat :=
  filter (fun y => negb (y =? x)%nat) l.

(** ** Session promises *)

(** Has the promise of session [sid] resolved? *)
Definition is_resolved (sid : nat) (w : World) : bool :=
  match lookup_key sid (sessions w) with
  | Some se => resolved se
  | None => false
  end.

(** [promise.then(job)] on the promise of session [sid]: a microtask is
    queued if the promise has resolved; otherwise the callback waits for
    the promise. *)
Definition then_ (sid : nat) (j : Job) : Stmt := fun s =>
  if is_resolved sid (world s)
  then set_microtasks (microtasks (world s) ++ [(sid, j)]) s
  else set_thens (thens (world s) ++ [(sid, j)]) s.

(** The call a callback makes on the session it is given. *)
Definition jobEffect (p : nat * Job) : Effect :=
  match snd p with
  | JobClose => SessionClose (fst p)
  | JobToolResponse id name => SendToolResponse (fst p) id name "ok"
  end.

(** [session.close()]: the connection starts closing, unless it is closed
    already. *)
Definition closing (se : Session) : Session :=
  {| transport := match transport se with
                  | TransportClosed => TransportClosed
                  | _ => TransportClosing
                  end;
     resolved := resolved se |}.

Definition update_session (sid : nat) (f : Session -> Session) : Stmt := fun s =>
  set_sessions (map (fun p => if (fst p =? sid)%nat then (fst p, f (snd p)) else p)
                    (sessions (world s))) s.

Definition run_job (s : AppState) (p : nat * Job) : AppState :=
  match snd p with
  | JobClose => (emit (jobEffect p) ;; update_session (fst p) closing) s
  | JobToolResponse _ _ => emit (jobEffect p) s
  end.

(** The running code gives way: the queued microtasks run, in the order
    in which they were queued. *)
Definition checkpoint : Stmt := fun s =>
  fold_left run_job (microtasks (world s)) (set_microtasks [] s).

(** The promise of session [sid] resolves: the callbacks that waited for
    it are queued, in the order of their registration. *)
Definition resolve (sid : nat) : Stmt :=
  update_session sid (fun se => {| transport := transport se; resolved := true |}) ;;
  fun s =>
    (set_microtasks (microtasks (world s)
                     ++ filter (fun p => (fst p =? sid)%nat) (thens (world s))) ;;
     set_thens (filter (fun p => negb (fst p =? sid)%nat) (thens (world s)))) s.

(** ** stopAudioProcessing (lines 76-113) *)

(** [ctx && ctx.state !== 'closed']. *)
Definition open_context (c : option AudioContext) : bool :=
  match c with
  | Some c => negb (is_closed (ctx_state c))
  | None => false
  end.

(** Lines 77-80: [session.close()] is left to a callback on the promise
    held, and the ref is cleared. *)
Definition closeSession : Stmt := fun s =>
  match sessionPromiseRef (refs s) with
  | Some sid => (then_ sid JobClose ;; set_sessionPromiseRef None) s
  | None => s
  end.

(** Lines 81-84. *)
Definition disconnectCapture : Stmt := fun s =>
  match scriptProcessorRef (refs s), mediaStreamSourceRef (refs s) with
  | Some p, Some m => (emit (NodeDisconnect m) ;; emit (NodeDisconnect p)) s
  | _, _ => s
  end.

(** Lines 85-88. *)
Definition stopTracks : Stmt := fun s =>
  match mediaStreamRef (refs s) with
  | Some m => (emit (TrackStop m) ;; set_mediaStreamRef None) s
  | None => s
  end.

(** Lines 89-92. *)
Definition closeInput : Stmt := fun s =>
  if open_context (inputAudioContextRef (refs s))
  then (emit (ContextClose InputContext) ;; set_inputAudioContextRef None) s
  else s.

(** [for (const source of audioSourcesRef.current.values()) source.stop()]. *)
Definition stopSources : Stmt := fun s =>
  set_trace (trace (world s) ++ map SourceStop (audioSourcesRef (refs s))) s.

(** Lines 93-100. *)
Definition closeOutput : Stmt := fun s =>
  if open_context (outputAudioContextRef (refs s))
  then (stopSources ;; set_audioSourcesRef [] ;;
        emit (ContextClose OutputContext) ;; set_outputAudioContextRef None) s
  else s.

(** Lines 101-104. *)
Definition closeSfx : Stmt := fun s =>
  if open_context (sfxAudioContextRef (refs s))
  then (emit (ContextClose SfxContext) ;; set_sfxAudioContextRef None) s
  else s.

(** Lines 105-112. *)
Definition resetOnExit (isExiting : bool) : Stmt :=
  if isExiting
  then setJerryReaction JerryReaction.IDLE ;;
       setUserTranscript (fun _ => "") ;;
       setJerryTranscript (fun _ => "") ;;
       set_currentInputTranscriptionRef "" ;;
       set_currentOutputTranscriptionRef "" ;;
       setError None
  else skip.

Definition stopAudioProcessing (isExiting : bool) : Stmt :=
  closeSession ;; disconnectCapture ;; stopTracks ;; closeInput ;;
  closeOutput ;; closeSfx ;; resetOnExit isExiting.

(** ** handleToggleConversation (lines 175-357) *)

(** [!process.env.API_KEY] is false. *)
Definition keyPresent (s : AppState) : bool :=
  match API_KEY (world s) with
  | Some k => truthy k
  | None => false
  end.

Definition missingKeyMessage : string := "API_KEY environment variable not set.".

(** Park the running [async] function at its [await]. *)
Definition suspend (p : Pending) : Stmt := fun s =>
  (set_pending (pending (world s) ++ [(fresh (world s), p)]) ;; bump) s.

(** The [catch] of lines 351-356; [msg] is [err.message] when [err] is an
    [Error]. *)
Definition toggle_catch (msg : option string) : Stmt :=
  emit (ConsoleError (match msg with Some m => m | None => "" end)) ;;
  setError (Some (match msg with
                  | Some m => m
                  | None => "An unknown error occurred."
                  end)) ;;
  setGameState GameState.IDLE ;;
  stopAudioProcessing false.

(** Lines 176-185: the stop branch. *)
Definition toggle_stop : Stmt :=
  setGameState GameState.IDLE ;;
  setJerryReaction JerryReaction.IDLE ;;
  stopAudioProcessing false ;;
  setUserTranscript (fun _ => "") ;;
  setJerryTranscript (fun _ => "") ;;
  set_currentInputTranscriptionRef "" ;;
  set_currentOutputTranscriptionRef "".

(** Lines 187-201: the start branch up to [await getUserMedia]. *)
Definition toggle_start (c : Closure) : Stmt :=
  setError None ;;
  setGameState GameState.CONNECTING ;;
  fun s =>
    if negb (keyPresent s) then toggle_catch (Some missingKeyMessage) s
    else
      (emit (ContextCreate InputContext) ;;
       set_inputAudioContextRef (Some (newAudioContext (Some 16000%positive))) ;;
       (fun s =>
          if open_context (outputAudioContextRef (refs s)) then s
          else (emit (ContextCreate OutputContext) ;;
                set_outputAudioContextRef
                  (Some (newAudioContext (Some 24000%positive)))) s) ;;
       emit GetUserMedia ;;
       suspend (AwaitUserMedia c)) s.

(** The handler.  [gameState] in the guard is the value of the render the
    handler belongs to; the button of the game screen calls the handler
    of the current render, and an auto-start does not reach the test. *)
Definition handleToggleConversation (isAutoStart : bool) (c : Closure) : Stmt :=
  fun s =>
    if negb isAutoStart
       && negb (GameState.eqb (gameState (react s)) GameState.IDLE)
    then toggle_stop s
    else toggle_start c s.

(** Lines 201-349 once [getUserMedia] has resolved: keep the stream and
    open the session.  The system instruction is determined by the
    closure's mode, name and age, which the connect call records. *)
Definition toggle_granted (c : Closure) : Stmt := fun s =>
  let stream := fresh (world s) in
  let sid := S stream in
  (bump ;; bump ;;
   set_mediaStreamRef (Some stream) ;;
   emit (LiveConnect sid c) ;;
   (fun s => set_sessions
               (sessions (world s)
                ++ [(sid, {| transport := TransportConnecting;
                             resolved := false |})]) s) ;;
   set_sessionPromiseRef (Some sid)) s.

(** [getUserMedia] rejected: the [catch]. *)
Definition toggle_denied (msg : option string) : Stmt := toggle_catch msg.

(** ** playGreeting (lines 115-155) *)

Definition greeting_catch (c : Closure) : Stmt :=
  emit (ConsoleError "Greeting error:") ;;
  setError (Some "Couldn't say hello! Starting conversation anyway.") ;;
  handleToggleConversation true c.

(** Lines 116-126, up to [await ai.models.generateContent]. *)
Definition playGreeting (name : string) (c : Closure) : Stmt := fun s =>
  if negb (keyPresent s) then greeting_catch c s
  else
    (emit (ContextCreate OutputContext) ;;
     set_outputAudioContextRef (Some (newAudioContext (Some 24000%positive))) ;;
     setJerryReaction JerryReaction.MIMICKING ;;
     setGameState GameState.GREETING ;;
     emit (GenerateContent name) ;;
     suspend (AwaitGenerateContent c)) s.

(** What the greeting request came back with. *)
Inductive GreetingResult :=
| GreetingRejected
| GreetingAnswer (audio : option InlineData).

(** Lines 137-154.  With audio, decoding and [createBufferSource] need the
    output context: without it one of them throws and the [catch] runs.
    Nothing is given to a [then] before the [await] of line 139. *)
Definition greeting_answered (c : Closure) (r : GreetingResult) : Stmt := fun s =>
  match r with
  | GreetingRejected => greeting_catch c s
  | GreetingAnswer None => handleToggleConversation true c s
  | GreetingAnswer (Some a) =>
      if negb (truthy (data a)) then handleToggleConversation true c s
      else
        match outputAudioContextRef (refs s), decoded a with
        | Some _, Some buf =>
            (emit (SourceStart (fresh (world s)) None buf) ;; bump ;;
             suspend (AwaitGreetingEnded c)) s
        | _, _ => greeting_catch c s
        end
  end.

(** [source.onended] of the greeting (line 144). *)
Definition greeting_ended (c : Closure) : Stmt := handleToggleConversation true c.

(** ** handleStartGame and handleExitGame (lines 157-172) *)

Definition closure_of (s : AppState) : Closure :=
  {| cl_gameMode := gameMode (react s);
     cl_userName := userName (react s);
     cl_userAge := userAge (react s) |}.

Definition fillFieldsMessage : string := "Please fill out all fields.".

Definition handleStartGame (name age : string) (mode : GameMode.t) : Stmt := fun s =>
  if negb (truthy (trim name)) || negb (truthy age)
  then setError (Some fillFieldsMessage) s
  else
    (setUserName name ;; setUserAge age ;; setGameMode mode ;;
     setError None ;; playGreeting name (closure_of s)) s.

Definition handleExitGame : Stmt :=
  stopAudioProcessing true ;; setGameState GameState.PRE_GAME.

(** ** The session callbacks (lines 234-337) *)

(** [onopen]: without the input context or the stream the callback throws
    after its first statement. *)
Definition onopen : Stmt :=
  setGameState GameState.LISTENING ;;
  fun s =>
    match inputAudioContextRef (refs s), mediaStreamRef (refs s) with
    | Some _, Some _ =>
        let source := fresh (world s) in
        let scriptProcessor := S source in
        (bump ;; bump ;;
         emit (NodeConnect source) ;; emit (NodeConnect scriptProcessor) ;;
         set_mediaStreamSourceRef (Some source) ;;
         set_scriptProcessorRef (Some scriptProcessor)) s
    | _, _ => s
    end.

Definition reactionTool : string := "setJerrysReaction".

(** [sessionPromiseRef.current?.then(session => session.sendToolResponse(...))]:
    the response is left to a callback on the promise the ref holds when
    the call is handled. *)
Definition acknowledge (fc : FunctionCall) : Stmt := fun s =>
  match sessionPromiseRef (refs s) with
  | Some sid => then_ sid (JobToolResponse (fc_id fc) (fc_name fc)) s
  | None => s
  end.

(** The body of the loop of lines 256-270. *)
Definition handleFunctionCall (s : AppState) (fc : FunctionCall) : AppState :=
  if fc_name fc =? reactionTool
  then (setJerryReaction (fc_reaction fc) ;; acknowledge fc) s
  else s.

(** Lines 255-271. *)
Definition toolCallBlock (m : Message) : Stmt := fun s =>
  match toolCall m with
  | Some functionCalls => fold_left handleFunctionCall functionCalls s
  | None => s
  end.

(** Lines 273-281. *)
Definition transcriptionBlock (m : Message) : Stmt := fun s =>
  match outputTranscription m, inputTranscription m with
  | Some text, _ =>
      let cur := (currentOutputTranscriptionRef (refs s) ++ text)%string in
      (set_currentOutputTranscriptionRef cur ;;
       setJerryTranscript (fun _ => cur)) s
  | None, Some text =>
      let cur := (currentInputTranscriptionRef (refs s) ++ text)%string in
      (set_currentInputTranscriptionRef cur ;;
       setUserTranscript (fun _ => cur)) s
  | None, None => s
  end.

(** Lines 283-292. *)
Definition turnCompleteBlock (m : Message) : Stmt := fun s =>
  if turnComplete m then
    ((fun s =>
        if truthy (trim (currentInputTranscriptionRef (refs s)))
        then (setGameState GameState.THINKING ;;
              setJerryReaction JerryReaction.THINKING) s
        else s) ;;
     setUserTranscript (fun prev => (prev ++ " ")%string) ;;
     setJerryTranscript (fun prev => (prev ++ " ")%string) ;;
     set_currentInputTranscriptionRef "" ;;
     set_currentOutputTranscriptionRef "") s
  else s.

(** How a block of an [async] callback ends: it falls through to the next
    statement, or the callback is left ([return], or a rejected [await]). *)
Inductive Completion :=
| Normal (s : AppState)
| Abrupt (s : AppState).

(** Lines 294-318; [now] is [outputAudioContext.currentTime].  The
    callback gives way at [await decodeAudioData(...)] (line 301), whether
    the decoding succeeds or not. *)
Definition audioBlock (m : Message) (now : float) (s : AppState) : Completion :=
  match modelTurn m with
  | None => Normal s
  | Some a =>
      if negb (truthy (data a)) then Normal s
      else
        let s := setGameState GameState.TALKING s in
        match outputAudioContextRef (refs s) with
        | None => Abrupt s
        | Some _ =>
            let s := set_nextStartTimeRef
                       (Math_max (nextStartTimeRef (refs s)) now) s in
            let s := checkpoint s in
            match decoded a with
            | None => Abrupt s
            | Some audioBuffer =>
                let source := fresh (world s) in
                let startTime := nextStartTimeRef (refs s) in
                Normal
                  ((bump ;;
                    (fun s => set_playing (playing (world s) ++ [source]) s) ;;
                    emit (SourceStart source (Some startTime) audioBuffer) ;;
                    set_nextStartTimeRef (startTime + duration audioBuffer)%float ;;
                    (fun s => set_audioSourcesRef
                                (set_add source (audioSourcesRef (refs s))) s))
                     s)
            end
        end
  end.

(** Lines 320-326. *)
Definition interruptedBlock (m : Message) : Stmt := fun s =>
  if interrupted m
  then (stopSources ;; set_audioSourcesRef [] ;; set_nextStartTimeRef 0%float) s
  else s.

Definition onmessage (m : Message) (now : float) (s : AppState) : AppState :=
  match audioBlock m now
          ((toolCallBlock m ;; transcriptionBlock m ;; turnCompleteBlock m) s)
  with
  | Normal s' => interruptedBlock m s'
  | Abrupt s' => s'
  end.

(** The ['ended'] listener of a scheduled source (lines 307-313). *)
Definition onended (source : nat) : Stmt :=
  (fun s => set_audioSourcesRef (set_delete source (audioSourcesRef (refs s))) s) ;;
  fun s =>
    match audioSourcesRef (refs s) with
    | [] => (setGameState GameState.LISTENING ;;
             setJerryReaction JerryReaction.IDLE) s
    | _ => s
    end.

Definition sessionErrorMessage : string := "An error occurred. Please try again.".

Definition onerror : Stmt :=
  emit (ConsoleError "Session error:") ;;
  setError (Some sessionErrorMessage) ;;
  setGameState GameState.IDLE ;;
  stopAudioProcessing false.

Definition onclose : Stmt :=
  setGameState GameState.IDLE ;;
  stopAudioProcessing false.

(** ** The sound effect hook (lines 50-74) *)

Definition hasSound (r : string) : bool :=
  (r =? JerryReaction.SURPRISED) || (r =? JerryReaction.SAD)
  || (r =? JerryReaction.LAUGHING) || (r =? JerryReaction.SMART).

Definition reactionEffect : Stmt := fun s =>
  if GameState.eqb (gameState (react s)) GameState.IDLE then s
  else
    ((fun s =>
        if open_context (sfxAudioContextRef (refs s)) then s
        else (emit (ContextCreate SfxContext) ;;
              set_sfxAudioContextRef (Some (newAudioContext None))) s) ;;
     fun s =>
       if hasSound (jerryReaction (react s))
       then emit (PlaySound (jerryReaction (react s))) s
       else s) s.

(** ** The component as a transition system *)

(** What can happen to the mounted component: a click, the completion of
    a suspended call, a callback of a session, the end of a source, a
    run of the effect hook. *)
Inductive Label :=
| ClickStartGame (name age : string) (mode : GameMode.t)
| ClickExit
| ClickToggle
| GreetingSettled (task : nat) (r : GreetingResult)
| GreetingEnded (task : nat)
| MediaGranted (task : nat)
| MediaDenied (task : nat) (msg : option string)
| SessionOpened (sid : nat) (resolves : bool)
| SessionMessage (sid : nat) (m : Message) (now : float)
| SessionError (sid : nat)
| SessionClosed (sid : nat)
| SourceEnded (source : nat)
| EffectRun.

Definition take_pending (task : nat) : Stmt := fun s =>
  set_pending (remove_key task (pending (world s))) s.

Definition transport_of (sid : nat) (w : World) : option Transport :=
  match lookup_key sid (sessions w) with
  | Some se => Some (transport se)
  | None => None
  end.

(** The connection of session [sid] is being set up. *)
Definition connecting (sid : nat) (w : World) : bool :=
  match transport_of sid w with
  | Some TransportConnecting => true
  | _ => false
  end.

(** Session [sid] delivers messages: its connection is open and [close()]
    has not been called on it. *)
Definition delivers (sid : nat) (w : World) : bool :=
  match transport_of sid w with
  | Some TransportOpen => true
  | _ => false
  end.

(** Session [sid] can still report an error or its closing. *)
Definition reports (sid : nat) (w : World) : bool :=
  match transport_of sid w with
  | Some TransportClosed | None => false
  | Some _ => true
  end.

(** The connection of session [sid] opens ([onopen] is due). *)
Definition mark_open (sid : nat) : Stmt :=
  update_session sid (fun se => {| transport := TransportOpen;
                                   resolved := resolved se |}).

(** The connection of session [sid] is closed ([onclose] is due). *)
Definition mark_closed (sid : nat) : Stmt :=
  update_session sid (fun se => {| transport := TransportClosed;
                                   resolved := resolved se |}).

(** The times a message comes with: the clock of the output context and
    the length of the decoded buffer. *)
Definition wellTimed (m : Message) (now : float) : bool :=
  is_time now
  && match modelTurn m with
     | Some a =>
         match decoded a with
         | Some buf => is_time (duration buf)
         | None => true
         end
     | None => true
     end.

(** What runs when [l] happens, if it can happen.  The intro screen (with
    its start button) is rendered in [PRE_GAME], the game screen (exit and
    toggle buttons) otherwise; a continuation resumes once; a session
    calls [onopen] once, when its connection opens, and [resolves] says
    whether the promise of [live.connect] resolves behind it; an open
    session delivers messages until [close()] is called on it; a session
    reports an error or its closing until it is closed; a source ends
    once. *)
Definition handler (s : AppState) (l : Label) : option Stmt :=
  match l with
  | ClickStartGame name age mode =>
      if GameState.eqb (gameState (react s)) GameState.PRE_GAME
      then Some (handleStartGame name age mode) else None
  | ClickExit =>
      if GameState.eqb (gameState (react s)) GameState.PRE_GAME
      then None else Some handleExitGame
  | ClickToggle =>
      if GameState.eqb (gameState (react s)) GameState.PRE_GAME
      then None else Some (handleToggleConversation false (closure_of s))
  | GreetingSettled task r =>
      match lookup_key task (pending (world s)) with
      | Some (AwaitGenerateContent c) =>
          Some (take_pending task ;; greeting_answered c r)
      | _ => None
      end
  | GreetingEnded task =>
      match lookup_key task (pending (world s)) with
      | Some (AwaitGreetingEnded c) =>
          Some (take_pending task ;; greeting_ended c)
      | _ => None
      end
  | MediaGranted task =>
      match lookup_key task (pending (world s)) with
      | Some (AwaitUserMedia c) =>
          Some (take_pending task ;; toggle_granted c)
      | _ => None
      end
  | MediaDenied task msg =>
      match lookup_key task (pending (world s)) with
      | Some (AwaitUserMedia c) =>
          Some (take_pending task ;; toggle_denied msg)
      | _ => None
      end
  | SessionOpened sid resolves =>
      if connecting sid (world s)
      then Some (mark_open sid ;; onopen ;;
                 if resolves then resolve sid else skip)
      else None
  | SessionMessage sid m now =>
      if delivers sid (world s) && wellTimed m now
      then Some (onmessage m now) else None
  | SessionError sid =>
      if reports sid (world s) then Some onerror else None
  | SessionClosed sid =>
      if reports sid (world s) then Some (mark_closed sid ;; onclose) else None
  | SourceEnded source =>
      if existsb (Nat.eqb source) (playing (world s))
      then Some ((fun s => set_playing (set_delete source (playing (world s))) s) ;;
                 onended source)
      else None
  | EffectRun => Some reactionEffect
  end.

(** One step: the handler runs, then the microtasks it has queued. *)
Definition step (s : AppState) (l : Label) : option AppState :=
  match handler s l with
  | Some h => Some (checkpoint (h s))
  | None => None
  end.

Fixpoint run (s : AppState) (ls : list Label) : option AppState :=
  match ls with
  | [] => Some s
  | l :: ls' =>
      match step s l with
      | Some s' => run s' ls'
      | None => None
      end
  end.

(** A state the mounted component can be in. *)
Definition reachable (s : AppState) : Prop :=
  exists key ls, run (initialState key) ls = Some s.

(** * Vocabulary of the statements *)

(** ** Doubles in order *)

(** What [binary_round_aux] makes of [m * 2 ^ e] is above [(mx, ex)] in
    the order of [SFcompare]. *)
Definition above (mx : positive) (ex : Z) (r : spec_float) : Prop :=
  match r with
  | S754_infinity false => True
  | S754_finite false mr er => (ex < er \/ (er = ex /\ Zpos mx <= Zpos mr))%Z
  | _ => False
  end.

(** Zero, or above it. *)
Definition SFnonneg (x : spec_float) : bool :=
  match x with
  | S754_zero _ | S754_finite false _ _ | S754_infinity false => true
  | _ => false
  end.

(** A number that is not NaN, placed on a line: the infinities at the
    ends, a finite number by its sign, exponent and mantissa. *)
Definition SFkey (x : spec_float) : option (Z * Z * Z) :=
  match x with
  | S754_nan => None
  | S754_infinity true => Some (-2, 0, 0)%Z
  | S754_finite true m e => Some (-1, - e, - Zpos m)%Z
  | S754_zero _ => Some (0, 0, 0)%Z
  | S754_finite false m e => Some (1, e, Zpos m)%Z
  | S754_infinity false => Some (2, 0, 0)%Z
  end.

(** The line is ordered by sign, then exponent, then mantissa. *)
Definition key_compare (a b : Z * Z * Z) : comparison :=
  let '(a1, a2, a3) := a in
  let '(b1, b2, b3) := b in
  match Z.compare a1 b1 with
  | Eq => match Z.compare a2 b2 with
          | Eq => Z.compare a3 b3
          | c => c
          end
  | c => c
  end.

Definition key_le (a b : Z * Z * Z) : Prop :=
  let '(a1, a2, a3) := a in
  let '(b1, b2, b3) := b in
  (a1 < b1 \/ (a1 = b1 /\ (a2 < b2 \/ (a2 = b2 /\ a3 <= b3))))%Z.

Definition key_lt (a b : Z * Z * Z) : Prop :=
  let '(a1, a2, a3) := a in
  let '(b1, b2, b3) := b in
  (a1 < b1 \/ (a1 = b1 /\ (a2 < b2 \/ (a2 = b2 /\ a3 < b3))))%Z.

(** The place of a double. *)
Definition key (x : float) : option (Z * Z * Z) := SFkey (Prim2SF x).

(** ** Frames *)

(** The world but for its two queues. *)
Definition same_outside (w w' : World) : Prop :=
  API_KEY w' = API_KEY w /\ pending w' = pending w /\
  sessions w' = sessions w /\ playing w' = playing w /\
  fresh w' = fresh w /\ trace w' = trace w.

(** What a callback leaves of the world: all but the log and the
    connections of the sessions. *)
Definition same_but_sessions (w w' : World) : Prop :=
  API_KEY w' = API_KEY w /\ pending w' = pending w /\
  thens w' = thens w /\ microtasks w' = microtasks w /\
  playing w' = playing w /\ fresh w' = fresh w /\
  map fst (sessions w') = map fst (sessions w).


(** [r'] is [r] but for the reaction. *)
Definition same_but_reaction (r r' : ReactState) : Prop :=
  gameState r' = gameState r /\ gameMode r' = gameMode r /\
  userTranscript r' = userTranscript r /\
  jerryTranscript r' = jerryTranscript r /\
  error r' = error r /\ userName r' = userName r /\ userAge r' = userAge r.

(** [s'] has the transcripts, the pending buffers and the reaction of
    [s]. *)
Definition same_text (s s' : AppState) : Prop :=
  userTranscript (react s') = userTranscript (react s) /\
  jerryTranscript (react s') = jerryTranscript (react s) /\
  jerryReaction (react s') = jerryReaction (react s) /\
  currentInputTranscriptionRef (refs s') = currentInputTranscriptionRef (refs s) /\
  currentOutputTranscriptionRef (refs s') = currentOutputTranscriptionRef (refs s).

Definition completion_state (c : Completion) : AppState :=
  match c with Normal s => s | Abrupt s => s end.

(** The message has an audio payload ([base64Audio] is truthy). *)
Definition carries_audio (m : Message) : bool :=
  match modelTurn m with
  | Some a => truthy (data a)
  | None => false
  end.

(** ** Messages and executions used as examples *)


(** A session opened the usual way: start, greeting without audio,
    microphone granted, transport open.  The greeting is task 0, the
    media request task 1, the stream object 2 and the session 3. *)
Definition openingTrace : list Label :=
  [ClickStartGame "Alex" "10-18" GameMode.AI;
   GreetingSettled 0 (GreetingAnswer None);
   MediaGranted 1;
   SessionOpened 3 true].

Definition userFragment (text : string) : Message :=
  {| toolCall := None; outputTranscription := None;
     inputTranscription := Some text;
     turnComplete := false; modelTurn := None; interrupted := false |}.

Definition turnCompleteEvent : Message :=
  {| toolCall := None; outputTranscription := None; inputTranscription := None;
     turnComplete := true; modelTurn := None; interrupted := false |}.

(** ** Acknowledgments *)

Definition isToolResponse (e : Effect) : bool :=
  match e with
  | SendToolResponse _ _ _ _ => true
  | _ => false
  end.

(** The acknowledgments sent so far. *)
Definition toolResponses (t : list Effect) : list Effect :=
  filter isToolResponse t.

Definition isReactionCall (fc : FunctionCall) : bool := fc_name fc =? reactionTool.

Definition acknowledgment (sid : nat) (fc : FunctionCall) : Effect :=
  SendToolResponse sid (fc_id fc) (fc_name fc) "ok".

(** The callback that sends it. *)
Definition responseJob (sid : nat) (fc : FunctionCall) : nat * Job :=
  (sid, JobToolResponse (fc_id fc) (fc_name fc)).

(** The acknowledgments sent, followed by those of the callbacks queued
    to run. *)
Definition responsesDue (w : World) : list Effect :=
  toolResponses (trace w) ++ toolResponses (map jobEffect (microtasks w)).

Definition reactionCommand (id reaction : string) : Message :=
  {| toolCall := Some [{| fc_id := id; fc_name := "setJerrysReaction";
                          fc_reaction := reaction |}];
     outputTranscription := None; inputTranscription := None;
     turnComplete := false; modelTurn := None; interrupted := false |}.

(** ** Teardown *)

(** A ref to an audio context never holds a closed one ([close()] is always
    followed by the assignment of [null]), and sources are only created
    on, and kept for, the output context that is held. *)
Definition context_ok (c : option AudioContext) : Prop :=
  match c with
  | Some c => ctx_state c <> closed
  | None => True
  end.

Definition refs_ok (f : Refs) : Prop :=
  context_ok (inputAudioContextRef f) /\
  context_ok (outputAudioContextRef f) /\
  context_ok (sfxAudioContextRef f) /\
  (outputAudioContextRef f = None -> audioSourcesRef f = []).

(** [close()] and the assignment of [null], done on a context that is not
    closed. *)
Definition release (c : option AudioContext) : option AudioContext :=
  if open_context c then None else c.

(** What [stopAudioProcessing] leaves of the refs. *)
Definition stopped_refs (isExiting : bool) (f : Refs) : Refs :=
  {| sessionPromiseRef := None;
     inputAudioContextRef := release (inputAudioContextRef f);
     outputAudioContextRef := release (outputAudioContextRef f);
     sfxAudioContextRef := release (sfxAudioContextRef f);
     mediaStreamRef := None;
     scriptProcessorRef := scriptProcessorRef f;
     mediaStreamSourceRef := mediaStreamSourceRef f;
     nextStartTimeRef := nextStartTimeRef f;
     audioSourcesRef :=
       if open_context (outputAudioContextRef f) then [] else audioSourcesRef f;
     currentInputTranscriptionRef :=
       if isExiting then "" else currentInputTranscriptionRef f;
     currentOutputTranscriptionRef :=
       if isExiting then "" else currentOutputTranscriptionRef f |}.

(** The calls it makes itself, in order; [close()] on the session is not
    among them. *)
Definition teardownEffects (f : Refs) : list Effect :=
  match scriptProcessorRef f, mediaStreamSourceRef f with
  | Some p, Some m => [NodeDisconnect m; NodeDisconnect p]
  | _, _ => []
  end
  ++ match mediaStreamRef f with
     | Some m => [TrackStop m]
     | None => []
     end
  ++ (if open_context (inputAudioContextRef f)
      then [ContextClose InputContext] else [])
  ++ (if open_context (outputAudioContextRef f)
      then map SourceStop (audioSourcesRef f) ++ [ContextClose OutputContext]
      else [])
  ++ (if open_context (sfxAudioContextRef f)
      then [ContextClose SfxContext] else []).

(** The callback it registers on the promise held. *)
Definition closeJob (f : Refs) : list (nat * Job) :=
  match sessionPromiseRef f with
  | Some sid => [(sid, JobClose)]
  | None => []
  end.

(** The promise held has resolved. *)
Definition holds_resolved (f : Refs) (w : World) : bool :=
  match sessionPromiseRef f with
  | Some sid => is_resolved sid w
  | None => false
  end.

(** The calls of the callbacks it has queued, which run once the handler
    has returned: [close()] on the session held, if its promise has
    resolved. *)
Definition closeCalls (f : Refs) (w : World) : list Effect :=
  if holds_resolved f w then map jobEffect (closeJob f) else [].

(** What it leaves of the React state. *)
Definition stopped_react (isExiting : bool) (r : ReactState) : ReactState :=
  {| gameState := gameState r; gameMode := gameMode r;
     jerryReaction := if isExiting then JerryReaction.IDLE else jerryReaction r;
     userTranscript := if isExiting then "" else userTranscript r;
     jerryTranscript := if isExiting then "" else jerryTranscript r;
     error := if isExiting then None else error r;
     userName := userName r; userAge := userAge r |}.

Definition stopped_world (f : Refs) (w : World) : World :=
  {| API_KEY := API_KEY w;
     pending := pending w;
     sessions := sessions w;
     thens := if holds_resolved f w then thens w else thens w ++ closeJob f;
     microtasks := if holds_resolved f w then microtasks w ++ closeJob f
                   else microtasks w;
     playing := playing w;
     fresh := fresh w;
     trace := trace w ++ teardownEffects f |}.

(** A statement that logs [es], replaces the refs by [f'] and the two
    queues by [ts'] and [ms'], and keeps the rest. *)
Definition logged (s : AppState) (f' : Refs) (ts' ms' : list (nat * Job))
    (es : list Effect) : AppState :=
  {| react := react s;
     refs := f';
     world := {| API_KEY := API_KEY (world s); pending := pending (world s);
                 sessions := sessions (world s);
                 thens := ts'; microtasks := ms';
                 playing := playing (world s);
                 fresh := fresh (world s);
                 trace := trace (world s) ++ es |} |}.

(** Session [sid] does not deliver messages. *)
Definition silent (sid : nat) (w : World) : Prop := delivers sid w = false.

(** Between [s] and [s'], a handler and the microtasks behind it: the
    close of the session held was asked for and the handle dropped, the
    capture pipeline was stopped (tracks stopped, input context closed),
    and every active playback unit was stopped and the active set emptied
    with the output context closed.  The close is asked for on the
    promise: if it has resolved, [close()] is called on the session, which
    delivers no more; if it is pending, the call waits for it. *)
Definition torn_down (s s' : AppState) : Prop :=
  exists es,
    trace (world s') = trace (world s) ++ es /\
    sessionPromiseRef (refs s') = None /\
    (forall sid, sessionPromiseRef (refs s) = Some sid ->
                 if is_resolved sid (world s)
                 then In (SessionClose sid) es /\ silent sid (world s')
                 else In (sid, JobClose) (thens (world s'))) /\
    mediaStreamRef (refs s') = None /\
    (forall stream, mediaStreamRef (refs s) = Some stream ->
                    In (TrackStop stream) es) /\
    inputAudioContextRef (refs s') = None /\
    (inputAudioContextRef (refs s) <> None -> In (ContextClose InputContext) es) /\
    outputAudioContextRef (refs s') = None /\
    audioSourcesRef (refs s') = [] /\
    (forall src, In src (audioSourcesRef (refs s)) -> In (SourceStop src) es).

Definition characterFragment (text : string) : Message :=
  {| toolCall := None; outputTranscription := Some text;
     inputTranscription := None;
     turnComplete := false; modelTurn := None; interrupted := false |}.

(** A session in which the character laughs and has said "Hi". *)
Definition laughingTrace : list Label :=
  openingTrace
  ++ [SessionMessage 3 (reactionCommand "call-1" "laughing") 0%float;
      SessionMessage 3 (characterFragment "Hi") 0%float].

(** ** Acquisition *)

(** The calls that acquire something: an audio context, the microphone,
    a session, a greeting request. *)
Definition acquires (e : Effect) : bool :=
  match e with
  | LiveConnect _ _ | GenerateContent _ | GetUserMedia | ContextCreate _ => true
  | _ => false
  end.

(** The outcome of a start attempt that failed on the missing key. *)
Definition failed_on_key (s s' : AppState) : Prop :=
  gameState (react s') = GameState.IDLE /\
  error (react s') = Some missingKeyMessage /\
  (exists es, trace (world s') = trace (world s) ++ es /\
              forallb (fun e => negb (acquires e)) es = true) /\
  pending (world s') = pending (world s) /\
  fresh (world s') = fresh (world s) /\
  sessionPromiseRef (refs s') = None /\
  mediaStreamRef (refs s') = None /\
  inputAudioContextRef (refs s') = None /\
  outputAudioContextRef (refs s') = None.

(** ** The schedule *)

(** A unit handed to the output device: its start time and its duration. *)
Definition scheduledUnit (e : Effect) : list (float * float) :=
  match e with
  | SourceStart _ (Some startTime) buf => [(startTime, duration buf)]
  | _ => []
  end.

(** The units scheduled so far, in order. *)
Definition scheduled (t : list Effect) : list (float * float) :=
  flat_map scheduledUnit t.



(** The number a double stands for, if it stands for one. *)
Definition exact (x : float) : option Q :=
  match Prim2SF x with
  | S754_zero _ => Some 0%Q
  | S754_finite sign m e =>
      Some (inject_Z (if sign then Z.neg m else Z.pos m) * 2 ^ e)%Q
  | _ => None
  end.








(** The times of a step are those of a clock and of a buffer. *)
Definition timed (l : Label) : bool :=
  match l with
  | SessionMessage _ m now => wellTimed m now
  | _ => true
  end.


(** What one message adds to the schedule, and the [nextStart] it leaves,
    when it carries no interruption: [held] says whether the output
    context is there. *)
Definition scheduleStep (held : bool) (nextStart : float) (e : Message * float)
  : list (float * float) * float :=
  match modelTurn (fst e) with
  | Some a =>
      if truthy (data a) && held
      then match decoded a with
           | Some buf => ([(Math_max nextStart (snd e), duration buf)],
                          (Math_max nextStart (snd e) + duration buf)%float)
           | None => ([], Math_max nextStart (snd e))
           end
      else ([], nextStart)
  | None => ([], nextStart)
  end.

Definition held (s : AppState) : bool :=
  match outputAudioContextRef (refs s) with Some _ => true | None => false end.



Definition oneSecond : AudioBuffer := {| duration := 1 |}.

Definition audioDelta (payload : string) (buf : AudioBuffer) : Message :=
  {| toolCall := None; outputTranscription := None; inputTranscription := None;
     turnComplete := false;
     modelTurn := Some {| data := payload; decoded := Some buf |};
     interrupted := false |}.





Definition interruptedEvent : Message :=
  {| toolCall := None; outputTranscription := None; inputTranscription := None;
     turnComplete := false; modelTurn := None; interrupted := true |}.

(** The handler is left inside the audio block: the message has audio and
    the output context is missing (line 298) or the decoding is rejected
    (line 301). *)
Definition leaves_in_audio (m : Message) (s : AppState) : bool :=
  match modelTurn m with
  | Some a =>
      truthy (data a)
      && negb (held s && match decoded a with Some _ => true | None => false end)
  | None => false
  end.

(** A message with the interrupted flag and an audio payload whose
    decoding is rejected. *)
Definition interruptedWithBadAudio : Message :=
  {| toolCall := None; outputTranscription := None; inputTranscription := None;
     turnComplete := false;
     modelTurn := Some {| data := "AAA"; decoded := None |};
     interrupted := true |}.

Definition interruptedWithAudio : Message :=
  {| toolCall := None; outputTranscription := None; inputTranscription := None;
     turnComplete := false;
     modelTurn := Some {| data := "AAAA"; decoded := Some oneSecond |};
     interrupted := true |}.

(** A second start while the greeting of a first one is still awaited:
    the first greeting opens session 4, which schedules one buffer; the
    second greeting starts session 10 over it; the user's stop asks for
    the close of session 10, which is still connecting, and closes the
    output context; session 4 stays open. *)
Definition staleSessionTrace : list Label :=
  [ClickStartGame "Alex" "10-18" GameMode.AI;
   ClickExit;
   ClickStartGame "Alex" "10-18" GameMode.AI;
   GreetingSettled 0 (GreetingAnswer None);
   MediaGranted 2;
   SessionOpened 4 true;
   SessionMessage 4 (audioDelta "AAAA" oneSecond) 0.5%float;
   GreetingSettled 1 (GreetingAnswer None);
   MediaGranted 8;
   ClickToggle].

(** The second greeting of [staleSessionTrace] settles while session 4,
    opened by the first, is delivering. *)
Definition secondStartTrace : list Label :=
  [ClickStartGame "Alex" "10-18" GameMode.AI;
   ClickExit;
   ClickStartGame "Alex" "10-18" GameMode.AI;
   GreetingSettled 0 (GreetingAnswer None);
   MediaGranted 2;
   SessionOpened 4 true;
   GreetingSettled 1 (GreetingAnswer None)].

(** ** Outcomes of a step *)

Definition gs (s : AppState) : GameState.t := gameState (react s).

(** [s0] is [s] after statements that changed neither the refs, nor the
    sessions, nor the past of the log. *)
Definition follows (s s0 : AppState) : Prop :=
  refs s0 = refs s /\
  sessions (world s0) = sessions (world s) /\
  exists pre, trace (world s0) = trace (world s) ++ pre.

(** The outcome of a step other than a message, seen from the state [s]
    of the step: the game state is as it was, or one of [PRE_GAME],
    [GREETING], [CONNECTING], [LISTENING], or it is [IDLE] and the
    teardown has run. *)
Definition quiet_outcome (s s' : AppState) : Prop :=
  gs s' = gs s \/
  In (gs s') [GameState.PRE_GAME; GameState.GREETING;
              GameState.CONNECTING; GameState.LISTENING] \/
  (gs s' = GameState.IDLE /\ torn_down s s').

(** ** Function calls *)

(** The reaction a list of function calls leaves: that of the last
    [setJerrysReaction] call. *)
Definition lastReaction (fcs : list FunctionCall) (r : string) : string :=
  fold_left (fun r fc => if isReactionCall fc then fc_reaction fc else r) fcs r.

Definition twoReactionsAndAnother : Message :=
  {| toolCall := Some [{| fc_id := "a"; fc_name := "setJerrysReaction";
                          fc_reaction := "sad" |};
                       {| fc_id := "b"; fc_name := "somethingElse";
                          fc_reaction := "smart" |};
                       {| fc_id := "c"; fc_name := "setJerrysReaction";
                          fc_reaction := "laughing" |}];
     outputTranscription := None; inputTranscription := None;
     turnComplete := false; modelTurn := None; interrupted := false |}.

(** ** Transcripts *)

(** The text a message adds to the user's pending buffer: the user
    fragment, unless the message has a character fragment. *)
Definition userText (m : Message) : string :=
  match outputTranscription m, inputTranscription m with
  | None, Some text => text
  | _, _ => ""
  end.

Definition characterText (m : Message) : string :=
  match outputTranscription m with
  | Some text => text
  | None => ""
  end.

Definition hasUserText (m : Message) : bool :=
  match outputTranscription m, inputTranscription m with
  | None, Some _ => true
  | _, _ => false
  end.

Definition hasCharacterText (m : Message) : bool :=
  match outputTranscription m with
  | Some _ => true
  | None => false
  end.

Definition joined (l : list string) : string := fold_right append "" l.

(** The messages of a session handled one after the other, each with the
    device time at its handling. *)
Definition handle_all (s : AppState) (es : list (Message * float)) : AppState :=
  fold_left (fun s e => onmessage (fst e) (snd e) s) es s.

Definition userShown (s : AppState) : Prop :=
  userTranscript (react s) = currentInputTranscriptionRef (refs s).

Definition characterShown (s : AppState) : Prop :=
  jerryTranscript (react s) = currentOutputTranscriptionRef (refs s).

(** ** Audio contexts outside a session *)

(** On the intro screen and in [IDLE] neither the capture context nor the
    playback context is held. *)
Definition pipeline_released (s : AppState) : Prop :=
  gameState (react s) = GameState.PRE_GAME \/ gameState (react s) = GameState.IDLE ->
  inputAudioContextRef (refs s) = None /\ outputAudioContextRef (refs s) = None.

(** ** What a message may do *)




(** ** Identities *)

(** Every key of [l] is below [n]. *)
Definition keys_below {A} (n : nat) (l : list (nat * A)) : Prop :=
  Forall (fun p => fst p < n) l.

(** The suspended continuations and the sessions carry identities that
    were taken from the counter. *)
Definition ids_ok (w : World) : Prop :=
  keys_below (fresh w) (pending w) /\ keys_below (fresh w) (sessions w).

(** [w'] has taken identities from the counter of [w] and given them to
    what it added; it has made up none. *)
Definition grown (w w' : World) : Prop :=
  fresh w <= fresh w' /\
  (ids_ok w -> ids_ok w').

(** The callbacks that wait are on promises of sessions that were
    started, and so is the promise held. *)
Definition promises_ok (s : AppState) : Prop :=
  keys_below (fresh (world s)) (thens (world s)) /\
  forall sid, sessionPromiseRef (refs s) = Some sid -> sid < fresh (world s).

(** [s'] has taken identities from the counter of [s] only, and keeps
    its promises in order if [s] does. *)
Definition kept (s s' : AppState) : Prop :=
  fresh (world s) <= fresh (world s') /\
  (promises_ok s -> promises_ok s').

(** ** The greeting *)

(** The message the [catch] of [playGreeting] sets. *)
Definition greetingFailureMessage : string :=
  "Couldn't say hello! Starting conversation anyway.".

(** * Properties *)

(** ** Rounding to a double *)

Section Rounding.
Variables prec emax : Z.
Hypothesis prec_pos : (0 < prec)%Z.

Local Open Scope Z_scope.

Local Abbreviation fexp := (SpecFloat.fexp prec emax).
Local Abbreviation emin := (SpecFloat.emin prec emax).

Lemma digits2_pos_size (p : positive) : digits2_pos p = Pos.size p.
Proof. induction p; simpl; congruence. Qed.

Lemma digits2_log2 (p : positive) : Zpos (digits2_pos p) = Z.log2 (Zpos p) + 1.
Proof.
  rewrite digits2_pos_size. destruct p; simpl; try reflexivity; lia.
Qed.

Lemma digits2_bounds (p : positive) :
  2 ^ (Zpos (digits2_pos p) - 1) <= Zpos p < 2 ^ Zpos (digits2_pos p).
Proof.
  rewrite digits2_log2.
  pose proof (Z.log2_spec (Zpos p) eq_refl) as H.
  replace (Z.log2 (Zpos p) + 1 - 1) with (Z.log2 (Zpos p)) by lia.
  replace (Z.log2 (Zpos p) + 1) with (Z.succ (Z.log2 (Zpos p))) by lia.
  exact H.
Qed.

Lemma Zdigits2_pos (p : positive) : Zdigits2 (Zpos p) = Zpos (digits2_pos p).
Proof. reflexivity. Qed.

Lemma digits2_le (p q : positive) :
  Zpos p <= Zpos q -> Zpos (digits2_pos p) <= Zpos (digits2_pos q).
Proof.
  intros H. rewrite !digits2_log2.
  pose proof (Z.log2_le_mono _ _ H). lia.
Qed.

Lemma digits2_shift (p : positive) (k : Z) (q : positive) :
  0 <= k -> Zpos q = Zpos p * 2 ^ k ->
  Zpos (digits2_pos q) = Zpos (digits2_pos p) + k.
Proof.
  intros Hk E. rewrite !digits2_log2, E.
  rewrite Z.log2_mul_pow2 by lia. lia.
Qed.

(** Shifting right. *)

Lemma shr_1_m (mrs : shr_record) :
  0 <= shr_m mrs -> shr_m (shr_1 mrs) = shr_m mrs / 2.
Proof.
  destruct mrs as [m r s]. simpl. intros H.
  destruct m as [|p|p]; [reflexivity| |lia].
  destruct p; simpl.
  - rewrite Pos2Z.inj_xI. apply Z.div_unique with 1; lia.
  - rewrite Pos2Z.inj_xO. apply Z.div_unique with 0; lia.
  - reflexivity.
Qed.

Lemma iter_pos_shr_m (p : positive) (mrs : shr_record) :
  0 <= shr_m mrs ->
  shr_m (iter_pos shr_1 p mrs) = shr_m mrs / 2 ^ Zpos p.
Proof.
  revert mrs. induction p as [p IH|p IH|]; intros mrs H.
  - change (iter_pos shr_1 p~1 mrs)
      with (iter_pos shr_1 p (iter_pos shr_1 p (shr_1 mrs))).
    assert (H1 : 0 <= shr_m (shr_1 mrs))
      by (rewrite shr_1_m by exact H; apply Z.div_pos; lia).
    assert (H2 : 0 <= shr_m (iter_pos shr_1 p (shr_1 mrs)))
      by (rewrite IH by exact H1; apply Z.div_pos; lia).
    rewrite IH, IH, shr_1_m by assumption.
    rewrite !Z.div_div by lia.
    f_equal.
    replace (Zpos p~1) with (1 + Zpos p + Zpos p) by lia.
    rewrite !Z.pow_add_r by lia. lia.
  - change (iter_pos shr_1 p~0 mrs)
      with (iter_pos shr_1 p (iter_pos shr_1 p mrs)).
    assert (H2 : 0 <= shr_m (iter_pos shr_1 p mrs))
      by (rewrite IH by exact H; apply Z.div_pos; lia).
    rewrite IH, IH by assumption.
    rewrite !Z.div_div by lia.
    f_equal.
    replace (Zpos p~0) with (Zpos p + Zpos p) by lia.
    rewrite !Z.pow_add_r by lia. lia.
  - change (iter_pos shr_1 1 mrs) with (shr_1 mrs).
    rewrite shr_1_m by exact H. reflexivity.
Qed.

Lemma shr_spec (mrs : shr_record) (e n : Z) :
  0 <= shr_m mrs ->
  shr_m (fst (shr mrs e n)) = shr_m mrs / 2 ^ Z.max 0 n /\
  snd (shr mrs e n) = e + Z.max 0 n.
Proof.
  intros H. unfold shr. destruct n as [|p|p]; simpl fst; simpl snd.
  - rewrite Z.div_1_r. lia.
  - rewrite iter_pos_shr_m by exact H.
    replace (Z.max 0 (Zpos p)) with (Zpos p) by lia. auto.
  - replace (Z.max 0 (Zneg p)) with 0 by lia. rewrite Z.div_1_r. lia.
Qed.

Lemma shr_m_of_loc (m : Z) (l : location) : shr_m (shr_record_of_loc m l) = m.
Proof. destruct l as [|[]]; reflexivity. Qed.

Lemma shr_fexp_spec (m e : Z) (l : location) :
  0 <= m ->
  let n := Z.max 0 (fexp (Zdigits2 m + e) - e) in
  shr_m (fst (shr_fexp prec emax m e l)) = m / 2 ^ n /\
  snd (shr_fexp prec emax m e l) = e + n.
Proof.
  intros H n. unfold shr_fexp.
  destruct (shr_spec (shr_record_of_loc m l) e (fexp (Zdigits2 m + e) - e))
    as (H1 & H2).
  - now rewrite shr_m_of_loc.
  - rewrite shr_m_of_loc in H1. auto.
Qed.

Lemma round_nearest_even_bounds (m : Z) (l : location) :
  m <= round_nearest_even m l <= m + 1.
Proof.
  destruct l as [|[]]; simpl; try lia.
  destruct (Z.even m); lia.
Qed.

(** Rounding a positive number that lies above a representable one. *)

Lemma pow2_div_lower (m k d : Z) :
  0 <= k -> k <= d - 1 -> 2 ^ (d - 1) <= m -> 2 ^ (d - 1 - k) <= m / 2 ^ k.
Proof.
  intros Hk Hd Hm. apply Z.div_le_lower_bound; [lia|].
  rewrite <- Z.pow_add_r by lia.
  replace (k + (d - 1 - k)) with (d - 1) by lia. exact Hm.
Qed.

Lemma fexp_above (mx : positive) (ex : Z) (m : positive) (e : Z) :
  fexp (Zpos (digits2_pos mx) + ex) = ex ->
  e <= ex ->
  Zpos mx * 2 ^ (ex - e) <= Zpos m ->
  ex <= fexp (Zpos (digits2_pos m) + e).
Proof.
  intros Hcan He Hle.
  pose proof (digits2_bounds m) as Bm.
  pose proof (digits2_bounds mx) as Bx.
  assert (HD : Zpos (digits2_pos mx) + ex <= Zpos (digits2_pos m) + e).
  { assert (2 ^ (Zpos (digits2_pos mx) - 1 + (ex - e)) < 2 ^ Zpos (digits2_pos m)).
    { rewrite Z.pow_add_r by lia.
      apply Z.le_lt_trans with (Zpos m); [|lia].
      apply Z.le_trans with (Zpos mx * 2 ^ (ex - e)); [|exact Hle].
      apply Z.mul_le_mono_nonneg_r; [apply Z.pow_nonneg; lia | lia]. }
    apply Z.pow_lt_mono_r_iff in H; lia. }
  rewrite <- Hcan at 1. unfold SpecFloat.fexp. lia.
Qed.

Lemma binary_round_aux_above (mx : positive) (ex : Z) (m : positive) (e : Z) :
  fexp (Zpos (digits2_pos mx) + ex) = ex ->
  e <= ex ->
  Zpos mx * 2 ^ (ex - e) <= Zpos m ->
  above mx ex (binary_round_aux prec emax false (Zpos m) e loc_Exact).
Proof.
  intros Hcan He Hle.
  pose proof (fexp_above mx ex m e Hcan He Hle) as Hfe.
  unfold binary_round_aux.
  destruct (shr_fexp_spec (Zpos m) e loc_Exact) as (Hm1 & He1); [lia|].
  destruct (shr_fexp prec emax (Zpos m) e loc_Exact) as [mrs1 e1].
  simpl fst in Hm1; simpl snd in He1.
  set (m2 := round_nearest_even (shr_m mrs1) (loc_of_shr_record mrs1)).
  pose proof (round_nearest_even_bounds (shr_m mrs1) (loc_of_shr_record mrs1)) as Hr.
  fold m2 in Hr.
  rewrite Zdigits2_pos in Hm1, He1.
  set (D := Zpos (digits2_pos m) + e) in *.
  set (n := Z.max 0 (fexp D - e)) in *.
  pose proof (digits2_bounds m) as Bm.
  assert (Hn : n = fexp D - e) by lia.
  assert (E1 : e1 = fexp D) by lia.
  assert (Hm1pos : 0 < shr_m mrs1).
  { rewrite Hm1.
    destruct (Z.eq_dec (fexp D) ex) as [Eq|Ne].
    - apply Z.lt_le_trans with (Zpos mx); [lia|].
      apply Z.div_le_lower_bound; [lia|].
      rewrite Hn, Eq. lia.
    - assert (fexp D = D - prec) by (unfold SpecFloat.fexp in *; lia).
      apply Z.lt_le_trans with (2 ^ (Zpos (digits2_pos m) - 1 - n)).
      + apply Z.pow_pos_nonneg; lia.
      + apply pow2_div_lower; [lia | | lia]. subst D. lia. }
  assert (Hm2 : 0 < m2) by lia.
  destruct (shr_fexp_spec m2 e1 loc_Exact) as (Hm3 & He3); [lia|].
  destruct (shr_fexp prec emax m2 e1 loc_Exact) as [mrs3 e3].
  simpl fst in Hm3; simpl snd in He3.
  destruct m2 as [|p2|p2] eqn:Em2; try lia.
  rewrite Zdigits2_pos in Hm3, He3.
  set (n3 := Z.max 0 (fexp (Zpos (digits2_pos p2) + e1) - e1)) in *.
  pose proof (digits2_bounds p2) as B2.
  assert (Hm3pos : 0 < shr_m mrs3 /\ (n3 = 0 -> shr_m mrs3 = Zpos p2)).
  { rewrite Hm3. split.
    - destruct (Z.eq_dec n3 0) as [Z0|NZ].
      + rewrite Z0, Z.div_1_r. lia.
      + assert (n3 = Zpos (digits2_pos p2) - prec)
          by (unfold SpecFloat.fexp in *; lia).
        apply Z.lt_le_trans with (2 ^ (Zpos (digits2_pos p2) - 1 - n3)).
        * apply Z.pow_pos_nonneg; lia.
        * apply pow2_div_lower; lia.
    - intros ->. now rewrite Z.div_1_r. }
  destruct Hm3pos as (Hm3pos & Hsame).
  destruct (shr_m mrs3) as [|p3|p3] eqn:E3; try lia.
  destruct (e3 <=? emax - prec); [|exact I].
  simpl.
  destruct (Z.eq_dec e3 ex) as [Eq|Ne]; [right | left; lia].
  split; [exact Eq|].
  assert (Hn3 : n3 = 0) by lia. assert (Hf : fexp D = ex) by lia.
  specialize (Hsame Hn3).
  assert (Zpos mx <= shr_m mrs1).
  { rewrite Hm1. apply Z.div_le_lower_bound; [lia|]. rewrite Hn, Hf. lia. }
  lia.
Qed.

Lemma binary_round_above (mx : positive) (ex : Z) (m : positive) (e : Z) :
  fexp (Zpos (digits2_pos mx) + ex) = ex ->
  e <= ex ->
  Zpos mx * 2 ^ (ex - e) <= Zpos m ->
  above mx ex (binary_round prec emax false m e).
Proof.
  intros Hcan He Hle.
  pose proof (fexp_above mx ex m e Hcan He Hle) as Hfe.
  unfold binary_round, shl_align.
  destruct (fexp (Zpos (digits2_pos m) + e) - e) as [|p|p] eqn:E; try lia;
    now apply binary_round_aux_above.
Qed.

Lemma iter_xO (m d : positive) : Zpos (Pos.iter xO m d) = Zpos m * 2 ^ Zpos d.
Proof.
  induction d as [|d IH] using Pos.peano_ind.
  - simpl. lia.
  - rewrite Pos.iter_succ, Pos2Z.inj_xO, IH, Pos2Z.inj_succ, Z.pow_succ_r by lia.
    lia.
Qed.

Lemma shl_align_spec (m : positive) (e e' : Z) :
  e' <= e -> Zpos (fst (shl_align m e e')) = Zpos m * 2 ^ (e - e').
Proof.
  intros H. unfold shl_align.
  destruct (e' - e) as [|p|p] eqn:E; simpl fst.
  - replace (e - e') with 0 by lia. lia.
  - lia.
  - rewrite iter_xO. f_equal. f_equal. lia.
Qed.

(** The sum of two positive numbers of the format is above the first. *)
Lemma SFadd_above (mx my : positive) (ex ey : Z) :
  fexp (Zpos (digits2_pos mx) + ex) = ex ->
  above mx ex (SFadd prec emax (S754_finite false mx ex) (S754_finite false my ey)).
Proof.
  intros Hcan. unfold SFadd, cond_Zopp.
  pose proof (shl_align_spec mx ex (Z.min ex ey) (Z.le_min_l _ _)) as Hx.
  set (ax := fst (shl_align mx ex (Z.min ex ey))) in *.
  set (ay := fst (shl_align my ey (Z.min ex ey))) in *.
  change (Zpos ax + Zpos ay) with (Zpos (ax + ay)).
  unfold binary_normalize.
  apply binary_round_above; [exact Hcan | apply Z.le_min_l |].
  rewrite <- Hx. lia.
Qed.

End Rounding.

(** ** Binary64 numbers *)

Section Binary64.
Local Open Scope float_scope.

Lemma SFleb_zero (x : spec_float) : SFleb (S754_zero false) x = SFnonneg x.
Proof. destruct x as [s|[]| |[] m e]; reflexivity. Qed.

Lemma Prim2SF_zero : Prim2SF 0 = S754_zero false.
Proof. reflexivity. Qed.

Lemma SFcompare_finite_refl (s : bool) (m : positive) (e : Z) :
  SFcompare (S754_finite s m e) (S754_finite s m e) = Some Eq.
Proof.
  simpl. rewrite Z.compare_refl.
  change (Pos.compare_cont Eq m m) with (Pos.compare m m).
  rewrite Pos.compare_refl. destruct s; reflexivity.
Qed.

Lemma SFleb_above (mx : positive) (ex : Z) (r : spec_float) :
  above mx ex r -> SFleb (S754_finite false mx ex) r = true.
Proof.
  unfold above, SFleb. destruct r as [s|[]| |[] mr er]; try contradiction;
    [reflexivity|].
  intros [H|(-> & H)]; simpl.
  - apply Z.compare_lt_iff in H. rewrite H. reflexivity.
  - rewrite Z.compare_refl.
    change (Pos.compare_cont Eq mx mr) with (Pos.compare mx mr).
    apply Pos.compare_le_iff in H.
    destruct (Pos.compare mx mr); try reflexivity. now elim H.
Qed.

Lemma valid_canonical (s : bool) (m : positive) (e : Z) :
  valid_binary (S754_finite s m e) = true ->
  SpecFloat.fexp prec emax (Zpos (digits2_pos m) + e) = e.
Proof.
  simpl. unfold bounded, canonical_mantissa. intros H.
  apply andb_true_iff in H as (H & _). now apply Z.eqb_eq in H.
Qed.

(** Adding a non-negative number to a non-negative number does not go
    below it: rounding to nearest is monotone and the first operand is a
    number of the format. *)
Lemma SFadd_nonneg_above (x d : spec_float) :
  valid_binary x = true ->
  SFnonneg x = true -> SFnonneg d = true ->
  SFleb x (SF64add x d) = true.
Proof.
  intros Hv Hx Hd.
  destruct x as [sx|[]| |[] mx ex]; try discriminate;
    destruct d as [sd|[]| |[] md ed]; try discriminate;
    try reflexivity.
  - destruct sx, sd; reflexivity.
  - unfold SF64add, SFadd, SFleb. now rewrite SFcompare_finite_refl.
  - apply SFleb_above. apply SFadd_above; [reflexivity|].
    now apply valid_canonical in Hv.
Qed.

Theorem add_nonneg_above (x d : float) :
  (0 <=? x) = true -> (0 <=? d) = true -> (x <=? x + d) = true.
Proof.
  rewrite !leb_spec, add_spec, Prim2SF_zero, !SFleb_zero.
  apply SFadd_nonneg_above, Prim2SF_valid.
Qed.

(** The order of the numbers. *)

Lemma SFcompare_key (x y : spec_float) :
  SFcompare x y
  = match SFkey x, SFkey y with
    | Some a, Some b => Some (key_compare a b)
    | _, _ => None
    end.
Proof.
  destruct x as [sx|[]| |[] mx ex], y as [sy|[]| |[] my ey];
    try reflexivity; try (destruct sx; reflexivity);
    try (destruct sy; reflexivity).
  unfold SFcompare, SFkey, key_compare. cbn [Z.compare Pos.compare CompOpp].
  rewrite <- Z.compare_opp, (Z.compare_antisym (- ey) (- ex)).
  destruct (Z.compare (- ey) (- ex)); reflexivity.
Qed.

Lemma key_compare_refl (a : Z * Z * Z) : key_compare a a = Eq.
Proof. destruct a as [[a1 a2] a3]. simpl. now rewrite !Z.compare_refl. Qed.

Lemma key_compare_spec (a b : Z * Z * Z) :
  match key_compare a b with
  | Lt => key_lt a b
  | Eq => key_le a b /\ key_le b a
  | Gt => key_lt b a
  end.
Proof.
  destruct a as [[a1 a2] a3], b as [[b1 b2] b3]. unfold key_compare, key_le, key_lt.
  destruct (Z.compare_spec a1 b1); [|lia|lia].
  destruct (Z.compare_spec a2 b2); [|lia|lia].
  destruct (Z.compare_spec a3 b3); lia.
Qed.

Lemma SFleb_key (x y : spec_float) :
  SFleb x y = true <-> exists a b, SFkey x = Some a /\ SFkey y = Some b /\ key_le a b.
Proof.
  unfold SFleb. rewrite SFcompare_key.
  destruct (SFkey x) as [a|], (SFkey y) as [b|];
    try (split; [discriminate | intros (? & ? & ? & ? & _); discriminate]).
  pose proof (key_compare_spec a b) as H.
  split.
  - intros E. exists a, b. split; [reflexivity|]. split; [reflexivity|].
    destruct (key_compare a b); try discriminate.
    + tauto.
    + destruct a as [[a1 a2] a3], b as [[b1 b2] b3]; unfold key_le, key_lt in *; lia.
  - intros (a' & b' & [= <-] & [= <-] & L).
    destruct (key_compare a b); try reflexivity.
    destruct a as [[a1 a2] a3], b as [[b1 b2] b3]; unfold key_le, key_lt in *; lia.
Qed.

Lemma SFltb_key (x y : spec_float) :
  SFltb x y = true <-> exists a b, SFkey x = Some a /\ SFkey y = Some b /\ key_lt a b.
Proof.
  unfold SFltb. rewrite SFcompare_key.
  destruct (SFkey x) as [a|], (SFkey y) as [b|];
    try (split; [discriminate | intros (? & ? & ? & ? & _); discriminate]).
  pose proof (key_compare_spec a b) as H.
  split.
  - intros E. exists a, b. split; [reflexivity|]. split; [reflexivity|].
    destruct (key_compare a b); try discriminate. exact H.
  - intros (a' & b' & [= <-] & [= <-] & L).
    destruct (key_compare a b); try reflexivity;
    destruct a as [[a1 a2] a3], b as [[b1 b2] b3]; unfold key_le, key_lt in *; lia.
Qed.

Lemma SFeqb_refl (x : spec_float) :
  SFeqb x x = match x with S754_nan => false | _ => true end.
Proof.
  unfold SFeqb. rewrite SFcompare_key.
  destruct (SFkey x) as [a|] eqn:E.
  - rewrite key_compare_refl. destruct x; try reflexivity; discriminate.
  - destruct x as [| [] | | [] ]; try discriminate; reflexivity.
Qed.

(** The same for primitive numbers. *)

Lemma leb_key (x y : float) :
  (x <=? y) = true <-> exists a b, key x = Some a /\ key y = Some b /\ key_le a b.
Proof. rewrite leb_spec. apply SFleb_key. Qed.

Lemma ltb_key (x y : float) :
  (x <? y) = true <-> exists a b, key x = Some a /\ key y = Some b /\ key_lt a b.
Proof. rewrite ltb_spec. apply SFltb_key. Qed.

Lemma is_nan_key (x : float) : is_nan x = false <-> key x <> None.
Proof.
  unfold is_nan, key. rewrite eqb_spec, SFeqb_refl.
  destruct (Prim2SF x) as [| [] | | [] ]; simpl; split; congruence.
Qed.

Lemma leb_refl (x : float) : is_nan x = false -> (x <=? x) = true.
Proof.
  intros H. apply is_nan_key in H. apply leb_key.
  destruct (key x) as [a|]; [|congruence].
  exists a, a. split; [reflexivity|]. split; [reflexivity|].
  destruct a as [[a1 a2] a3]. unfold key_le. lia.
Qed.

Lemma leb_trans (x y z : float) :
  (x <=? y) = true -> (y <=? z) = true -> (x <=? z) = true.
Proof.
  rewrite !leb_key. intros (a & b & Ha & Hb & L1) (b' & c & Hb' & Hc & L2).
  rewrite Hb in Hb'. injection Hb' as <-.
  exists a, c. split; [exact Ha|]. split; [exact Hc|].
  destruct a as [[a1 a2] a3], b as [[b1 b2] b3], c as [[c1 c2] c3].
  unfold key_le in *. lia.
Qed.

Lemma leb_not_nan (x y : float) :
  (x <=? y) = true -> is_nan x = false /\ is_nan y = false.
Proof.
  rewrite leb_key, !is_nan_key. intros (a & b & -> & -> & _). split; discriminate.
Qed.

Lemma ltb_leb (x y : float) : (x <? y) = true -> (x <=? y) = true.
Proof.
  rewrite ltb_key, leb_key. intros (a & b & Ha & Hb & L). exists a, b.
  split; [exact Ha|]. split; [exact Hb|].
  destruct a as [[a1 a2] a3], b as [[b1 b2] b3]. unfold key_le, key_lt in *. lia.
Qed.

Lemma leb_not_ltb (x y : float) : (x <=? y) = true -> (y <? x) = false.
Proof.
  rewrite leb_key. intros (a & b & Ha & Hb & L).
  destruct (y <? x) eqn:E; [|reflexivity].
  apply ltb_key in E as (b' & a' & Hb' & Ha' & L').
  rewrite Ha in Ha'. rewrite Hb in Hb'. injection Ha' as <-. injection Hb' as <-.
  destruct a as [[a1 a2] a3], b as [[b1 b2] b3]. unfold key_le, key_lt in *. lia.
Qed.

Lemma key_total (a b : Z * Z * Z) : key_lt a b \/ key_le b a.
Proof.
  destruct a as [[a1 a2] a3], b as [[b1 b2] b3]. unfold key_le, key_lt. lia.
Qed.

Lemma not_ltb_leb (x y : float) :
  is_nan x = false -> is_nan y = false -> (x <? y) = false -> (y <=? x) = true.
Proof.
  rewrite !is_nan_key. intros Hx Hy E.
  destruct (key x) as [a|] eqn:Ha; [|congruence].
  destruct (key y) as [b|] eqn:Hb; [|congruence].
  apply leb_key. exists b, a. split; [exact Hb|]. split; [exact Ha|].
  destruct (key_total a b) as [L|L]; [|exact L].
  assert (T : (x <? y) = true)
    by (apply ltb_key; exists a, b; auto).
  congruence.
Qed.

(** [Math.max]. *)

Lemma is_nan_nan : is_nan nan = true.
Proof. reflexivity. Qed.

Lemma Math_max_cases (a b : float) :
  is_nan a = false -> is_nan b = false ->
  (Math_max a b = a /\ (b <=? a) = true) \/
  (Math_max a b = b /\ (a <=? b) = true).
Proof.
  intros Ha Hb. unfold Math_max. rewrite Ha, Hb. simpl.
  destruct (a <? b) eqn:E1; [right; split; [reflexivity | now apply ltb_leb]|].
  pose proof (not_ltb_leb a b Ha Hb E1) as L1.
  destruct (b <? a) eqn:E2; [left; split; [reflexivity | exact L1]|].
  pose proof (not_ltb_leb b a Hb Ha E2) as L2.
  destruct (get_sign a); [right | left]; auto.
Qed.

Lemma Math_max_not_below (a b : float) : (Math_max a b <? a) = false.
Proof.
  destruct (is_nan a) eqn:Ha.
  - destruct (Math_max a b <? a) eqn:E; [|reflexivity].
    apply ltb_leb, leb_not_nan in E. destruct E; congruence.
  - destruct (is_nan b) eqn:Hb.
    + unfold Math_max. rewrite Ha, Hb. simpl.
      destruct (nan <? a) eqn:E; [|reflexivity].
      apply ltb_leb, leb_not_nan in E as (E & _). discriminate E.
    + destruct (Math_max_cases a b Ha Hb) as [(-> & _)|(-> & L)].
      * apply leb_not_ltb, leb_refl, Ha.
      * apply leb_not_ltb, L.
Qed.

Lemma Math_max_above (a b : float) :
  is_nan a = false -> is_nan b = false ->
  (a <=? Math_max a b) = true /\ (b <=? Math_max a b) = true.
Proof.
  intros Ha Hb.
  destruct (Math_max_cases a b Ha Hb) as [(-> & L)|(-> & L)];
    split; auto using leb_refl.
Qed.

(** Adding a non-negative number never moves a number backwards. *)
Theorem add_not_below (x d : float) :
  (0 <=? x) = true -> (0 <=? d) = true -> (x + d <? x) = false.
Proof. intros Hx Hd. apply leb_not_ltb, add_nonneg_above; assumption. Qed.

(** Two numbers each below the other are equal ([+0] and [-0] are). *)
Lemma SFeqb_key (x y : spec_float) :
  SFleb x y = true -> SFleb y x = true -> SFeqb x y = true.
Proof.
  unfold SFleb, SFeqb. rewrite (SFcompare_key x y), (SFcompare_key y x).
  destruct (SFkey x) as [a|], (SFkey y) as [b|]; try discriminate.
  pose proof (key_compare_spec a b) as H1.
  pose proof (key_compare_spec b a) as H2.
  destruct (key_compare a b), (key_compare b a); try reflexivity;
    try discriminate;
    destruct a as [[a1 a2] a3], b as [[b1 b2] b3];
    unfold key_le, key_lt in *; lia.
Qed.

Lemma leb_antisym (x y : float) :
  (x <=? y) = true -> (y <=? x) = true -> (x =? y) = true.
Proof. rewrite !leb_spec, eqb_spec. apply SFeqb_key. Qed.

(** Times. *)
Lemma is_time_not_nan (t : float) : is_time t = true -> is_nan t = false.
Proof. intros H. apply (leb_not_nan 0 t H). Qed.

Lemma is_time_zero : is_time 0 = true.
Proof. reflexivity. Qed.

Lemma time_leb_refl (t : float) : is_time t = true -> (t <=? t) = true.
Proof. intros H. now apply leb_refl, is_time_not_nan. Qed.

Lemma is_time_max (a b : float) :
  is_time a = true -> is_time b = true -> is_time (Math_max a b) = true.
Proof.
  intros Ha Hb.
  destruct (Math_max_cases a b) as [(-> & _)|(-> & _)];
    auto using is_time_not_nan.
Qed.

Lemma is_time_add (x d : float) :
  is_time x = true -> is_time d = true -> is_time (x + d) = true.
Proof.
  intros Hx Hd. unfold is_time in *.
  eapply leb_trans; [exact Hx | now apply add_nonneg_above].
Qed.

Lemma time_max_above (a b : float) :
  is_time a = true -> is_time b = true ->
  (a <=? Math_max a b) = true /\ (b <=? Math_max a b) = true.
Proof. intros Ha Hb. apply Math_max_above; now apply is_time_not_nan. Qed.

(** With the clock at zero, the next unit starts at the device time. *)
Lemma Math_max_zero (now : float) :
  is_time now = true -> (Math_max 0 now =? now) = true.
Proof.
  intros H. pose proof (is_time_not_nan now H) as Hn.
  destruct (Math_max_cases 0 now eq_refl Hn) as [(-> & L)|(-> & L)].
  - now apply leb_antisym.
  - apply leb_antisym; now apply leb_refl.
Qed.

End Binary64.

(** ** Promises and microtasks *)

(** A callback given to [then] touches neither the component nor what
    the session library keeps outside the two queues. *)
Lemma then__refs (sid : nat) (j : Job) (s : AppState) :
  refs (then_ sid j s) = refs s.
Proof. unfold then_. destruct (is_resolved sid (world s)); reflexivity. Qed.

Lemma then__react (sid : nat) (j : Job) (s : AppState) :
  react (then_ sid j s) = react s.
Proof. unfold then_. destruct (is_resolved sid (world s)); reflexivity. Qed.

Lemma then__outside (sid : nat) (j : Job) (s : AppState) :
  same_outside (world s) (world (then_ sid j s)).
Proof.
  unfold then_, same_outside.
  destruct (is_resolved sid (world s)); cbn; auto 10.
Qed.

Lemma then__resolved (sid : nat) (j : Job) (s : AppState) :
  is_resolved sid (world s) = true ->
  then_ sid j s = set_microtasks (microtasks (world s) ++ [(sid, j)]) s.
Proof. unfold then_. now intros ->. Qed.

Lemma then__pending (sid : nat) (j : Job) (s : AppState) :
  is_resolved sid (world s) = false ->
  then_ sid j s = set_thens (thens (world s) ++ [(sid, j)]) s.
Proof. unfold then_. now intros ->. Qed.

(** Running a callback. *)
Lemma run_job_refs (s : AppState) (p : nat * Job) : refs (run_job s p) = refs s.
Proof. destruct p as [sid []]; reflexivity. Qed.

Lemma run_job_react (s : AppState) (p : nat * Job) : react (run_job s p) = react s.
Proof. destruct p as [sid []]; reflexivity. Qed.

Lemma run_job_trace (s : AppState) (p : nat * Job) :
  trace (world (run_job s p)) = trace (world s) ++ [jobEffect p].
Proof. destruct p as [sid []]; reflexivity. Qed.

Lemma same_but_sessions_refl (w : World) : same_but_sessions w w.
Proof. unfold same_but_sessions. auto 10. Qed.

Lemma same_but_sessions_trans (w1 w2 w3 : World) :
  same_but_sessions w1 w2 -> same_but_sessions w2 w3 -> same_but_sessions w1 w3.
Proof.
  unfold same_but_sessions.
  intros (A1 & A2 & A3 & A4 & A5 & A6 & A7) (B1 & B2 & B3 & B4 & B5 & B6 & B7).
  split; [congruence|]. split; [congruence|]. split; [congruence|].
  split; [congruence|]. split; [congruence|]. split; congruence.
Qed.

Lemma update_session_keys (sid : nat) (f : Session -> Session)
    (l : list (nat * Session)) :
  map fst (map (fun p => if (fst p =? sid)%nat then (fst p, f (snd p)) else p) l)
  = map fst l.
Proof.
  induction l as [|[k a] l IH]; [reflexivity|].
  cbn [map fst]. rewrite IH. now destruct (k =? sid)%nat.
Qed.

Lemma run_job_world (s : AppState) (p : nat * Job) :
  same_but_sessions (world s) (world (run_job s p)).
Proof.
  destruct p as [sid [|id name]]; unfold run_job, same_but_sessions, seq;
    cbn -[map]; rewrite ?update_session_keys; auto 10.
Qed.

Lemma run_jobs_refs (js : list (nat * Job)) (s : AppState) :
  refs (fold_left run_job js s) = refs s.
Proof.
  revert s. induction js as [|j js IH]; intros s; [reflexivity|].
  cbn [fold_left]. now rewrite IH, run_job_refs.
Qed.

Lemma run_jobs_react (js : list (nat * Job)) (s : AppState) :
  react (fold_left run_job js s) = react s.
Proof.
  revert s. induction js as [|j js IH]; intros s; [reflexivity|].
  cbn [fold_left]. now rewrite IH, run_job_react.
Qed.

Lemma run_jobs_trace (js : list (nat * Job)) (s : AppState) :
  trace (world (fold_left run_job js s)) = trace (world s) ++ map jobEffect js.
Proof.
  revert s. induction js as [|j js IH]; intros s.
  - cbn. now rewrite app_nil_r.
  - cbn [fold_left map]. rewrite IH, run_job_trace, <- app_assoc. reflexivity.
Qed.

Lemma run_jobs_world (js : list (nat * Job)) (s : AppState) :
  same_but_sessions (world s) (world (fold_left run_job js s)).
Proof.
  revert s. induction js as [|j js IH]; intros s.
  - apply same_but_sessions_refl.
  - cbn [fold_left]. eapply same_but_sessions_trans; [apply run_job_world|apply IH].
Qed.


(** The checkpoint. *)
Lemma checkpoint_refs (s : AppState) : refs (checkpoint s) = refs s.
Proof. unfold checkpoint. now rewrite run_jobs_refs. Qed.

Lemma checkpoint_react (s : AppState) : react (checkpoint s) = react s.
Proof. unfold checkpoint. now rewrite run_jobs_react. Qed.

Lemma checkpoint_trace (s : AppState) :
  trace (world (checkpoint s))
  = trace (world s) ++ map jobEffect (microtasks (world s)).
Proof. unfold checkpoint. now rewrite run_jobs_trace. Qed.

Lemma checkpoint_world (s : AppState) :
  API_KEY (world (checkpoint s)) = API_KEY (world s) /\
  pending (world (checkpoint s)) = pending (world s) /\
  thens (world (checkpoint s)) = thens (world s) /\
  microtasks (world (checkpoint s)) = [] /\
  playing (world (checkpoint s)) = playing (world s) /\
  fresh (world (checkpoint s)) = fresh (world s) /\
  map fst (sessions (world (checkpoint s))) = map fst (sessions (world s)).
Proof.
  unfold checkpoint.
  pose proof (run_jobs_world (microtasks (world s)) (set_microtasks [] s)) as H.
  unfold same_but_sessions in H. cbn in H. exact H.
Qed.

Lemma checkpoint_microtasks (s : AppState) : microtasks (world (checkpoint s)) = [].
Proof. apply checkpoint_world. Qed.


Lemma checkpoint_thens (s : AppState) :
  thens (world (checkpoint s)) = thens (world s).
Proof. apply checkpoint_world. Qed.

Lemma checkpoint_playing (s : AppState) :
  playing (world (checkpoint s)) = playing (world s).
Proof. apply checkpoint_world. Qed.

Lemma checkpoint_fresh (s : AppState) :
  fresh (world (checkpoint s)) = fresh (world s).
Proof. apply checkpoint_world. Qed.

Lemma checkpoint_API_KEY (s : AppState) :
  API_KEY (world (checkpoint s)) = API_KEY (world s).
Proof. apply checkpoint_world. Qed.


(** With nothing queued the checkpoint does nothing. *)
Lemma checkpoint_empty (s : AppState) :
  microtasks (world s) = [] -> checkpoint s = s.
Proof.
  unfold checkpoint. destruct s as [r f [k p ss ts ms pl fr tr]].
  cbn. intros ->. reflexivity.
Qed.

(** A step is its handler followed by the checkpoint. *)
Lemma step_handler (s s' : AppState) (l : Label) :
  step s l = Some s' ->
  exists h, handler s l = Some h /\ s' = checkpoint (h s).
Proof.
  unfold step. destruct (handler s l) as [h|]; [|discriminate].
  intros H. injection H as <-. now exists h.
Qed.

Lemma handler_step (s : AppState) (l : Label) (h : Stmt) :
  handler s l = Some h -> step s l = Some (checkpoint (h s)).
Proof. unfold step. now intros ->. Qed.

Lemma step_without_microtasks (s : AppState) (l : Label) (h : Stmt) :
  handler s l = Some h -> microtasks (world (h s)) = [] ->
  step s l = Some (h s).
Proof.
  intros H E. rewrite (handler_step _ _ _ H). now rewrite checkpoint_empty.
Qed.

(** ** Strings *)

Lemma truthy_false_iff (s : string) : truthy s = false <-> s = "".
Proof.
  unfold truthy. destruct (String.eqb_spec s ""); simpl; split; congruence.
Qed.

Lemma trimStart_allWhiteSpace (s : string) :
  allWhiteSpace s = true -> trimStart s = "".
Proof.
  induction s as [|c r IH]; simpl; [reflexivity|].
  destruct (isWhiteSpace c); simpl; [exact IH | discriminate].
Qed.

Lemma trimEnd_empty_iff (s : string) :
  trimEnd s = "" <-> allWhiteSpace s = true.
Proof.
  induction s as [|c r IH]; simpl; [tauto|].
  destruct (trimEnd r) eqn:E.
  - destruct (isWhiteSpace c); simpl.
    + split; intros _; [apply IH|]; reflexivity.
    + split; discriminate.
  - split; [discriminate|].
    intros H. apply andb_true_iff in H. destruct H as [_ H].
    apply IH in H. discriminate.
Qed.

Lemma allWhiteSpace_trimStart (s : string) :
  allWhiteSpace (trimStart s) = allWhiteSpace s.
Proof.
  induction s as [|c r IH]; simpl; [reflexivity|].
  destruct (isWhiteSpace c) eqn:E; simpl; [exact IH | now rewrite E].
Qed.

(** [s.trim()] is empty exactly when [s] holds white space only. *)
Lemma trim_empty_iff (s : string) :
  trim s = "" <-> allWhiteSpace s = true.
Proof.
  unfold trim. rewrite trimEnd_empty_iff. now rewrite allWhiteSpace_trimStart.
Qed.

Example trim_padded : trim "  Alex " = "Alex".
Proof. reflexivity. Qed.

Example trim_inner_space : trim " a b" = "a b".
Proof. reflexivity. Qed.

Example trim_tab_newline :
  trim (String (ascii_of_nat 9) (String (ascii_of_nat 10) "")) = "".
Proof. reflexivity. Qed.

(** ** What a block of [onmessage] leaves alone *)

Ltac break_match :=
  match goal with
  | |- context [match ?x with _ => _ end] => is_var x; destruct x
  | |- context [match ?x with _ => _ end] => destruct x eqn:?
  end.

Lemma handleFunctionCall_refs (s : AppState) (fc : FunctionCall) :
  refs (handleFunctionCall s fc) = refs s.
Proof.
  unfold handleFunctionCall, acknowledge, seq.
  destruct (fc_name fc =? reactionTool); [|reflexivity].
  destruct (sessionPromiseRef (refs (setJerryReaction (fc_reaction fc) s)));
    rewrite ?then__refs; reflexivity.
Qed.

Lemma handleFunctionCall_react (s : AppState) (fc : FunctionCall) :
  same_but_reaction (react s) (react (handleFunctionCall s fc)).
Proof.
  unfold handleFunctionCall, acknowledge, seq, same_but_reaction.
  destruct (fc_name fc =? reactionTool); [|tauto].
  destruct (sessionPromiseRef (refs (setJerryReaction (fc_reaction fc) s)));
    rewrite ?then__react; cbn; tauto.
Qed.

Lemma functionCalls_refs (fcs : list FunctionCall) (s : AppState) :
  refs (fold_left handleFunctionCall fcs s) = refs s.
Proof.
  revert s. induction fcs as [|fc fcs IH]; intros s; simpl; [reflexivity|].
  rewrite IH. apply handleFunctionCall_refs.
Qed.

Lemma functionCalls_react (fcs : list FunctionCall) (s : AppState) :
  same_but_reaction (react s) (react (fold_left handleFunctionCall fcs s)).
Proof.
  revert s. induction fcs as [|fc fcs IH]; intros s; simpl.
  - unfold same_but_reaction; tauto.
  - specialize (IH (handleFunctionCall s fc)).
    pose proof (handleFunctionCall_react s fc) as H.
    unfold same_but_reaction in *.
    repeat match goal with H : _ /\ _ |- _ => destruct H end.
    repeat split; congruence.
Qed.

Lemma toolCallBlock_refs (m : Message) (s : AppState) :
  refs (toolCallBlock m s) = refs s.
Proof.
  unfold toolCallBlock. destruct (toolCall m); [apply functionCalls_refs|reflexivity].
Qed.

Lemma toolCallBlock_react (m : Message) (s : AppState) :
  same_but_reaction (react s) (react (toolCallBlock m s)).
Proof.
  unfold toolCallBlock. destruct (toolCall m); [apply functionCalls_react|].
  unfold same_but_reaction; tauto.
Qed.

Lemma audioBlock_same_text (m : Message) (now : float) (s : AppState) :
  same_text s (completion_state (audioBlock m now s)).
Proof.
  unfold audioBlock, same_text.
  repeat (break_match; cbn -[checkpoint]);
    rewrite ?checkpoint_refs, ?checkpoint_react; cbn; tauto.
Qed.

Lemma interruptedBlock_same_text (m : Message) (s : AppState) :
  same_text s (interruptedBlock m s).
Proof.
  unfold interruptedBlock, same_text.
  destruct (interrupted m); cbn; tauto.
Qed.

(** The text of the state [onmessage] ends in is the text after its first
    three blocks. *)
Lemma onmessage_same_text (m : Message) (now : float) (s : AppState) :
  same_text ((toolCallBlock m ;; transcriptionBlock m ;; turnCompleteBlock m) s)
            (onmessage m now s).
Proof.
  unfold onmessage.
  set (s3 := (toolCallBlock m ;; transcriptionBlock m ;; turnCompleteBlock m) s).
  pose proof (audioBlock_same_text m now s3) as Ha.
  destruct (audioBlock m now s3) as [s4|s4]; simpl in Ha; [|exact Ha].
  pose proof (interruptedBlock_same_text m s4) as Hi.
  unfold same_text in *.
  repeat match goal with H : _ /\ _ |- _ => destruct H end.
  repeat split; congruence.
Qed.

(** ** Starting the game with blank fields *)

(** C9.  When the name is empty or white space only, or no age is
    selected, [handleStartGame] sets the error message "Please fill out
    all fields." and does nothing else: every other React state variable
    (the game state among them), every ref, and the world outside (no
    greeting request, no session, no suspended call, no logged call) are
    as before. *)
Theorem handleStartGame_blank_fields
    (s : AppState) (name age : string) (mode : GameMode.t) :
  allWhiteSpace name = true \/ age = "" ->
  let s' := handleStartGame name age mode s in
  error (react s') = Some "Please fill out all fields." /\
  gameState (react s') = gameState (react s) /\
  gameMode (react s') = gameMode (react s) /\
  jerryReaction (react s') = jerryReaction (react s) /\
  userTranscript (react s') = userTranscript (react s) /\
  jerryTranscript (react s') = jerryTranscript (react s) /\
  userName (react s') = userName (react s) /\
  userAge (react s') = userAge (react s) /\
  refs s' = refs s /\
  world s' = world s.
Proof.
  intros H s'.
  assert (E : s' = setError (Some fillFieldsMessage) s).
  { subst s'. unfold handleStartGame.
    destruct H as [H|H].
    - apply trim_empty_iff in H. rewrite H. reflexivity.
    - subst age. simpl. rewrite orb_true_r. reflexivity. }
  rewrite E. cbn. repeat split; reflexivity.
Qed.

Lemma handleStartGame_blank_fields_witness :
  let s := initialState (Some "key") in
  let s' := handleStartGame "   " "10-18" GameMode.AI s in
  (allWhiteSpace "   " = true \/ "10-18" = "") /\
  error (react s') = Some "Please fill out all fields." /\
  gameState (react s') = GameState.PRE_GAME /\
  world s' = world s.
Proof.
  pose proof (handleStartGame_blank_fields (initialState (Some "key"))
                "   " "10-18" GameMode.AI (or_introl eq_refl)) as H.
  cbv zeta in H.
  destruct H as (He & Hg & _ & _ & _ & _ & _ & _ & _ & Hw).
  split; [left; reflexivity|].
  split; [exact He|]. split; [exact Hg | exact Hw].
Defined.

(** ** Transcription fragments *)



(** ** Turn completion *)

Example openingTrace_listens :
  exists s, run (initialState (Some "key")) openingTrace = Some s /\
            gameState (react s) = GameState.LISTENING /\
            sessionPromiseRef (refs s) = Some 3 /\
            sessions (world s) = [(3, {| transport := TransportOpen; resolved := true |})].
Proof. eexists. split; [vm_compute; reflexivity|]. repeat split. Qed.

(** C4, as stated, fails: the pending user text is one space (not empty)
    when the turn completes, and the state stays [LISTENING] with the
    reaction unchanged. *)
Lemma turn_complete_blank_pending_not_thinking :
  exists s,
    run (initialState (Some "key"))
        (openingTrace ++ [SessionMessage 3 (userFragment " ") 0]) = Some s /\
    currentInputTranscriptionRef (refs s) = " " /\
    currentInputTranscriptionRef (refs s) <> "" /\
    step s (SessionMessage 3 turnCompleteEvent 0)
      = Some (onmessage turnCompleteEvent 0 s) /\
    gameState (react (onmessage turnCompleteEvent 0 s)) = GameState.LISTENING /\
    gameState (react (onmessage turnCompleteEvent 0 s)) <> GameState.THINKING /\
    jerryReaction (react (onmessage turnCompleteEvent 0 s)) = "mimicking" /\
    userTranscript (react (onmessage turnCompleteEvent 0 s)) = "  ".
Proof.
  eexists. split; [vm_compute; reflexivity|].
  repeat split; try discriminate.
Qed.

Lemma interruptedBlock_react (m : Message) (s : AppState) :
  react (interruptedBlock m s) = react s.
Proof. unfold interruptedBlock. destruct (interrupted m); reflexivity. Qed.

(** The game state [onmessage] ends in: [TALKING] on an audio payload,
    and otherwise the one its first three blocks leave. *)
Lemma onmessage_gameState (m : Message) (now : float) (s : AppState) :
  gameState (react (onmessage m now s))
  = if carries_audio m then GameState.TALKING
    else gameState (react ((toolCallBlock m ;; transcriptionBlock m ;;
                            turnCompleteBlock m) s)).
Proof.
  unfold onmessage, carries_audio, audioBlock.
  set (s3 := (toolCallBlock m ;; transcriptionBlock m ;; turnCompleteBlock m) s).
  destruct (modelTurn m) as [a|]; [|now rewrite interruptedBlock_react].
  destruct (truthy (data a)); cbn [negb]; [|now rewrite interruptedBlock_react].
  cbn -[checkpoint]. destruct (outputAudioContextRef (refs s3)); [|reflexivity].
  destruct (decoded a); [|now rewrite checkpoint_react].
  rewrite interruptedBlock_react. cbn -[checkpoint].
  now rewrite checkpoint_react.
Qed.

(** C4, amended.  On a message with [turnComplete]: one space is appended
    to each display transcript and both pending buffers are emptied, in
    all cases; the reaction becomes "thinking" exactly when the pending
    user text has a character that is not white space (the test is on the
    trimmed text); and the state becomes [THINKING] in that same case,
    unless the message also carries audio, which makes it [TALKING]. *)
Theorem turn_complete_effect (s : AppState) (m : Message) (now : float) :
  turnComplete m = true ->
  let s1 := (toolCallBlock m ;; transcriptionBlock m) s in
  let s' := onmessage m now s in
  userTranscript (react s') = (userTranscript (react s1) ++ " ")%string /\
  jerryTranscript (react s') = (jerryTranscript (react s1) ++ " ")%string /\
  currentInputTranscriptionRef (refs s') = "" /\
  currentOutputTranscriptionRef (refs s') = "" /\
  jerryReaction (react s')
  = (if allWhiteSpace (currentInputTranscriptionRef (refs s1))
     then jerryReaction (react s1) else JerryReaction.THINKING) /\
  gameState (react s')
  = (if carries_audio m then GameState.TALKING
     else if allWhiteSpace (currentInputTranscriptionRef (refs s1))
          then gameState (react s) else GameState.THINKING).
Proof.
  intros Ht s1 s'.
  assert (Hg1 : gameState (react s1) = gameState (react s)).
  { subst s1. unfold seq, transcriptionBlock.
    pose proof (toolCallBlock_react m s) as (Hg & _).
    destruct (outputTranscription m); [exact Hg|].
    destruct (inputTranscription m); exact Hg. }
  assert (Hw : truthy (trim (currentInputTranscriptionRef (refs s1)))
               = negb (allWhiteSpace (currentInputTranscriptionRef (refs s1)))).
  { destruct (allWhiteSpace _) eqn:E.
    - apply trim_empty_iff in E. rewrite E. reflexivity.
    - destruct (truthy _) eqn:T; [reflexivity|].
      apply truthy_false_iff, trim_empty_iff in T. congruence. }
  pose proof (onmessage_same_text m now s) as (Hu & Hj & Hr & Hci & Hco).
  pose proof (onmessage_gameState m now s) as Hg.
  fold s' in Hu, Hj, Hr, Hci, Hco, Hg.
  change ((toolCallBlock m ;; transcriptionBlock m ;; turnCompleteBlock m) s)
    with (turnCompleteBlock m s1) in Hu, Hj, Hr, Hci, Hco, Hg.
  unfold turnCompleteBlock, seq in Hu, Hj, Hr, Hci, Hco, Hg.
  rewrite Ht, Hw in Hu, Hj, Hr, Hci, Hco, Hg.
  rewrite Hu, Hj, Hr, Hci, Hco, Hg.
  destruct (allWhiteSpace _), (carries_audio m); cbn;
    rewrite ?Hg1; repeat split; reflexivity.
Qed.

Lemma turn_complete_effect_witness :
  let s := initialState (Some "key") in
  let s' := onmessage turnCompleteEvent 0 (onmessage (userFragment "hi") 0 s) in
  turnComplete turnCompleteEvent = true /\
  userTranscript (react s') = "hi " /\
  jerryTranscript (react s') = " " /\
  currentInputTranscriptionRef (refs s') = "" /\
  gameState (react s') = GameState.THINKING /\
  jerryReaction (react s') = "thinking".
Proof.
  pose proof (turn_complete_effect
                (onmessage (userFragment "hi") 0 (initialState (Some "key")))
                turnCompleteEvent 0 eq_refl) as H.
  cbv zeta in H. destruct H as (Hu & Hj & Hci & _ & Hr & Hg).
  split; [reflexivity|].
  split; [exact Hu|]. split; [exact Hj|]. split; [exact Hci|].
  split; [exact Hg | exact Hr].
Defined.

(** ** Reaction commands *)

(** C6, as stated, fails: "dancing" is not a reaction of the enum, and
    the command makes it the reaction state, which was "mimicking". *)
Lemma unrecognized_reaction_is_stored :
  exists s s',
    run (initialState (Some "key")) openingTrace = Some s /\
    JerryReaction.recognized "dancing" = false /\
    jerryReaction (react s) = "mimicking" /\
    step s (SessionMessage 3 (reactionCommand "call-1" "dancing") 0) = Some s' /\
    jerryReaction (react s') = "dancing".
Proof.
  eexists. eexists. split; [vm_compute; reflexivity|].
  split; [reflexivity|]. split; [reflexivity|].
  split; [vm_compute; reflexivity|]. reflexivity.
Qed.

Lemma same_outside_refl (w : World) : same_outside w w.
Proof. unfold same_outside. auto 10. Qed.

Lemma same_outside_trans (w1 w2 w3 : World) :
  same_outside w1 w2 -> same_outside w2 w3 -> same_outside w1 w3.
Proof.
  unfold same_outside.
  intros (A1 & A2 & A3 & A4 & A5 & A6) (B1 & B2 & B3 & B4 & B5 & B6).
  split; [congruence|]. split; [congruence|]. split; [congruence|].
  split; [congruence|]. split; congruence.
Qed.

Lemma is_resolved_outside (sid : nat) (w w' : World) :
  same_outside w w' -> is_resolved sid w' = is_resolved sid w.
Proof. intros (_ & _ & H & _). unfold is_resolved. now rewrite H. Qed.

Lemma handleFunctionCall_outside (s : AppState) (fc : FunctionCall) :
  same_outside (world s) (world (handleFunctionCall s fc)).
Proof.
  unfold handleFunctionCall, acknowledge, seq.
  destruct (fc_name fc =? reactionTool); [|apply same_outside_refl].
  destruct (sessionPromiseRef (refs (setJerryReaction (fc_reaction fc) s)));
    [|apply same_outside_refl].
  apply (then__outside n _ (setJerryReaction (fc_reaction fc) s)).
Qed.

Lemma functionCalls_outside (fcs : list FunctionCall) (s : AppState) :
  same_outside (world s) (world (fold_left handleFunctionCall fcs s)).
Proof.
  revert s. induction fcs as [|fc fcs IH]; intros s; simpl.
  - apply same_outside_refl.
  - eapply same_outside_trans; [apply handleFunctionCall_outside|apply IH].
Qed.

(** The callbacks the function calls of a message register, while a
    promise is held: one for each [setJerrysReaction] call, in order, on
    the microtask queue if the promise has resolved and behind the promise
    otherwise. *)
Lemma functionCalls_queues (sid : nat) (fcs : list FunctionCall) (s : AppState) :
  sessionPromiseRef (refs s) = Some sid ->
  let js := map (responseJob sid) (filter isReactionCall fcs) in
  let s' := fold_left handleFunctionCall fcs s in
  microtasks (world s')
  = microtasks (world s) ++ (if is_resolved sid (world s) then js else []) /\
  thens (world s')
  = thens (world s) ++ (if is_resolved sid (world s) then [] else js).
Proof.
  revert s. induction fcs as [|fc fcs IH]; intros s Hs; cbn zeta.
  - cbn. destruct (is_resolved sid (world s)); now rewrite !app_nil_r.
  - cbn [fold_left filter].
    specialize (IH (handleFunctionCall s fc)).
    rewrite handleFunctionCall_refs in IH. specialize (IH Hs).
    cbn zeta in IH. destruct IH as (IHm & IHt).
    rewrite IHm, IHt.
    rewrite (is_resolved_outside sid _ _ (handleFunctionCall_outside s fc)).
    unfold handleFunctionCall, acknowledge, seq.
    change (fc_name fc =? reactionTool) with (isReactionCall fc).
    destruct (isReactionCall fc).
    + cbn [refs setJerryReaction upd_react]. rewrite Hs.
      unfold then_. cbn [world setJerryReaction upd_react].
      destruct (is_resolved sid (world s)); cbn [map];
        cbn; rewrite <- ?app_assoc, ?app_nil_r; split; reflexivity.
    + split; reflexivity.
Qed.

(** Without a promise held they register nothing. *)
Lemma functionCalls_unheld (fcs : list FunctionCall) (s : AppState) :
  sessionPromiseRef (refs s) = None ->
  world (fold_left handleFunctionCall fcs s) = world s.
Proof.
  revert s. induction fcs as [|fc fcs IH]; intros s Hs; [reflexivity|].
  cbn [fold_left]. rewrite IH by (now rewrite handleFunctionCall_refs).
  unfold handleFunctionCall, acknowledge, seq.
  destruct (fc_name fc =? reactionTool); [|reflexivity].
  cbn [refs setJerryReaction upd_react]. now rewrite Hs.
Qed.

Lemma toolResponses_app (a b : list Effect) :
  toolResponses (a ++ b) = toolResponses a ++ toolResponses b.
Proof. apply filter_app. Qed.

Lemma toolResponses_stops (l : list nat) : toolResponses (map SourceStop l) = [].
Proof. induction l; simpl; auto. Qed.

Lemma toolResponses_jobs (sid : nat) (fcs : list FunctionCall) :
  toolResponses (map jobEffect (map (responseJob sid) fcs))
  = map (acknowledgment sid) fcs.
Proof.
  induction fcs as [|fc fcs IH]; [reflexivity|].
  cbn [map]. unfold toolResponses in *. cbn. now rewrite IH.
Qed.

Lemma transcriptionBlock_world (m : Message) (s : AppState) :
  world (transcriptionBlock m s) = world s.
Proof.
  unfold transcriptionBlock.
  destruct (outputTranscription m); [reflexivity|].
  destruct (inputTranscription m); reflexivity.
Qed.

Lemma turnCompleteBlock_world (m : Message) (s : AppState) :
  world (turnCompleteBlock m s) = world s.
Proof.
  unfold turnCompleteBlock, seq.
  destruct (turnComplete m); [|reflexivity].
  destruct (truthy _); reflexivity.
Qed.

(** The checkpoint sends what was due. *)
Lemma checkpoint_responsesDue (s : AppState) :
  responsesDue (world (checkpoint s)) = responsesDue (world s).
Proof.
  unfold responsesDue.
  rewrite checkpoint_trace, checkpoint_microtasks, toolResponses_app.
  cbn. now rewrite app_nil_r.
Qed.

Lemma checkpoint_thens_responsesDue (s : AppState) :
  toolResponses (trace (world (checkpoint s))) = responsesDue (world s).
Proof.
  unfold responsesDue. now rewrite checkpoint_trace, toolResponses_app.
Qed.

Lemma audioBlock_responsesDue (m : Message) (now : float) (s : AppState) :
  responsesDue (world (completion_state (audioBlock m now s)))
  = responsesDue (world s).
Proof.
  unfold audioBlock.
  destruct (modelTurn m) as [a|]; [|reflexivity].
  destruct (negb (truthy (data a))); [reflexivity|].
  cbn -[checkpoint].
  destruct (outputAudioContextRef (refs s)); [|reflexivity].
  match goal with
  | |- context [checkpoint ?x] =>
      pose proof (checkpoint_responsesDue x) as H;
      change (responsesDue (world x)) with (responsesDue (world s)) in H;
      set (c := checkpoint x) in *; clearbody c
  end.
  destruct (decoded a); [|exact H].
  rewrite <- H. unfold responsesDue. cbn.
  rewrite toolResponses_app. cbn. now rewrite app_nil_r.
Qed.

Lemma audioBlock_thens (m : Message) (now : float) (s : AppState) :
  thens (world (completion_state (audioBlock m now s))) = thens (world s).
Proof.
  unfold audioBlock.
  destruct (modelTurn m) as [a|]; [|reflexivity].
  destruct (negb (truthy (data a))); [reflexivity|].
  cbn -[checkpoint].
  destruct (outputAudioContextRef (refs s)); [|reflexivity].
  match goal with
  | |- context [checkpoint ?x] =>
      pose proof (checkpoint_thens x) as H;
      change (thens (world x)) with (thens (world s)) in H;
      set (c := checkpoint x) in *; clearbody c
  end.
  destruct (decoded a); exact H.
Qed.

Lemma interruptedBlock_responsesDue (m : Message) (s : AppState) :
  responsesDue (world (interruptedBlock m s)) = responsesDue (world s).
Proof.
  unfold interruptedBlock. destruct (interrupted m); [|reflexivity].
  unfold responsesDue. cbn.
  rewrite toolResponses_app, toolResponses_stops. now rewrite app_nil_r.
Qed.

Lemma interruptedBlock_thens (m : Message) (s : AppState) :
  thens (world (interruptedBlock m s)) = thens (world s).
Proof. unfold interruptedBlock. destruct (interrupted m); reflexivity. Qed.

(** The acknowledgments sent once a message is handled are those sent
    before, those that were queued, and those of its tool call block. *)
Lemma onmessage_responsesDue (m : Message) (now : float) (s : AppState) :
  responsesDue (world (onmessage m now s)) = responsesDue (world (toolCallBlock m s)).
Proof.
  unfold onmessage.
  set (s3 := (toolCallBlock m ;; transcriptionBlock m ;; turnCompleteBlock m) s).
  assert (H3 : world s3 = world (toolCallBlock m s)).
  { subst s3. unfold seq.
    now rewrite turnCompleteBlock_world, transcriptionBlock_world. }
  pose proof (audioBlock_responsesDue m now s3) as Ha.
  destruct (audioBlock m now s3) as [s4|s4]; simpl in Ha.
  - rewrite interruptedBlock_responsesDue, Ha, H3. reflexivity.
  - rewrite Ha, H3. reflexivity.
Qed.

Lemma onmessage_thens (m : Message) (now : float) (s : AppState) :
  thens (world (onmessage m now s)) = thens (world (toolCallBlock m s)).
Proof.
  unfold onmessage.
  set (s3 := (toolCallBlock m ;; transcriptionBlock m ;; turnCompleteBlock m) s).
  assert (H3 : world s3 = world (toolCallBlock m s)).
  { subst s3. unfold seq.
    now rewrite turnCompleteBlock_world, transcriptionBlock_world. }
  pose proof (audioBlock_thens m now s3) as Ha.
  destruct (audioBlock m now s3) as [s4|s4]; simpl in Ha.
  - rewrite interruptedBlock_thens, Ha, H3. reflexivity.
  - rewrite Ha, H3. reflexivity.
Qed.

(** What handling a list of function calls sends and leaves waiting, from
    a state with nothing queued. *)
Lemma message_responses (s : AppState) (m : Message) (now : float)
    (fcs : list FunctionCall) :
  toolCall m = Some fcs ->
  microtasks (world s) = [] ->
  let s' := checkpoint (onmessage m now s) in
  match sessionPromiseRef (refs s) with
  | Some sid =>
      if is_resolved sid (world s)
      then toolResponses (trace (world s'))
           = toolResponses (trace (world s))
             ++ map (acknowledgment sid) (filter isReactionCall fcs) /\
           thens (world s') = thens (world s)
      else toolResponses (trace (world s')) = toolResponses (trace (world s)) /\
           thens (world s')
           = thens (world s) ++ map (responseJob sid) (filter isReactionCall fcs)
  | None =>
      toolResponses (trace (world s')) = toolResponses (trace (world s)) /\
      thens (world s') = thens (world s)
  end.
Proof.
  intros Hc Hq s'. subst s'.
  rewrite checkpoint_thens_responsesDue, checkpoint_thens.
  rewrite onmessage_responsesDue, onmessage_thens.
  unfold toolCallBlock. rewrite Hc.
  destruct (sessionPromiseRef (refs s)) as [sid|] eqn:Hs.
  - pose proof (functionCalls_queues sid fcs s Hs) as H. cbn zeta in H.
    destruct H as (Hm & Ht).
    pose proof (functionCalls_outside fcs s) as (_ & _ & _ & _ & _ & Htr).
    unfold responsesDue. rewrite Htr, Hm, Ht, Hq.
    destruct (is_resolved sid (world s)).
    + cbn [app]. rewrite toolResponses_jobs, app_nil_r. split; reflexivity.
    + cbn. rewrite !app_nil_r. split; reflexivity.
  - rewrite (functionCalls_unheld fcs s Hs).
    unfold responsesDue. rewrite Hq. cbn. rewrite app_nil_r. split; reflexivity.
Qed.

(** C6, amended.  A [setJerrysReaction] call makes the named value the
    reaction state whether or not it is one of the enum (no validation).
    Its acknowledgment, keyed to the call's id and name, is left to a
    callback on the session promise the component holds: if that promise
    has resolved, handling the message sends exactly one acknowledgment,
    to the session held, before anything else is handled; if it is
    pending, nothing is sent and the callback waits for the promise; with
    no promise held, nothing is sent at all. *)
Theorem reaction_call_stored_and_acknowledged
    (s : AppState) (m : Message) (now : float) (fc : FunctionCall) :
  toolCall m = Some [fc] ->
  fc_name fc = reactionTool ->
  microtasks (world s) = [] ->
  let s' := checkpoint (onmessage m now s) in
  jerryReaction (react (toolCallBlock m s)) = fc_reaction fc /\
  (turnComplete m = false -> jerryReaction (react s') = fc_reaction fc) /\
  match sessionPromiseRef (refs s) with
  | Some sid =>
      if is_resolved sid (world s)
      then toolResponses (trace (world s'))
           = toolResponses (trace (world s))
             ++ [SendToolResponse sid (fc_id fc) reactionTool "ok"] /\
           thens (world s') = thens (world s)
      else toolResponses (trace (world s')) = toolResponses (trace (world s)) /\
           thens (world s')
           = thens (world s) ++ [(sid, JobToolResponse (fc_id fc) reactionTool)]
  | None =>
      toolResponses (trace (world s')) = toolResponses (trace (world s)) /\
      thens (world s') = thens (world s)
  end.
Proof.
  intros Hc Hn Hq s'.
  assert (Hr : jerryReaction (react (toolCallBlock m s)) = fc_reaction fc).
  { unfold toolCallBlock. rewrite Hc. simpl.
    unfold handleFunctionCall, acknowledge, seq.
    rewrite Hn, String.eqb_refl.
    destruct (sessionPromiseRef _); rewrite ?then__react; reflexivity. }
  split; [exact Hr|]. split.
  - intros Ht. subst s'. rewrite checkpoint_react.
    pose proof (onmessage_same_text m now s) as (_ & _ & H & _).
    rewrite H.
    unfold seq, turnCompleteBlock. rewrite Ht.
    unfold transcriptionBlock.
    destruct (outputTranscription m); [exact Hr|].
    destruct (inputTranscription m); exact Hr.
  - pose proof (message_responses s m now [fc] Hc Hq) as H.
    cbn zeta in H. fold s' in H.
    unfold filter, isReactionCall in H. rewrite Hn, String.eqb_refl in H.
    cbn [map] in H. unfold acknowledgment, responseJob in H.
    rewrite Hn in H. exact H.
Qed.

Lemma reaction_call_stored_and_acknowledged_witness :
  exists s,
    run (initialState (Some "key")) openingTrace = Some s /\
    sessionPromiseRef (refs s) = Some 3 /\
    is_resolved 3 (world s) = true /\
    jerryReaction
      (react (checkpoint (onmessage (reactionCommand "call-1" "dancing") 0 s)))
      = "dancing" /\
    toolResponses
      (trace (world (checkpoint
                       (onmessage (reactionCommand "call-1" "dancing") 0 s))))
    = toolResponses (trace (world s))
      ++ [SendToolResponse 3 "call-1" "setJerrysReaction" "ok"].
Proof.
  eexists. split; [vm_compute; reflexivity|].
  split; [reflexivity|]. split; [reflexivity|].
  match goal with
  | |- context [onmessage ?m ?now ?s] =>
      pose proof (reaction_call_stored_and_acknowledged s m now
                    {| fc_id := "call-1"; fc_name := "setJerrysReaction";
                       fc_reaction := "dancing" |}
                    eq_refl eq_refl eq_refl) as H
  end.
  cbv zeta in H. destruct H as (_ & Hr & Ht).
  split; [exact (Hr eq_refl) | exact (proj1 Ht)].
Defined.

(** ** Teardown *)

Ltac destruct_state s :=
  let r := fresh "r" in
  let f := fresh "f" in
  let w := fresh "w" in
  destruct s as [r f w]; destruct r, f, w.

(** The same, with names for the refs and the world. *)
Ltac destruct_fields s :=
  destruct s as [r [spr iac oac sac msr scp mss nst asr cit cot]
                   [key pend sess th mi pl fr tr]].

Lemma closeSession_eq (s : AppState) :
  closeSession s
  = logged s (refs (set_sessionPromiseRef None s))
      (if holds_resolved (refs s) (world s) then thens (world s)
       else thens (world s) ++ closeJob (refs s))
      (if holds_resolved (refs s) (world s)
       then microtasks (world s) ++ closeJob (refs s)
       else microtasks (world s))
      [].
Proof.
  destruct_fields s.
  unfold logged, closeSession, holds_resolved, closeJob, then_, seq.
  cbn -[is_resolved].
  destruct spr as [sid|];
    [|cbn; rewrite ?app_nil_r; reflexivity].
  destruct (is_resolved sid _); cbn; rewrite ?app_nil_r; reflexivity.
Qed.

Lemma disconnectCapture_eq (s : AppState) :
  disconnectCapture s
  = logged s (refs s) (thens (world s)) (microtasks (world s))
      (match scriptProcessorRef (refs s), mediaStreamSourceRef (refs s) with
       | Some p, Some m => [NodeDisconnect m; NodeDisconnect p]
       | _, _ => []
       end).
Proof.
  destruct_fields s. unfold logged, closeSession, disconnectCapture, stopTracks, seq, emit.
  destruct scp, mss; cbn;
    rewrite <- ?app_assoc, ?app_nil_r; reflexivity.
Qed.

Lemma stopTracks_eq (s : AppState) :
  stopTracks s
  = logged s (refs (set_mediaStreamRef None s)) (thens (world s)) (microtasks (world s))
      (match mediaStreamRef (refs s) with
       | Some m => [TrackStop m]
       | None => []
       end).
Proof.
  destruct_fields s. unfold logged, closeSession, disconnectCapture, stopTracks, seq, emit. destruct msr; cbn; rewrite ?app_nil_r; reflexivity.
Qed.

Lemma closeInput_eq (s : AppState) :
  closeInput s
  = logged s
      (refs (set_inputAudioContextRef (release (inputAudioContextRef (refs s))) s))
      (thens (world s)) (microtasks (world s))
      (if open_context (inputAudioContextRef (refs s))
       then [ContextClose InputContext] else []).
Proof.
  destruct_fields s. unfold logged, closeInput, release, seq, emit. cbn.
  destruct (open_context iac); cbn; rewrite ?app_nil_r; reflexivity.
Qed.

Lemma closeOutput_eq (s : AppState) :
  closeOutput s
  = logged s
      (refs ((set_outputAudioContextRef (release (outputAudioContextRef (refs s))) ;;
              set_audioSourcesRef
                (if open_context (outputAudioContextRef (refs s))
                 then [] else audioSourcesRef (refs s))) s))
      (thens (world s)) (microtasks (world s))
      (if open_context (outputAudioContextRef (refs s))
       then map SourceStop (audioSourcesRef (refs s)) ++ [ContextClose OutputContext]
       else []).
Proof.
  destruct_fields s. unfold logged, closeOutput, stopSources, release, seq, emit. cbn.
  destruct (open_context oac); cbn;
    rewrite <- ?app_assoc, ?app_nil_r; reflexivity.
Qed.

Lemma closeSfx_eq (s : AppState) :
  closeSfx s
  = logged s
      (refs (set_sfxAudioContextRef (release (sfxAudioContextRef (refs s))) s))
      (thens (world s)) (microtasks (world s))
      (if open_context (sfxAudioContextRef (refs s))
       then [ContextClose SfxContext] else []).
Proof.
  destruct_fields s. unfold logged, closeSfx, release, seq, emit. cbn.
  destruct (open_context sac); cbn; rewrite ?app_nil_r; reflexivity.
Qed.

Lemma resetOnExit_eq (isExiting : bool) (s : AppState) :
  resetOnExit isExiting s
  = {| react := stopped_react isExiting (react s);
       refs := refs ((set_currentInputTranscriptionRef
                        (if isExiting then ""
                         else currentInputTranscriptionRef (refs s)) ;;
                      set_currentOutputTranscriptionRef
                        (if isExiting then ""
                         else currentOutputTranscriptionRef (refs s))) s);
       world := world s |}.
Proof. destruct_state s. destruct isExiting; reflexivity. Qed.

(** [stopAudioProcessing] in one assignment. *)
Lemma stopAudioProcessing_spec (isExiting : bool) (s : AppState) :
  stopAudioProcessing isExiting s
  = {| react := stopped_react isExiting (react s);
       refs := stopped_refs isExiting (refs s);
       world := stopped_world (refs s) (world s) |}.
Proof.
  destruct_state s. unfold stopAudioProcessing, seq.
  rewrite closeSession_eq; unfold logged; cbn.
  rewrite disconnectCapture_eq; unfold logged; cbn.
  rewrite stopTracks_eq; unfold logged; cbn.
  rewrite closeInput_eq; unfold logged; cbn.
  rewrite closeOutput_eq; unfold logged, seq; cbn.
  rewrite closeSfx_eq; unfold logged; cbn.
  rewrite resetOnExit_eq; unfold seq; cbn.
  unfold stopped_refs, stopped_world, teardownEffects; cbn.
  rewrite <- !app_assoc. reflexivity.
Qed.

Lemma release_ok (c : option AudioContext) : context_ok c -> release c = None.
Proof.
  unfold release, open_context, context_ok.
  destruct c as [[rate []]|]; cbn; congruence.
Qed.

Lemma open_context_ok (c : option AudioContext) :
  context_ok c -> open_context c = match c with Some _ => true | None => false end.
Proof.
  unfold open_context, context_ok.
  destruct c as [[rate []]|]; cbn; congruence.
Qed.

Lemma stopped_refs_ok (b : bool) (f : Refs) : refs_ok f -> refs_ok (stopped_refs b f).
Proof.
  intros (Hi & Ho & Hs & Hsrc). unfold refs_ok, stopped_refs. cbn.
  rewrite !release_ok by assumption. cbn.
  repeat split; try exact I.
  intros _. rewrite open_context_ok by assumption.
  destruct (outputAudioContextRef f); [reflexivity | now apply Hsrc].
Qed.

(** ** The refs of every reachable state are in order *)

Ltac refs_ok_simple s :=
  destruct_state s;
  unfold refs_ok, context_ok in *; cbn in *;
  repeat (break_match; cbn in * );
  repeat match goal with H : _ /\ _ |- _ => destruct H end;
  repeat split; try assumption; try discriminate; try (intros; congruence);
  auto.

Lemma toggle_catch_refs_ok (msg : option string) (s : AppState) :
  refs_ok (refs s) -> refs_ok (refs (toggle_catch msg s)).
Proof.
  intros H. unfold toggle_catch, seq. rewrite stopAudioProcessing_spec. cbn.
  now apply stopped_refs_ok.
Qed.

Lemma toggle_stop_refs_ok (s : AppState) :
  refs_ok (refs s) -> refs_ok (refs (toggle_stop s)).
Proof.
  intros H. unfold toggle_stop, seq. rewrite stopAudioProcessing_spec. cbn.
  apply (stopped_refs_ok false) in H. exact H.
Qed.

Lemma toggle_start_refs_ok (c : Closure) (s : AppState) :
  refs_ok (refs s) -> refs_ok (refs (toggle_start c s)).
Proof.
  intros H. unfold toggle_start, seq at 1 2.
  match goal with |- context [keyPresent ?x] => destruct (keyPresent x) end; cbn [negb].
  - unfold seq, emit, suspend, bump. cbn.
    destruct (open_context (outputAudioContextRef (refs s))) eqn:E;
      destruct H as (Hi & Ho & Hs & Hsrc); unfold refs_ok; cbn;
      repeat split; try assumption; try discriminate.
  - apply toggle_catch_refs_ok. exact H.
Qed.

Lemma handleToggleConversation_refs_ok (b : bool) (c : Closure) (s : AppState) :
  refs_ok (refs s) -> refs_ok (refs (handleToggleConversation b c s)).
Proof.
  intros H. unfold handleToggleConversation.
  destruct (_ && _); [now apply toggle_stop_refs_ok | now apply toggle_start_refs_ok].
Qed.

Lemma toggle_granted_refs_ok (c : Closure) (s : AppState) :
  refs_ok (refs s) -> refs_ok (refs (toggle_granted c s)).
Proof. intros H. unfold toggle_granted, seq, emit, bump. refs_ok_simple s. Qed.

Lemma greeting_catch_refs_ok (c : Closure) (s : AppState) :
  refs_ok (refs s) -> refs_ok (refs (greeting_catch c s)).
Proof.
  intros H. unfold greeting_catch, seq.
  apply handleToggleConversation_refs_ok. exact H.
Qed.

Lemma playGreeting_refs_ok (name : string) (c : Closure) (s : AppState) :
  refs_ok (refs s) -> refs_ok (refs (playGreeting name c s)).
Proof.
  intros H. unfold playGreeting.
  destruct (keyPresent s); cbn [negb]; [|now apply greeting_catch_refs_ok].
  unfold seq, emit, suspend, bump. refs_ok_simple s.
Qed.

Lemma greeting_answered_refs_ok (c : Closure) (r : GreetingResult) (s : AppState) :
  refs_ok (refs s) -> refs_ok (refs (greeting_answered c r s)).
Proof.
  intros H. unfold greeting_answered.
  destruct r as [|[a|]];
    try (now apply greeting_catch_refs_ok);
    try (now apply handleToggleConversation_refs_ok).
  destruct (negb (truthy (data a))); [now apply handleToggleConversation_refs_ok|].
  destruct (outputAudioContextRef (refs s)) eqn:E;
    [|now apply greeting_catch_refs_ok].
  destruct (decoded a); [|now apply greeting_catch_refs_ok].
  unfold seq, emit, suspend, bump. cbn. exact H.
Qed.

Lemma handleStartGame_refs_ok (name age : string) (mode : GameMode.t) (s : AppState) :
  refs_ok (refs s) -> refs_ok (refs (handleStartGame name age mode s)).
Proof.
  intros H. unfold handleStartGame.
  destruct (_ || _); [exact H|].
  unfold seq. apply playGreeting_refs_ok. exact H.
Qed.

Lemma handleExitGame_refs_ok (s : AppState) :
  refs_ok (refs s) -> refs_ok (refs (handleExitGame s)).
Proof.
  intros H. unfold handleExitGame, seq. rewrite stopAudioProcessing_spec. cbn.
  now apply stopped_refs_ok.
Qed.

Lemma onopen_refs_ok (s : AppState) :
  refs_ok (refs s) -> refs_ok (refs (onopen s)).
Proof. intros H. unfold onopen, seq, emit, bump. refs_ok_simple s. Qed.

Lemma transcriptionBlock_refs_ok (m : Message) (s : AppState) :
  refs_ok (refs s) -> refs_ok (refs (transcriptionBlock m s)).
Proof.
  intros H. unfold transcriptionBlock, seq.
  destruct (outputTranscription m); [exact H|].
  destruct (inputTranscription m); exact H.
Qed.

Lemma turnCompleteBlock_refs_ok (m : Message) (s : AppState) :
  refs_ok (refs s) -> refs_ok (refs (turnCompleteBlock m s)).
Proof.
  intros H. unfold turnCompleteBlock, seq.
  destruct (turnComplete m); [|exact H].
  destruct (truthy _); exact H.
Qed.

Lemma audioBlock_refs_ok (m : Message) (now : float) (s : AppState) :
  refs_ok (refs s) -> refs_ok (refs (completion_state (audioBlock m now s))).
Proof.
  intros H. unfold audioBlock.
  destruct (modelTurn m) as [a|]; [|exact H].
  destruct (negb _); [exact H|]. cbn -[checkpoint].
  destruct (outputAudioContextRef (refs s)) eqn:E; [|exact H].
  destruct H as (Hi & Ho & Hs & Hsrc).
  destruct (decoded a); unfold refs_ok; cbn -[checkpoint];
    rewrite !checkpoint_refs; cbn;
    (split; [exact Hi|]); (split; [exact Ho|]); (split; [exact Hs|]);
    intros Hn; congruence.
Qed.

Lemma interruptedBlock_refs_ok (m : Message) (s : AppState) :
  refs_ok (refs s) -> refs_ok (refs (interruptedBlock m s)).
Proof.
  intros H. unfold interruptedBlock.
  destruct (interrupted m); [|exact H].
  destruct H as (Hi & Ho & Hs & Hsrc). unfold refs_ok. cbn.
  repeat split; assumption.
Qed.

Lemma onmessage_refs_ok (m : Message) (now : float) (s : AppState) :
  refs_ok (refs s) -> refs_ok (refs (onmessage m now s)).
Proof.
  intros H. unfold onmessage, seq.
  assert (H3 : refs_ok (refs (turnCompleteBlock m
                 (transcriptionBlock m (toolCallBlock m s))))).
  { apply turnCompleteBlock_refs_ok, transcriptionBlock_refs_ok.
    now rewrite toolCallBlock_refs. }
  pose proof (audioBlock_refs_ok m now _ H3) as Ha.
  destruct (audioBlock m now _); cbn in Ha; [|exact Ha].
  now apply interruptedBlock_refs_ok.
Qed.

Lemma onended_refs_ok (source : nat) (s : AppState) :
  refs_ok (refs s) -> refs_ok (refs (onended source s)).
Proof.
  intros (Hi & Ho & Hs & Hsrc). unfold onended, seq. cbn.
  assert (R : refs_ok (refs (set_audioSourcesRef
                (set_delete source (audioSourcesRef (refs s))) s))).
  { unfold refs_ok. cbn. repeat split; try assumption.
    intros Hn. rewrite (Hsrc Hn). reflexivity. }
  destruct (set_delete source (audioSourcesRef (refs s))); exact R.
Qed.

Lemma onerror_refs_ok (s : AppState) :
  refs_ok (refs s) -> refs_ok (refs (onerror s)).
Proof.
  intros H. unfold onerror, seq. rewrite stopAudioProcessing_spec. cbn.
  now apply stopped_refs_ok.
Qed.

Lemma onclose_refs_ok (s : AppState) :
  refs_ok (refs s) -> refs_ok (refs (onclose s)).
Proof.
  intros H. unfold onclose, seq. rewrite stopAudioProcessing_spec. cbn.
  now apply stopped_refs_ok.
Qed.

Lemma reactionEffect_refs_ok (s : AppState) :
  refs_ok (refs s) -> refs_ok (refs (reactionEffect s)).
Proof.
  intros H. unfold reactionEffect.
  destruct (GameState.eqb _ _); [exact H|].
  destruct H as (Hi & Ho & Hs & Hsrc). unfold seq, emit.
  destruct (open_context (sfxAudioContextRef (refs s))) eqn:E;
    match goal with |- context [hasSound ?r] => destruct (hasSound r) end;
    unfold refs_ok; cbn; repeat split; try assumption; discriminate.
Qed.

Lemma resolving_refs (sid : nat) (resolves : bool) (s : AppState) :
  refs ((if resolves then resolve sid else skip) s) = refs s.
Proof. now destruct resolves. Qed.

Lemma resolving_react (sid : nat) (resolves : bool) (s : AppState) :
  react ((if resolves then resolve sid else skip) s) = react s.
Proof. now destruct resolves. Qed.

(** The cases of a step: [s'] is the state the handler of the step and
    the checkpoint behind it leave. *)
Ltac invert_step H :=
  let h := fresh "h" in
  let Hh := fresh "Hh" in
  let E := fresh "E" in
  apply step_handler in H; destruct H as (h & Hh & E);
  unfold handler in Hh; cbv beta iota in Hh;
  repeat match type of Hh with
         | match ?x with _ => _ end = _ => destruct x eqn:?; try discriminate
         | (if ?x then _ else _) = _ => destruct x eqn:?; try discriminate
         end;
  injection Hh as <-;
  repeat (unfold seq at 1 in E); unfold greeting_ended, toggle_denied in E;
  cbv beta in E;
  match type of E with ?x = _ => subst x end.

Lemma step_refs_ok (s s' : AppState) (l : Label) :
  refs_ok (refs s) -> step s l = Some s' -> refs_ok (refs s').
Proof.
  intros H Hstep. destruct l; invert_step Hstep; rewrite checkpoint_refs.
  - now apply handleStartGame_refs_ok.
  - now apply handleExitGame_refs_ok.
  - now apply handleToggleConversation_refs_ok.
  - now apply greeting_answered_refs_ok.
  - now apply handleToggleConversation_refs_ok.
  - now apply toggle_granted_refs_ok.
  - now apply toggle_catch_refs_ok.
  - rewrite resolving_refs. now apply onopen_refs_ok.
  - now apply onmessage_refs_ok.
  - now apply onerror_refs_ok.
  - now apply onclose_refs_ok.
  - now apply onended_refs_ok.
  - now apply reactionEffect_refs_ok.
Qed.

Lemma run_refs_ok (ls : list Label) (s s' : AppState) :
  refs_ok (refs s) -> run s ls = Some s' -> refs_ok (refs s').
Proof.
  revert s. induction ls as [|l ls IH]; intros s H Hrun; simpl in Hrun.
  - now injection Hrun as <-.
  - destruct (step s l) as [s1|] eqn:E; [|discriminate].
    apply (IH s1); [|exact Hrun]. eapply step_refs_ok; eassumption.
Qed.

Lemma reachable_refs_ok (s : AppState) : reachable s -> refs_ok (refs s).
Proof.
  intros (key & ls & H). eapply run_refs_ok; [|exact H].
  unfold refs_ok; cbn; tauto.
Qed.

(** ** What a teardown achieves *)

Lemma lookup_remove_key {A} (k : nat) (l : list (nat * A)) :
  lookup_key k (remove_key k l) = None.
Proof.
  induction l as [|[k' a] l IH]; simpl; [reflexivity|].
  destruct (k' =? k)%nat eqn:E; simpl; [exact IH|].
  rewrite E. exact IH.
Qed.

(** Sessions are looked up by identity; an update reaches the session it
    names and no other. *)
Lemma lookup_update (k sid : nat) (f : Session -> Session)
    (l : list (nat * Session)) :
  lookup_key k (map (fun p => if (fst p =? sid)%nat then (fst p, f (snd p)) else p) l)
  = if (k =? sid)%nat then option_map f (lookup_key k l) else lookup_key k l.
Proof.
  induction l as [|[k' a] l IH]; cbn [map lookup_key fst snd].
  - now destruct (k =? sid)%nat.
  - destruct (k' =? sid)%nat eqn:E1; cbn [lookup_key];
      destruct (k' =? k)%nat eqn:E2; try exact IH.
    + apply Nat.eqb_eq in E1, E2. subst. now rewrite Nat.eqb_refl.
    + apply Nat.eqb_eq in E2. subst. now rewrite E1.
Qed.

Lemma update_session_lookup (k sid : nat) (f : Session -> Session) (s : AppState) :
  lookup_key k (sessions (world (update_session sid f s)))
  = if (k =? sid)%nat then option_map f (lookup_key k (sessions (world s)))
    else lookup_key k (sessions (world s)).
Proof. apply lookup_update. Qed.

(** An update that keeps the [resolved] flag. *)
Lemma update_session_resolved (k sid : nat) (f : Session -> Session) (s : AppState) :
  (forall se, resolved (f se) = resolved se) ->
  is_resolved k (world (update_session sid f s)) = is_resolved k (world s).
Proof.
  intros H. unfold is_resolved. rewrite update_session_lookup.
  destruct (k =? sid)%nat; [|reflexivity].
  destruct (lookup_key k (sessions (world s))); cbn; [apply H|reflexivity].
Qed.

Lemma mark_closed_resolved (k sid : nat) (s : AppState) :
  is_resolved k (world (mark_closed sid s)) = is_resolved k (world s).
Proof. apply update_session_resolved. reflexivity. Qed.

Lemma mark_open_resolved (k sid : nat) (s : AppState) :
  is_resolved k (world (mark_open sid s)) = is_resolved k (world s).
Proof. apply update_session_resolved. reflexivity. Qed.

(** [close()] never opens a connection. *)
Lemma closing_silent (k sid : nat) (s : AppState) :
  delivers k (world s) = false ->
  delivers k (world (update_session sid closing s)) = false.
Proof.
  unfold delivers, transport_of. rewrite update_session_lookup.
  destruct (k =? sid)%nat; [|auto].
  destruct (lookup_key k (sessions (world s))) as [[[] r]|]; cbn; congruence.
Qed.

Lemma closing_closes (sid : nat) (s : AppState) :
  delivers sid (world (update_session sid closing s)) = false.
Proof.
  unfold delivers, transport_of. rewrite update_session_lookup, Nat.eqb_refl.
  destruct (lookup_key sid (sessions (world s))) as [[[] r]|]; reflexivity.
Qed.

Lemma run_job_silent (k : nat) (s : AppState) (p : nat * Job) :
  delivers k (world s) = false -> delivers k (world (run_job s p)) = false.
Proof.
  intros H. destruct p as [sid [|id name]]; unfold run_job; cbn [snd fst].
  - unfold seq. apply closing_silent. exact H.
  - exact H.
Qed.

Lemma run_jobs_silent (k : nat) (js : list (nat * Job)) (s : AppState) :
  delivers k (world s) = false ->
  delivers k (world (fold_left run_job js s)) = false.
Proof.
  revert s. induction js as [|j js IH]; intros s H; [exact H|].
  cbn [fold_left]. apply IH, run_job_silent, H.
Qed.

Lemma run_jobs_close (sid : nat) (js : list (nat * Job)) (s : AppState) :
  In (sid, JobClose) js ->
  delivers sid (world (fold_left run_job js s)) = false.
Proof.
  revert s. induction js as [|j js IH]; intros s H; [destruct H|].
  cbn [fold_left]. destruct H as [->|H]; [|now apply IH].
  apply run_jobs_silent. unfold run_job, seq. cbn [snd fst].
  apply closing_closes.
Qed.

(** Once the callback of line 78 has run, the session delivers no more. *)
Lemma checkpoint_closes (sid : nat) (s : AppState) :
  In (sid, JobClose) (microtasks (world s)) ->
  silent sid (world (checkpoint s)).
Proof. intros H. unfold silent, checkpoint. now apply run_jobs_close. Qed.

Lemma teardownEffects_stops_tracks (f : Refs) (stream : nat) :
  mediaStreamRef f = Some stream -> In (TrackStop stream) (teardownEffects f).
Proof.
  intros H. unfold teardownEffects. rewrite H.
  apply in_or_app. right. apply in_or_app. left. now left.
Qed.

Lemma teardownEffects_closes_input (f : Refs) :
  refs_ok f -> inputAudioContextRef f <> None ->
  In (ContextClose InputContext) (teardownEffects f).
Proof.
  intros (Hi & _) H. unfold teardownEffects.
  rewrite (open_context_ok _ Hi).
  destruct (inputAudioContextRef f); [|congruence].
  do 2 (apply in_or_app; right). apply in_or_app. left. now left.
Qed.

Lemma teardownEffects_stops_sources (f : Refs) (src : nat) :
  refs_ok f -> In src (audioSourcesRef f) ->
  In (SourceStop src) (teardownEffects f).
Proof.
  intros (_ & Ho & _ & Hsrc) H. unfold teardownEffects.
  rewrite (open_context_ok _ Ho).
  destruct (outputAudioContextRef f).
  - do 3 (apply in_or_app; right). apply in_or_app. left.
    apply in_or_app. left. now apply in_map.
  - rewrite Hsrc in H by reflexivity. destruct H.
Qed.

(** A handler that leaves the refs and the queues as [stopAudioProcessing]
    does, and whose log ends with its calls, has torn down once the
    checkpoint behind it has run. *)
Lemma torn_down_intro (s h : AppState) (pre : list Effect)
    (ts ms : list (nat * Job)) :
  refs_ok (refs s) ->
  trace (world h) = trace (world s) ++ pre ++ teardownEffects (refs s) ->
  thens (world h)
    = (if holds_resolved (refs s) (world s) then ts
       else ts ++ closeJob (refs s)) ->
  microtasks (world h)
    = (if holds_resolved (refs s) (world s) then ms ++ closeJob (refs s)
       else ms) ->
  sessionPromiseRef (refs h) = None ->
  mediaStreamRef (refs h) = None ->
  inputAudioContextRef (refs h) = release (inputAudioContextRef (refs s)) ->
  outputAudioContextRef (refs h) = release (outputAudioContextRef (refs s)) ->
  audioSourcesRef (refs h)
    = (if open_context (outputAudioContextRef (refs s))
       then [] else audioSourcesRef (refs s)) ->
  torn_down s (checkpoint h).
Proof.
  intros Hok Ht Hth Hmi Hsp Hms Hic Hoc Hsrc.
  pose proof Hok as (Hi & Ho & Hs & Hnone).
  exists (pre ++ teardownEffects (refs s) ++ map jobEffect (microtasks (world h))).
  rewrite checkpoint_refs, checkpoint_trace, checkpoint_thens.
  split; [rewrite Ht, <- !app_assoc; reflexivity|].
  split; [exact Hsp|]. split.
  { intros sid E.
    unfold holds_resolved, closeJob in Hth, Hmi. rewrite E in Hth, Hmi.
    destruct (is_resolved sid (world s)).
    - assert (Hin : In (sid, JobClose) (microtasks (world h))).
      { rewrite Hmi. apply in_or_app. right. now left. }
      split; [|now apply checkpoint_closes].
      apply in_or_app. right. apply in_or_app. right.
      apply (in_map jobEffect) in Hin. exact Hin.
    - rewrite Hth. apply in_or_app. right. now left. }
  split; [exact Hms|]. split.
  { intros stream E. apply in_or_app. right. apply in_or_app. left.
    now apply teardownEffects_stops_tracks. }
  split; [rewrite Hic; now apply release_ok|]. split.
  { intros E. apply in_or_app. right. apply in_or_app. left.
    now apply teardownEffects_closes_input. }
  split; [rewrite Hoc; now apply release_ok|]. split.
  { rewrite Hsrc, (open_context_ok _ Ho).
    destruct (outputAudioContextRef (refs s)); [reflexivity | now apply Hnone]. }
  intros src E. apply in_or_app. right. apply in_or_app. left.
  now apply teardownEffects_stops_sources.
Qed.

Ltac stop_facts :=
  unfold seq; rewrite stopAudioProcessing_spec; cbn -[holds_resolved closeJob];
  rewrite <- ?app_assoc; try reflexivity.

Lemma toggle_stop_torn_down (s : AppState) :
  refs_ok (refs s) -> torn_down s (checkpoint (toggle_stop s)).
Proof.
  intros H.
  apply (torn_down_intro s _ [] (thens (world s)) (microtasks (world s)));
    try exact H; unfold toggle_stop; stop_facts.
Qed.

Lemma onerror_torn_down (s : AppState) :
  refs_ok (refs s) -> torn_down s (checkpoint (onerror s)).
Proof.
  intros H.
  apply (torn_down_intro s _ [ConsoleError "Session error:"]
                         (thens (world s)) (microtasks (world s)));
    try exact H; unfold onerror, emit; stop_facts.
Qed.

Lemma onclose_torn_down (s : AppState) :
  refs_ok (refs s) -> torn_down s (checkpoint (onclose s)).
Proof.
  intros H.
  apply (torn_down_intro s _ [] (thens (world s)) (microtasks (world s)));
    try exact H; unfold onclose; stop_facts.
Qed.

(** The same when the session whose closing is reported is marked closed
    first. *)
Lemma closed_torn_down (sid : nat) (s : AppState) :
  refs_ok (refs s) -> torn_down s (checkpoint (onclose (mark_closed sid s))).
Proof.
  intros H.
  set (s0 := mark_closed sid s).
  assert (Er : refs s0 = refs s) by reflexivity.
  assert (Et : trace (world s0) = trace (world s)) by reflexivity.
  assert (R : holds_resolved (refs s0) (world s0)
              = holds_resolved (refs s) (world s)).
  { unfold holds_resolved. rewrite Er.
    destruct (sessionPromiseRef (refs s)); [|reflexivity].
    apply mark_closed_resolved. }
  clearbody s0.
  apply (torn_down_intro s _ [] (thens (world s0)) (microtasks (world s0)));
    try exact H; unfold onclose; stop_facts;
    rewrite ?R, ?Et, ?Er; reflexivity.
Qed.

Lemma handleExitGame_torn_down (s : AppState) :
  refs_ok (refs s) -> torn_down s (checkpoint (handleExitGame s)).
Proof.
  intros H.
  apply (torn_down_intro s _ [] (thens (world s)) (microtasks (world s)));
    try exact H; unfold handleExitGame; stop_facts.
Qed.

(** ** Transitions to [IDLE] *)

(** C3, as stated, fails: a transport error, and a transport close, take
    the listening component to [IDLE] with the reaction still "laughing"
    and the transcript and pending buffer still "Hi". *)
Lemma transport_failure_keeps_reaction_and_transcript :
  exists s s1 s2,
    run (initialState (Some "key")) laughingTrace = Some s /\
    gameState (react s) = GameState.LISTENING /\
    step s (SessionError 3) = Some s1 /\
    gameState (react s1) = GameState.IDLE /\
    jerryReaction (react s1) = "laughing" /\
    jerryTranscript (react s1) = "Hi" /\
    currentOutputTranscriptionRef (refs s1) = "Hi" /\
    step s (SessionClosed 3) = Some s2 /\
    gameState (react s2) = GameState.IDLE /\
    jerryReaction (react s2) = "laughing" /\
    jerryTranscript (react s2) = "Hi" /\
    currentOutputTranscriptionRef (refs s2) = "Hi".
Proof.
  eexists. eexists. eexists.
  split; [vm_compute; reflexivity|].
  split; [reflexivity|].
  split; [vm_compute; reflexivity|].
  do 4 (split; [reflexivity|]).
  split; [vm_compute; reflexivity|].
  repeat split.
Qed.

Lemma GameState_eqb_neq (a b : GameState.t) : a <> b -> GameState.eqb a b = false.
Proof. intros H. unfold GameState.eqb. destruct (GameState.eq_dec a b); congruence. Qed.

(** C3, amended.  In every reachable state, each of the three ways to
    [IDLE] stops the capture pipeline, stops every active playback unit and
    empties the active set, drops the session handle and asks for the
    close of the session on its promise: [close()] is called on the
    session, once the handler has returned, if the promise has resolved,
    and the call waits for the promise otherwise (a session that is still
    connecting is not closed).  The user's stop also resets the reaction
    to idle and empties both display transcripts and both pending
    buffers; a transport error and a transport close leave the reaction,
    the transcripts and the pending buffers as they were (an error also
    sets the error message). *)
Theorem idle_transitions_tear_down (s : AppState) (c : Closure) :
  reachable s ->
  (gameState (react s) <> GameState.IDLE ->
   let s' := checkpoint (handleToggleConversation false c s) in
   gameState (react s') = GameState.IDLE /\
   torn_down s s' /\
   jerryReaction (react s') = JerryReaction.IDLE /\
   userTranscript (react s') = "" /\
   jerryTranscript (react s') = "" /\
   currentInputTranscriptionRef (refs s') = "" /\
   currentOutputTranscriptionRef (refs s') = "") /\
  (let s' := checkpoint (onerror s) in
   gameState (react s') = GameState.IDLE /\
   torn_down s s' /\
   error (react s') = Some sessionErrorMessage /\
   jerryReaction (react s') = jerryReaction (react s) /\
   userTranscript (react s') = userTranscript (react s) /\
   jerryTranscript (react s') = jerryTranscript (react s) /\
   currentInputTranscriptionRef (refs s') = currentInputTranscriptionRef (refs s) /\
   currentOutputTranscriptionRef (refs s') = currentOutputTranscriptionRef (refs s)) /\
  (let s' := checkpoint (onclose s) in
   gameState (react s') = GameState.IDLE /\
   torn_down s s' /\
   error (react s') = error (react s) /\
   jerryReaction (react s') = jerryReaction (react s) /\
   userTranscript (react s') = userTranscript (react s) /\
   jerryTranscript (react s') = jerryTranscript (react s) /\
   currentInputTranscriptionRef (refs s') = currentInputTranscriptionRef (refs s) /\
   currentOutputTranscriptionRef (refs s') = currentOutputTranscriptionRef (refs s)).
Proof.
  intros Hr. apply reachable_refs_ok in Hr.
  split; [|split].
  - intros Hg s'. subst s'. unfold handleToggleConversation.
    rewrite (GameState_eqb_neq _ _ Hg). cbn [negb andb].
    split; [|split; [now apply toggle_stop_torn_down|]];
      rewrite ?checkpoint_react, ?checkpoint_refs;
      unfold toggle_stop, seq; rewrite stopAudioProcessing_spec; cbn;
      repeat split; reflexivity.
  - intros s'. subst s'.
    split; [|split; [now apply onerror_torn_down|]];
      rewrite ?checkpoint_react, ?checkpoint_refs;
      unfold onerror, seq; rewrite stopAudioProcessing_spec; cbn;
      repeat split; reflexivity.
  - intros s'. subst s'.
    split; [|split; [now apply onclose_torn_down|]];
      rewrite ?checkpoint_react, ?checkpoint_refs;
      unfold onclose, seq; rewrite stopAudioProcessing_spec; cbn;
      repeat split; reflexivity.
Qed.

Lemma idle_transitions_tear_down_witness :
  exists s,
    run (initialState (Some "key")) laughingTrace = Some s /\
    reachable s /\
    gameState (react s) = GameState.LISTENING /\
    torn_down s (checkpoint (handleToggleConversation false (closure_of s) s)) /\
    jerryReaction
      (react (checkpoint (handleToggleConversation false (closure_of s) s)))
    = "idle" /\
    torn_down s (checkpoint (onerror s)) /\
    jerryReaction (react (checkpoint (onerror s))) = "laughing" /\
    torn_down s (checkpoint (onclose s)) /\
    jerryTranscript (react (checkpoint (onclose s))) = "Hi".
Proof.
  eexists. split; [vm_compute; reflexivity|].
  match goal with
  | |- reachable ?s /\ _ =>
      assert (R : reachable s)
        by (exists (Some "key"), laughingTrace; vm_compute; reflexivity);
      pose proof (idle_transitions_tear_down s (closure_of s) R) as H
  end.
  cbv zeta in H. destruct H as (Hstop & Herr & Hclose).
  split; [exact R|]. split; [reflexivity|].
  assert (Hg : GameState.LISTENING <> GameState.IDLE) by discriminate.
  destruct (Hstop Hg) as (_ & Ht & Hj & _).
  destruct Herr as (_ & Het & _ & Hej & _).
  destruct Hclose as (_ & Hct & _ & _ & _ & Hcj & _).
  split; [exact Ht|]. split; [exact Hj|]. split; [exact Het|].
  split; [exact Hej|]. split; [exact Hct | exact Hcj].
Defined.

(** A stop while the session is still connecting calls no [close()]: the
    call waits for the promise, the session opens afterwards, [onopen]
    sets [LISTENING], and only then, the promise having resolved, is the
    session closed. *)
Example stop_while_connecting_closes_later :
  exists s s1 s2,
    run (initialState (Some "key"))
        [ClickStartGame "Alex" "10-18" GameMode.AI;
         GreetingSettled 0 (GreetingAnswer None);
         MediaGranted 1] = Some s /\
    gameState (react s) = GameState.CONNECTING /\
    sessionPromiseRef (refs s) = Some 3 /\
    step s ClickToggle = Some s1 /\
    gameState (react s1) = GameState.IDLE /\
    trace (world s1)
    = trace (world s)
      ++ [TrackStop 2; ContextClose InputContext; ContextClose OutputContext] /\
    thens (world s1) = [(3, JobClose)] /\
    step s1 (SessionOpened 3 true) = Some s2 /\
    gameState (react s2) = GameState.LISTENING /\
    trace (world s2) = trace (world s1) ++ [SessionClose 3] /\
    delivers 3 (world s2) = false.
Proof.
  eexists. eexists. eexists.
  split; [vm_compute; reflexivity|].
  split; [reflexivity|]. split; [reflexivity|].
  split; [vm_compute; reflexivity|].
  split; [reflexivity|]. split; [reflexivity|]. split; [reflexivity|].
  split; [vm_compute; reflexivity|].
  split; [reflexivity|]. split; reflexivity.
Qed.

(** ** The exit intent *)

(** C8, as stated, fails: after a start as "Alex", "10-18", mimic mode, the
    exit returns to [PRE_GAME] with the name, the age and the mode still
    recorded. *)
Lemma exit_keeps_identity_and_mode :
  exists s',
    run (initialState (Some "key"))
        [ClickStartGame "Alex" "10-18" GameMode.MIMIC; ClickExit] = Some s' /\
    gameState (react s') = GameState.PRE_GAME /\
    userName (react s') = "Alex" /\
    userAge (react s') = "10-18" /\
    gameMode (react s') = GameMode.MIMIC /\
    gameMode (react s') <> gameMode (react (initialState (Some "key"))).
Proof.
  eexists. split; [vm_compute; reflexivity|].
  repeat split. discriminate.
Qed.

Lemma closing_reports (k sid : nat) (s : AppState) :
  reports k (world (update_session sid closing s)) = reports k (world s).
Proof.
  unfold reports, transport_of. rewrite update_session_lookup.
  destruct (k =? sid)%nat; [|reflexivity].
  destruct (lookup_key k (sessions (world s))) as [[[] r]|]; reflexivity.
Qed.

Lemma run_jobs_reports (k : nat) (js : list (nat * Job)) (s : AppState) :
  reports k (world (fold_left run_job js s)) = reports k (world s).
Proof.
  revert s. induction js as [|[sid [|id name]] js IH]; intros s;
    [reflexivity| |]; cbn [fold_left]; rewrite IH; unfold run_job, seq;
    cbn [fst snd]; [now rewrite closing_reports|reflexivity].
Qed.

(** A session that has not reported its closing still can after the
    checkpoint. *)
Lemma checkpoint_reports (k : nat) (s : AppState) :
  reports k (world (checkpoint s)) = reports k (world s).
Proof. unfold checkpoint. now rewrite run_jobs_reports. Qed.

Lemma onclose_gameState (s : AppState) :
  gameState (react (onclose s)) = GameState.IDLE.
Proof. unfold onclose, seq. now rewrite stopAudioProcessing_spec. Qed.

(** C8, amended.  In every reachable state the exit handler stops the
    capture pipeline, stops the playback units and empties the active set,
    drops the session handle and asks for the close of the session on its
    promise ([close()] is called once the handler has returned if the
    promise has resolved, and waits for the promise otherwise), resets the
    reaction to idle, empties both display transcripts and both pending
    buffers, clears the error message, and sets the state to [PRE_GAME];
    the recorded name, age and mode are left as they were.  A session that
    was held and not yet closed reports its closing afterwards, and that
    report sets the state to [IDLE]. *)
Theorem exit_tears_down_and_keeps_identity (s : AppState) :
  reachable s ->
  let s' := checkpoint (handleExitGame s) in
  gameState (react s') = GameState.PRE_GAME /\
  torn_down s s' /\
  jerryReaction (react s') = JerryReaction.IDLE /\
  userTranscript (react s') = "" /\
  jerryTranscript (react s') = "" /\
  currentInputTranscriptionRef (refs s') = "" /\
  currentOutputTranscriptionRef (refs s') = "" /\
  error (react s') = None /\
  userName (react s') = userName (react s) /\
  userAge (react s') = userAge (react s) /\
  gameMode (react s') = gameMode (react s) /\
  (forall sid, sessionPromiseRef (refs s) = Some sid ->
               reports sid (world s) = true ->
               exists s'', step s' (SessionClosed sid) = Some s'' /\
                           gameState (react s'') = GameState.IDLE).
Proof.
  intros Hr s'. apply reachable_refs_ok in Hr.
  assert (Hlast : forall sid, reports sid (world s) = true ->
            exists s'', step s' (SessionClosed sid) = Some s'' /\
                        gameState (react s'') = GameState.IDLE).
  { intros sid Hrep.
    assert (Hrep' : reports sid (world s') = true).
    { subst s'. rewrite checkpoint_reports.
      unfold handleExitGame, seq. rewrite stopAudioProcessing_spec. exact Hrep. }
    clearbody s'.
    exists (checkpoint (onclose (mark_closed sid s'))). split.
    - unfold step, handler. rewrite Hrep'. reflexivity.
    - rewrite checkpoint_react. apply onclose_gameState. }
  subst s'.
  split; [|split; [now apply handleExitGame_torn_down|]];
    rewrite ?checkpoint_react, ?checkpoint_refs;
    [unfold handleExitGame, seq; rewrite stopAudioProcessing_spec; reflexivity|].
  do 9 (split; [unfold handleExitGame, seq; rewrite stopAudioProcessing_spec;
                reflexivity|]).
  intros sid _ Hrep. now apply Hlast.
Qed.

Lemma exit_tears_down_and_keeps_identity_witness :
  exists s,
    run (initialState (Some "key")) laughingTrace = Some s /\
    reachable s /\
    gameState (react (checkpoint (handleExitGame s))) = GameState.PRE_GAME /\
    torn_down s (checkpoint (handleExitGame s)) /\
    jerryReaction (react (checkpoint (handleExitGame s))) = "idle" /\
    userName (react (checkpoint (handleExitGame s))) = "Alex".
Proof.
  eexists. split; [vm_compute; reflexivity|].
  match goal with
  | |- reachable ?s /\ _ =>
      assert (R : reachable s)
        by (exists (Some "key"), laughingTrace; vm_compute; reflexivity);
      pose proof (exit_tears_down_and_keeps_identity s R) as H
  end.
  cbv zeta in H.
  destruct H as (Hg & Ht & Hj & _ & _ & _ & _ & _ & Hn & _).
  split; [exact R|]. split; [exact Hg|]. split; [exact Ht|].
  split; [exact Hj | exact Hn].
Defined.

(** ** Starting without the API key *)

(** C2, as stated, fails: without the key, a start as "Alex", "10-18" shows
    the message about the key but leaves the state at [IDLE], not
    [PRE_GAME]. *)
Lemma missing_key_start_ends_idle :
  exists s',
    step (initialState None) (ClickStartGame "Alex" "10-18" GameMode.AI) = Some s' /\
    error (react s') = Some "API_KEY environment variable not set." /\
    gameState (react s') = GameState.IDLE /\
    gameState (react s') <> GameState.PRE_GAME.
Proof.
  eexists. split; [vm_compute; reflexivity|].
  repeat split. discriminate.
Qed.

Lemma teardownEffects_acquire_nothing (f : Refs) :
  forallb (fun e => negb (acquires e)) (teardownEffects f) = true.
Proof.
  unfold teardownEffects. rewrite !forallb_app.
  assert (Hs : forall l, forallb (fun e => negb (acquires e)) (map SourceStop l) = true)
    by (induction l; simpl; auto).
  destruct (sessionPromiseRef f), (scriptProcessorRef f), (mediaStreamSourceRef f),
    (mediaStreamRef f), (open_context (inputAudioContextRef f)),
    (open_context (outputAudioContextRef f)),
    (open_context (sfxAudioContextRef f));
    rewrite ?forallb_app, ?Hs; reflexivity.
Qed.

Lemma toggle_start_missing_key (c : Closure) (s : AppState) :
  keyPresent s = false ->
  toggle_start c s
  = toggle_catch (Some missingKeyMessage)
      (setGameState GameState.CONNECTING (setError None s)).
Proof.
  intros H. unfold toggle_start, seq.
  change (keyPresent (setGameState GameState.CONNECTING (setError None s)))
    with (keyPresent s).
  rewrite H. reflexivity.
Qed.

Lemma toggle_catch_failed_on_key (s0 s : AppState) (pre : list Effect) :
  refs_ok (refs s) ->
  refs s0 = refs s ->
  API_KEY (world s0) = API_KEY (world s) ->
  pending (world s0) = pending (world s) ->
  fresh (world s0) = fresh (world s) ->
  trace (world s0) = trace (world s) ++ pre ->
  forallb (fun e => negb (acquires e)) pre = true ->
  failed_on_key s (toggle_catch (Some missingKeyMessage) s0).
Proof.
  intros (Hi & Ho & _) Hf Hk Hp Hfr Ht Hpre.
  unfold toggle_catch, seq. rewrite stopAudioProcessing_spec. cbn.
  unfold failed_on_key. cbn. rewrite Hf, Hp, Hfr, Ht.
  rewrite !release_ok by assumption.
  repeat split; try reflexivity.
  exists (pre ++ [ConsoleError missingKeyMessage] ++ teardownEffects (refs s)).
  split; [now rewrite <- !app_assoc|].
  rewrite !forallb_app, Hpre, teardownEffects_acquire_nothing. reflexivity.
Qed.

Lemma allWhiteSpace_false_trim (name : string) :
  allWhiteSpace name = false -> truthy (trim name) = true.
Proof.
  intros H. destruct (truthy (trim name)) eqn:E; [reflexivity|].
  apply truthy_false_iff, trim_empty_iff in E. congruence.
Qed.

(** C2, amended.  Without the API key, in every reachable state, a start
    of the game with valid fields, and a start of the conversation (an
    auto-start, or the toggle in [IDLE]), fail before anything is
    acquired: no audio context, microphone, session or greeting request
    is asked for, nothing is left suspended, the refs hold no session,
    stream or context, the error message is "API_KEY environment variable
    not set.", and the state ends at [IDLE]. *)
Theorem missing_key_fails_before_acquiring
    (s : AppState) (name age : string) (mode : GameMode.t)
    (isAutoStart : bool) (c : Closure) :
  reachable s ->
  keyPresent s = false ->
  (allWhiteSpace name = false -> age <> "" ->
   failed_on_key s (handleStartGame name age mode s)) /\
  (isAutoStart = true \/ gameState (react s) = GameState.IDLE ->
   failed_on_key s (handleToggleConversation isAutoStart c s)).
Proof.
  intros Hr Hk. apply reachable_refs_ok in Hr. split.
  - intros Hn Ha. unfold handleStartGame.
    rewrite (allWhiteSpace_false_trim _ Hn).
    destruct (truthy age) eqn:Et;
      [|apply truthy_false_iff in Et; congruence].
    cbn [negb orb]. unfold seq, playGreeting.
    match goal with
    | |- context [keyPresent ?x] => change (keyPresent x) with (keyPresent s)
    end.
    rewrite Hk. cbn [negb]. unfold greeting_catch, seq, handleToggleConversation.
    cbn [negb andb]. rewrite toggle_start_missing_key by exact Hk.
    apply (toggle_catch_failed_on_key _ s [ConsoleError "Greeting error:"]);
      try reflexivity; exact Hr.
  - intros Hs. unfold handleToggleConversation.
    assert (E : negb isAutoStart
                && negb (GameState.eqb (gameState (react s)) GameState.IDLE) = false).
    { destruct Hs as [-> | ->]; [reflexivity|]. now rewrite andb_false_r. }
    rewrite E, toggle_start_missing_key by exact Hk.
    apply (toggle_catch_failed_on_key _ s []);
      try reflexivity; try exact Hr. cbn. now rewrite app_nil_r.
Qed.

Lemma missing_key_fails_before_acquiring_witness :
  let s := initialState None in
  reachable s /\
  keyPresent s = false /\
  failed_on_key s (handleStartGame "Alex" "10-18" GameMode.AI s) /\
  failed_on_key s (handleToggleConversation true (closure_of s) s).
Proof.
  assert (R : reachable (initialState None)) by (exists None, []; reflexivity).
  pose proof (missing_key_fails_before_acquiring (initialState None)
                "Alex" "10-18" GameMode.AI true (closure_of (initialState None))
                R eq_refl) as (H1 & H2).
  split; [exact R|]. split; [reflexivity|]. split.
  - apply H1; [reflexivity | discriminate].
  - apply H2. left. reflexivity.
Defined.

(** ** The playback scheduler *)

Lemma scheduled_app (a b : list Effect) :
  scheduled (a ++ b) = scheduled a ++ scheduled b.
Proof. apply flat_map_app. Qed.

(** A callback on a session promise schedules nothing. *)
Lemma scheduled_jobs (js : list (nat * Job)) : scheduled (map jobEffect js) = [].
Proof.
  induction js as [|[sid [|id name]] js IH]; [reflexivity| |]; exact IH.
Qed.

Lemma checkpoint_scheduled (s : AppState) :
  scheduled (trace (world (checkpoint s))) = scheduled (trace (world s)).
Proof.
  now rewrite checkpoint_trace, scheduled_app, scheduled_jobs, app_nil_r.
Qed.

Lemma toolCallBlock_outside (m : Message) (s : AppState) :
  same_outside (world s) (world (toolCallBlock m s)).
Proof.
  unfold toolCallBlock.
  destruct (toolCall m); [apply functionCalls_outside|apply same_outside_refl].
Qed.

(** The state in which the audio block starts: the first three blocks have
    logged nothing, and left the scheduler's refs alone. *)
Lemma before_audio (m : Message) (s : AppState) :
  let s3 := (toolCallBlock m ;; transcriptionBlock m ;; turnCompleteBlock m) s in
  trace (world s3) = trace (world s) /\
  fresh (world s3) = fresh (world s) /\
  playing (world s3) = playing (world s) /\
  outputAudioContextRef (refs s3) = outputAudioContextRef (refs s) /\
  nextStartTimeRef (refs s3) = nextStartTimeRef (refs s) /\
  audioSourcesRef (refs s3) = audioSourcesRef (refs s).
Proof.
  intros s3. subst s3. unfold seq.
  rewrite turnCompleteBlock_world, transcriptionBlock_world.
  destruct (toolCallBlock_outside m s) as (_ & _ & _ & Hp & Hf & Ht).
  split; [exact Ht|]. split; [exact Hf|]. split; [exact Hp|].
  pose proof (toolCallBlock_refs m s) as Hr.
  unfold turnCompleteBlock, transcriptionBlock, seq.
  destruct (turnComplete m), (outputTranscription m), (inputTranscription m);
    cbn; try (destruct (truthy _)); cbn; rewrite Hr; repeat split; reflexivity.
Qed.

Lemma audioBlock_schedule (m : Message) (now : float) (s : AppState) :
  let s' := completion_state (audioBlock m now s) in
  scheduled (trace (world s'))
  = scheduled (trace (world s))
    ++ fst (scheduleStep (held s) (nextStartTimeRef (refs s)) (m, now)) /\
  nextStartTimeRef (refs s')
  = snd (scheduleStep (held s) (nextStartTimeRef (refs s)) (m, now)) /\
  outputAudioContextRef (refs s') = outputAudioContextRef (refs s).
Proof.
  unfold audioBlock, scheduleStep, held. cbn -[checkpoint].
  destruct (modelTurn m) as [a|]; cbn -[checkpoint]; [|now rewrite app_nil_r].
  destruct (truthy (data a)); cbn -[checkpoint]; [|now rewrite app_nil_r].
  destruct (outputAudioContextRef (refs s)) eqn:E; cbn -[checkpoint];
    [|now rewrite app_nil_r].
  match goal with
  | |- context [checkpoint ?x] =>
      pose proof (checkpoint_scheduled x) as Hs;
      pose proof (checkpoint_refs x) as Hr;
      set (c := checkpoint x) in *; clearbody c
  end.
  cbn in Hs, Hr.
  destruct (decoded a); cbn.
  - rewrite scheduled_app, Hs, Hr. cbn. rewrite E. repeat split; reflexivity.
  - rewrite Hs, Hr, app_nil_r. cbn. rewrite E. repeat split; reflexivity.
Qed.

Lemma onmessage_uninterrupted (m : Message) (now : float) (s : AppState) :
  interrupted m = false ->
  onmessage m now s
  = completion_state
      (audioBlock m now
         ((toolCallBlock m ;; transcriptionBlock m ;; turnCompleteBlock m) s)).
Proof.
  intros H. unfold onmessage.
  destruct (audioBlock m now _); [|reflexivity].
  unfold interruptedBlock. rewrite H. reflexivity.
Qed.

(** One message without interruption, as a step of the schedule. *)
Lemma onmessage_scheduleStep (m : Message) (now : float) (s : AppState) :
  interrupted m = false ->
  let s' := onmessage m now s in
  scheduled (trace (world s'))
  = scheduled (trace (world s))
    ++ fst (scheduleStep (held s) (nextStartTimeRef (refs s)) (m, now)) /\
  nextStartTimeRef (refs s')
  = snd (scheduleStep (held s) (nextStartTimeRef (refs s)) (m, now)) /\
  held s' = held s.
Proof.
  intros H s'. subst s'. rewrite (onmessage_uninterrupted _ _ _ H).
  destruct (before_audio m s) as (Et & _ & _ & Hc & Hn & _).
  destruct (audioBlock_schedule m now
              ((toolCallBlock m ;; transcriptionBlock m ;; turnCompleteBlock m) s))
    as (Hs & Hn' & Hc').
  unfold held in *. rewrite Hc, Hn in Hs, Hn'. rewrite Hc', Hc, Hs, Hn', Et.
  repeat split; reflexivity.
Qed.







Lemma onended_schedule (source : nat) (s : AppState) :
  world (onended source s) = world s /\
  nextStartTimeRef (refs (onended source s)) = nextStartTimeRef (refs s) /\
  held (onended source s) = held s.
Proof.
  unfold onended, seq, held. cbn.
  destruct (set_delete source (audioSourcesRef (refs s))); repeat split.
Qed.



(** A message is delivered with times that are not negative. *)
Lemma step_timed (s s' : AppState) (l : Label) :
  step s l = Some s' -> timed l = true.
Proof.
  intros H. destruct l; try reflexivity.
  unfold step, handler in H. cbn [timed].
  destruct (wellTimed m now); [reflexivity|].
  rewrite andb_false_r in H. discriminate.
Qed.












(** ** Interruption *)

Lemma In_set_add (x y : nat) (l : list nat) : In y l -> In y (set_add x l).
Proof.
  intros H. unfold set_add. destruct (existsb (Nat.eqb x) l); [exact H|].
  apply in_or_app. now left.
Qed.

Lemma audioBlock_completes (m : Message) (now : float) (s : AppState) :
  leaves_in_audio m s = false ->
  exists s4 es,
    audioBlock m now s = Normal s4 /\
    trace (world s4) = trace (world s) ++ es /\
    (forall src, In src (audioSourcesRef (refs s)) ->
                 In src (audioSourcesRef (refs s4))).
Proof.
  unfold leaves_in_audio, audioBlock, held. intros H.
  destruct (modelTurn m) as [a|];
    [|exists s, []; rewrite app_nil_r; auto].
  destruct (truthy (data a)); cbn in *;
    [|exists s, []; rewrite app_nil_r; auto].
  destruct (outputAudioContextRef (refs s)); [|discriminate].
  destruct (decoded a); [|discriminate].
  match goal with
  | |- context [checkpoint ?x] =>
      pose proof (checkpoint_trace x) as Ht;
      pose proof (checkpoint_refs x) as Hr;
      set (c := checkpoint x) in *; clearbody c
  end.
  cbn in Ht, Hr.
  eexists. eexists. split; [reflexivity|]. cbn. rewrite Ht, Hr. cbn.
  split; [rewrite <- app_assoc; reflexivity|].
  intros src. apply In_set_add.
Qed.

(** On a message with the interrupted flag (the bare interrupted event
    among them), provided its audio, if any, has been scheduled, that is,
    the handler was not left inside the audio block: every unit that was
    in the active set has been stopped, the active set is empty, and
    [nextStart] is zero, the device time origin, whatever the device time
    and however many units were queued. *)
Lemma interruption_flushes_playback (s : AppState) (m : Message) (now : float) :
  interrupted m = true ->
  leaves_in_audio m s = false ->
  let s' := onmessage m now s in
  audioSourcesRef (refs s') = [] /\
  nextStartTimeRef (refs s') = 0%float /\
  exists es,
    trace (world s') = trace (world s) ++ es /\
    forall src, In src (audioSourcesRef (refs s)) -> In (SourceStop src) es.
Proof.
  intros Hi Hl s'. subst s'. unfold onmessage.
  destruct (before_audio m s) as (Et3 & _ & _ & Hc & _ & Hsrc).
  set (s3 := (toolCallBlock m ;; transcriptionBlock m ;; turnCompleteBlock m) s) in *.
  assert (Hl3 : leaves_in_audio m s3 = false).
  { unfold leaves_in_audio, held in *. now rewrite Hc. }
  destruct (audioBlock_completes m now s3 Hl3) as (s4 & es4 & E4 & Et4 & Hin).
  rewrite E4. unfold interruptedBlock, stopSources, seq. rewrite Hi. cbn.
  split; [reflexivity|]. split; [reflexivity|].
  exists (es4 ++ map SourceStop (audioSourcesRef (refs s4))).
  split; [rewrite Et4, Et3; now rewrite <- !app_assoc|].
  intros src H. apply in_or_app. right.
  apply in_map. apply Hin. now rewrite Hsrc.
Qed.

(** Two buffers queued, then the interruption at device time 5. *)
Example interruption_after_two_buffers :
  exists s,
    run (initialState (Some "key"))
        (openingTrace
         ++ [SessionMessage 3 (audioDelta "AAAA" oneSecond) 0.5;
             SessionMessage 3 (audioDelta "BBBB" oneSecond) 1]) = Some s /\
    audioSourcesRef (refs s) = [6; 7] /\
    interrupted interruptedEvent = true /\
    leaves_in_audio interruptedEvent s = false /\
    audioSourcesRef (refs (onmessage interruptedEvent 5 s)) = [] /\
    nextStartTimeRef (refs (onmessage interruptedEvent 5 s)) = 0%float /\
    trace (world (onmessage interruptedEvent 5 s))
    = trace (world s) ++ [SourceStop 6; SourceStop 7].
Proof.
  eexists. split; [vm_compute; reflexivity|].
  split; [reflexivity|]. split; [reflexivity|]. split; [reflexivity|].
  match goal with
  | |- audioSourcesRef (refs (onmessage ?m ?now ?s)) = _ /\ _ =>
      pose proof (interruption_flushes_playback s m now eq_refl eq_refl) as H
  end.
  cbv zeta in H. destruct H as (H1 & H2 & _).
  split; [exact H1|]. split; [exact H2 | reflexivity].
Qed.

(** C5.  The handler means to flush the playback on every message with
    the interrupted flag, and misses when the message also has audio that
    leaves the handler inside the audio block, before the flush is
    reached.  With a rejected decoding (line 301), the queued unit 6 is
    not stopped, stays in the active set, and [nextStart] is the device
    time 5.  With the output context gone (line 298; a message of a
    session that was not closed), [nextStart] stays 1.5. *)
Lemma interruption_skipped_when_audio_block_exits :
  (exists s,
     run (initialState (Some "key"))
         (openingTrace
          ++ [SessionMessage 3 (audioDelta "AAAA" oneSecond) 0.5]) = Some s /\
     audioSourcesRef (refs s) = [6] /\
     interrupted interruptedWithBadAudio = true /\
     step s (SessionMessage 3 interruptedWithBadAudio 5)
       = Some (onmessage interruptedWithBadAudio 5 s) /\
     audioSourcesRef (refs (onmessage interruptedWithBadAudio 5 s)) = [6] /\
     nextStartTimeRef (refs (onmessage interruptedWithBadAudio 5 s)) = 5%float /\
     trace (world (onmessage interruptedWithBadAudio 5 s)) = trace (world s)) /\
  (exists s,
     run (initialState (Some "key")) staleSessionTrace = Some s /\
     outputAudioContextRef (refs s) = None /\
     interrupted interruptedWithAudio = true /\
     step s (SessionMessage 4 interruptedWithAudio 5)
       = Some (onmessage interruptedWithAudio 5 s) /\
     nextStartTimeRef (refs (onmessage interruptedWithAudio 5 s)) = 1.5%float).
Proof.
  split.
  - eexists. split; [vm_compute; reflexivity|].
    split; [reflexivity|]. split; [reflexivity|].
    split; [vm_compute; reflexivity|]. repeat split.
  - eexists. split; [vm_compute; reflexivity|].
    split; [reflexivity|]. split; [reflexivity|].
    split; [vm_compute; reflexivity|]. reflexivity.
Qed.

(** ** Entering [TALKING] and [IDLE] *)

(** C7, as stated, fails: an audio message of session 4 takes the state
    from [CONNECTING] to [TALKING]. *)
Lemma talking_entered_from_connecting :
  exists s s',
    run (initialState (Some "key")) secondStartTrace = Some s /\
    gameState (react s) = GameState.CONNECTING /\
    step s (SessionMessage 4 (audioDelta "AAAA" oneSecond) 0.5) = Some s' /\
    gameState (react s') = GameState.TALKING.
Proof.
  eexists. eexists. split; [vm_compute; reflexivity|].
  split; [reflexivity|]. split; [vm_compute; reflexivity|]. reflexivity.
Qed.

Lemma follows_refl (s : AppState) : follows s s.
Proof.
  split; [reflexivity|]. split; [reflexivity|]. exists []. now rewrite app_nil_r.
Qed.

Lemma follows_emit (s s0 : AppState) (e : Effect) :
  follows s s0 -> follows s (emit e s0).
Proof.
  intros (Hr & Hss & pre & Ht). split; [exact Hr|]. split; [exact Hss|].
  exists (pre ++ [e]). unfold emit. cbn. rewrite Ht. now rewrite app_assoc.
Qed.

Lemma holds_resolved_sessions (f : Refs) (w w' : World) :
  sessions w' = sessions w -> holds_resolved f w' = holds_resolved f w.
Proof. intros H. unfold holds_resolved, is_resolved. now rewrite H. Qed.

Lemma toggle_catch_torn_down (s s0 : AppState) (msg : option string) :
  refs_ok (refs s) -> follows s s0 ->
  torn_down s (checkpoint (toggle_catch msg s0)).
Proof.
  intros Hok (Hr & Hss & pre & Ht).
  apply (torn_down_intro s _
           (pre ++ [ConsoleError (match msg with Some m => m | None => "" end)])
           (thens (world s0)) (microtasks (world s0)));
    try exact Hok; unfold toggle_catch, emit, seq;
    rewrite stopAudioProcessing_spec; cbn -[holds_resolved closeJob];
    rewrite ?Hr, ?Ht;
    rewrite ?(holds_resolved_sessions (refs s) (world s)) by exact Hss;
    rewrite <- ?app_assoc; reflexivity.
Qed.

Lemma checkpoint_gs (s : AppState) : gs (checkpoint s) = gs s.
Proof. unfold gs. now rewrite checkpoint_react. Qed.

(** Three ways to a quiet outcome. *)
Lemma quiet_same (s h : AppState) : gs h = gs s -> quiet_outcome s (checkpoint h).
Proof. intros H. left. now rewrite checkpoint_gs. Qed.

Lemma quiet_in (s h : AppState) :
  In (gs h) [GameState.PRE_GAME; GameState.GREETING;
             GameState.CONNECTING; GameState.LISTENING] ->
  quiet_outcome s (checkpoint h).
Proof. intros H. right. left. now rewrite checkpoint_gs. Qed.

Lemma quiet_idle (s h : AppState) :
  gs h = GameState.IDLE -> torn_down s (checkpoint h) ->
  quiet_outcome s (checkpoint h).
Proof. intros H Ht. right. right. now rewrite checkpoint_gs. Qed.

Lemma toggle_catch_gs (msg : option string) (s : AppState) :
  gs (toggle_catch msg s) = GameState.IDLE.
Proof.
  unfold gs, toggle_catch, seq. rewrite stopAudioProcessing_spec. reflexivity.
Qed.

Lemma toggle_start_outcome (c : Closure) (s s0 : AppState) :
  refs_ok (refs s) -> follows s s0 ->
  quiet_outcome s (checkpoint (toggle_start c s0)).
Proof.
  intros Hok Hf. destruct (keyPresent s0) eqn:Hk.
  - apply quiet_in. right. right. left.
    unfold gs, toggle_start, seq.
    change (keyPresent (setGameState GameState.CONNECTING (setError None s0)))
      with (keyPresent s0).
    rewrite Hk. cbn [negb]. unfold emit, suspend, bump, seq. cbn.
    destruct (open_context (outputAudioContextRef (refs s0))); reflexivity.
  - rewrite toggle_start_missing_key by exact Hk.
    apply quiet_idle; [apply toggle_catch_gs|].
    apply toggle_catch_torn_down; [exact Hok|].
    destruct Hf as (Hr & Hss & pre & Ht).
    split; [exact Hr|]. split; [exact Hss|]. exists pre. exact Ht.
Qed.

Lemma toggle_stop_outcome (s : AppState) :
  refs_ok (refs s) -> quiet_outcome s (checkpoint (toggle_stop s)).
Proof.
  intros Hok. apply quiet_idle; [|now apply toggle_stop_torn_down].
  unfold gs, toggle_stop, seq. rewrite stopAudioProcessing_spec. reflexivity.
Qed.

Lemma greeting_catch_outcome (c : Closure) (s s0 : AppState) :
  refs_ok (refs s) -> follows s s0 ->
  quiet_outcome s (checkpoint (greeting_catch c s0)).
Proof.
  intros Hok Hf. unfold greeting_catch, seq, handleToggleConversation.
  cbn [negb andb]. apply toggle_start_outcome; [exact Hok|].
  apply (follows_emit s s0 (ConsoleError "Greeting error:")) in Hf. exact Hf.
Qed.

Lemma playGreeting_outcome (name : string) (c : Closure) (s s0 : AppState) :
  refs_ok (refs s) -> follows s s0 ->
  quiet_outcome s (checkpoint (playGreeting name c s0)).
Proof.
  intros Hok Hf. unfold playGreeting.
  destruct (keyPresent s0); cbn [negb].
  - apply quiet_in. right. left. reflexivity.
  - now apply greeting_catch_outcome.
Qed.

Lemma handleStartGame_outcome (name age : string) (mode : GameMode.t) (s : AppState) :
  refs_ok (refs s) ->
  quiet_outcome s (checkpoint (handleStartGame name age mode s)).
Proof.
  intros Hok. unfold handleStartGame.
  destruct (_ || _); [apply quiet_same; reflexivity|].
  unfold seq. apply playGreeting_outcome; [exact Hok | exact (follows_refl s)].
Qed.

Lemma greeting_answered_outcome (c : Closure) (r : GreetingResult) (s s0 : AppState) :
  refs_ok (refs s) -> follows s s0 -> gs s0 = gs s ->
  quiet_outcome s (checkpoint (greeting_answered c r s0)).
Proof.
  intros Hok Hf Hg. unfold greeting_answered.
  assert (Ht : quiet_outcome s (checkpoint (handleToggleConversation true c s0)))
    by (unfold handleToggleConversation; cbn [negb andb];
        now apply toggle_start_outcome).
  destruct r as [|[a|]]; [now apply greeting_catch_outcome | | exact Ht].
  destruct (negb (truthy (data a))); [exact Ht|].
  destruct (outputAudioContextRef (refs s0)); [|now apply greeting_catch_outcome].
  destruct (decoded a); [|now apply greeting_catch_outcome].
  apply quiet_same. exact Hg.
Qed.

Lemma onended_outcome (source : nat) (s s0 : AppState) :
  gs s0 = gs s -> quiet_outcome s (checkpoint (onended source s0)).
Proof.
  intros Hg. unfold onended, seq. cbn -[checkpoint].
  destruct (set_delete source (audioSourcesRef (refs s0))).
  - apply quiet_in. right. right. right. left. reflexivity.
  - apply quiet_same. exact Hg.
Qed.

(** What [onmessage] does to the game state: it leaves it, or sets
    [THINKING], or, on an audio payload, [TALKING]. *)
Lemma onmessage_gs (m : Message) (now : float) (s : AppState) :
  gs (onmessage m now s) = gs s \/
  gs (onmessage m now s) = GameState.THINKING \/
  (gs (onmessage m now s) = GameState.TALKING /\
   exists a, modelTurn m = Some a /\ truthy (data a) = true).
Proof.
  unfold gs, onmessage.
  set (s3 := (toolCallBlock m ;; transcriptionBlock m ;; turnCompleteBlock m) s).
  assert (H3 : gameState (react s3) = gameState (react s) \/
               gameState (react s3) = GameState.THINKING).
  { subst s3. unfold seq.
    pose proof (toolCallBlock_react m s) as (Hg & _).
    assert (H2 : gameState (react (transcriptionBlock m (toolCallBlock m s)))
                 = gameState (react s)).
    { unfold transcriptionBlock.
      destruct (outputTranscription m); [exact Hg|].
      destruct (inputTranscription m); exact Hg. }
    unfold turnCompleteBlock, seq.
    destruct (turnComplete m); [|left; exact H2].
    destruct (truthy _); cbn; [right; reflexivity | left; exact H2]. }
  unfold audioBlock.
  destruct (modelTurn m) as [a|];
    [|rewrite interruptedBlock_react; destruct H3; auto].
  destruct (truthy (data a)) eqn:E; cbn [negb];
    [|rewrite interruptedBlock_react; destruct H3; auto].
  right. right. split; [|exists a; auto]. cbn -[checkpoint].
  destruct (outputAudioContextRef (refs s3)); [|reflexivity].
  destruct (decoded a); [|now rewrite checkpoint_react].
  rewrite interruptedBlock_react. cbn -[checkpoint].
  now rewrite checkpoint_react.
Qed.

(** Every step but a message has a quiet outcome. *)
Lemma step_quiet (s s' : AppState) (l : Label) :
  refs_ok (refs s) ->
  step s l = Some s' ->
  (forall sid m now, l <> SessionMessage sid m now) ->
  quiet_outcome s s'.
Proof.
  intros Hok Hstep Hl. destruct l; invert_step Hstep.
  - now apply handleStartGame_outcome.
  - apply quiet_in. left. unfold gs, handleExitGame, seq.
    rewrite stopAudioProcessing_spec. reflexivity.
  - unfold handleToggleConversation.
    destruct (_ && _); [now apply toggle_stop_outcome|].
    apply toggle_start_outcome; [exact Hok | exact (follows_refl s)].
  - apply greeting_answered_outcome;
      [exact Hok | exact (follows_refl s) | reflexivity].
  - unfold handleToggleConversation. cbn [negb andb].
    apply toggle_start_outcome; [exact Hok | exact (follows_refl s)].
  - apply quiet_same. reflexivity.
  - apply quiet_idle; [apply toggle_catch_gs|].
    apply toggle_catch_torn_down; [exact Hok | exact (follows_refl s)].
  - apply quiet_in. right. right. right. left.
    unfold gs. rewrite resolving_react.
    unfold onopen, seq, emit, bump. cbn.
    destruct (inputAudioContextRef (refs s)); [|reflexivity].
    destruct (mediaStreamRef (refs s)); reflexivity.
  - exfalso. eapply Hl. reflexivity.
  - apply quiet_idle; [|now apply onerror_torn_down].
    unfold gs, onerror, seq. rewrite stopAudioProcessing_spec. reflexivity.
  - apply quiet_idle; [|now apply closed_torn_down].
    unfold gs, onclose, seq. rewrite stopAudioProcessing_spec. reflexivity.
  - apply onended_outcome. reflexivity.
  - apply quiet_same. unfold gs, reactionEffect, seq, emit.
    destruct (GameState.eqb _ _); [reflexivity|].
    destruct (open_context _);
      match goal with |- context [hasSound ?r] => destruct (hasSound r) end;
      reflexivity.
Qed.

(** C7, amended.  In every step from a reachable state: the state
    [TALKING] is entered only by a session message that carries audio,
    from whichever state the message finds (the handler has no guard on
    the state); and [IDLE] is entered only by a step that has run the
    teardown (session handle dropped and the close of the session asked
    for on its promise, which calls [close()] behind the handler if the
    promise has resolved and leaves the call waiting otherwise; capture
    stopped; playback units stopped and the active set emptied). *)
Theorem talking_and_idle_entries (s s' : AppState) (l : Label) :
  reachable s ->
  step s l = Some s' ->
  (gameState (react s') = GameState.TALKING ->
   gameState (react s) <> GameState.TALKING ->
   exists sid m now a,
     l = SessionMessage sid m now /\
     modelTurn m = Some a /\ truthy (data a) = true) /\
  (gameState (react s') = GameState.IDLE ->
   gameState (react s) <> GameState.IDLE ->
   torn_down s s').
Proof.
  intros Hr Hstep. apply reachable_refs_ok in Hr.
  assert (Hcases : (exists sid m now, l = SessionMessage sid m now) \/
                   (forall sid m now, l <> SessionMessage sid m now)).
  { destruct l; try (right; intros; discriminate). left; eauto. }
  destruct Hcases as [(sid & m & now & ->) | Hl].
  - invert_step Hstep. rewrite checkpoint_react.
    destruct (onmessage_gs m now s) as [H | [H | (H & a & Ha & Hd)]];
      unfold gs in H; split; intros H1 H2; try congruence.
    exists sid, m, now, a. auto.
  - destruct (step_quiet s s' l Hr Hstep Hl) as [H | [H | (H & Ht)]];
      unfold gs in H.
    + split; intros H1 H2; congruence.
    + split; intros H1 H2; rewrite H1 in H; simpl in H;
        repeat (destruct H as [H|H]; try discriminate); destruct H.
    + split; intros H1 H2; [congruence | exact Ht].
Qed.

Lemma talking_and_idle_entries_witness :
  exists s s',
    run (initialState (Some "key")) openingTrace = Some s /\
    reachable s /\
    step s (SessionMessage 3 (audioDelta "AAAA" oneSecond) 0.5) = Some s' /\
    gameState (react s') = GameState.TALKING /\
    gameState (react s) = GameState.LISTENING /\
    (exists sid m now a,
       SessionMessage 3 (audioDelta "AAAA" oneSecond) 0.5
       = SessionMessage sid m now /\
       modelTurn m = Some a /\ truthy (data a) = true).
Proof.
  eexists. eexists. split; [vm_compute; reflexivity|].
  match goal with
  | |- reachable ?s /\ _ =>
      assert (R : reachable s)
        by (exists (Some "key"), openingTrace; vm_compute; reflexivity)
  end.
  split; [exact R|].
  split; [vm_compute; reflexivity|].
  match type of R with
  | reachable ?s =>
      match goal with
      | |- gameState (react ?s1) = _ /\ _ =>
          assert (E : step s (SessionMessage 3 (audioDelta "AAAA" oneSecond) 0.5)
                      = Some s1) by (vm_compute; reflexivity)
      end
  end.
  pose proof (talking_and_idle_entries _ _ _ R E) as (H & _).
  split; [reflexivity|]. split; [reflexivity|].
  apply H; [reflexivity | discriminate].
Defined.

(** * Further properties *)

(** ** Identities are fresh *)

Lemma keys_below_le {A} (n m : nat) (l : list (nat * A)) :
  n <= m -> keys_below n l -> keys_below m l.
Proof.
  intros Hle H. unfold keys_below in *. rewrite Forall_forall in *.
  intros p Hp. specialize (H p Hp). lia.
Qed.

Lemma keys_below_remove {A} (n k : nat) (l : list (nat * A)) :
  keys_below n l -> keys_below n (remove_key k l).
Proof.
  unfold keys_below, remove_key. rewrite !Forall_forall.
  intros H p Hp. apply filter_In in Hp. apply H. tauto.
Qed.

Lemma keys_below_snoc {A} (n : nat) (l : list (nat * A)) (a : A) :
  keys_below n l -> keys_below (S n) (l ++ [(n, a)]).
Proof.
  intros H. apply Forall_app. split.
  - apply keys_below_le with n; [lia | exact H].
  - constructor; [simpl; lia | constructor].
Qed.

Lemma lookup_key_fresh {A} (n : nat) (l : list (nat * A)) (a : A) :
  keys_below n l -> lookup_key n (l ++ [(n, a)]) = Some a.
Proof.
  induction l as [|[k b] l IH]; simpl; intros H.
  - now rewrite Nat.eqb_refl.
  - inversion H as [|? ? Hk Hl]; subst. simpl in Hk.
    destruct (k =? n)%nat eqn:E; [apply Nat.eqb_eq in E; lia|].
    now apply IH.
Qed.

Lemma remove_key_fresh {A} (n : nat) (l : list (nat * A)) (a : A) :
  keys_below n l -> remove_key n (l ++ [(n, a)]) = l.
Proof.
  induction l as [|[k b] l IH]; simpl; intros H.
  - now rewrite Nat.eqb_refl.
  - inversion H as [|? ? Hk Hl]; subst. simpl in Hk.
    destruct (k =? n)%nat eqn:E; [apply Nat.eqb_eq in E; lia|].
    simpl. f_equal. now apply IH.
Qed.

Lemma grown_refl (w : World) : grown w w.
Proof. split; [lia | tauto]. Qed.

Lemma grown_trans (a b c : World) : grown a b -> grown b c -> grown a c.
Proof. intros [H1 H2] [H3 H4]. split; [lia | tauto]. Qed.

Lemma grown_emit (e : Effect) (s : AppState) : grown (world s) (world (emit e s)).
Proof. split; [cbn; lia | intros H; exact H]. Qed.

Lemma grown_bump (s : AppState) : grown (world s) (world (bump s)).
Proof.
  split; [cbn; lia|]. intros [Hp Hs]. split; cbn.
  - apply keys_below_le with (fresh (world s)); [lia | exact Hp].
  - apply keys_below_le with (fresh (world s)); [lia | exact Hs].
Qed.

Lemma grown_suspend (p : Pending) (s : AppState) :
  grown (world s) (world (suspend p s)).
Proof.
  split; [cbn; lia|]. intros [Hp Hs]. split; cbn.
  - now apply keys_below_snoc.
  - apply keys_below_le with (fresh (world s)); [lia | exact Hs].
Qed.

Lemma grown_stop (b : bool) (s : AppState) :
  grown (world s) (world (stopAudioProcessing b s)).
Proof.
  rewrite stopAudioProcessing_spec. cbn. split; [cbn; lia|].
  intros [Hp Hs]. split; cbn; [exact Hp | exact Hs].
Qed.

Lemma keys_below_same_keys {A} (n : nat) (l l' : list (nat * A)) :
  map fst l' = map fst l -> keys_below n l -> keys_below n l'.
Proof.
  unfold keys_below. intros E H.
  apply (Forall_map fst (fun k => k < n)).
  rewrite E. apply (Forall_map fst (fun k => k < n)). exact H.
Qed.

(** Worlds with the same counter, the same suspended calls and the same
    session identities. *)
Lemma grown_same_keys (w w' : World) :
  fresh w' = fresh w -> pending w' = pending w ->
  map fst (sessions w') = map fst (sessions w) ->
  grown w w'.
Proof.
  intros Hf Hp Hs. split; [lia|]. intros [H1 H2]. split.
  - rewrite Hf, Hp. exact H1.
  - rewrite Hf. now apply (keys_below_same_keys _ (sessions w)).
Qed.

Lemma grown_outside (w w' : World) : same_outside w w' -> grown w w'.
Proof.
  intros (_ & Hp & Hs & _ & Hf & _).
  apply grown_same_keys; [exact Hf | exact Hp | now rewrite Hs].
Qed.

Lemma grown_checkpoint (s : AppState) : grown (world s) (world (checkpoint s)).
Proof.
  destruct (checkpoint_world s) as (_ & Hp & _ & _ & _ & Hf & Hs).
  now apply grown_same_keys.
Qed.

Lemma grown_update_session (sid : nat) (f : Session -> Session) (s : AppState) :
  grown (world s) (world (update_session sid f s)).
Proof.
  apply grown_same_keys; try reflexivity.
  unfold update_session. cbn -[map]. apply update_session_keys.
Qed.

Lemma grown_resolve (sid : nat) (s : AppState) :
  grown (world s) (world (resolve sid s)).
Proof.
  unfold resolve, seq.
  eapply grown_trans; [apply grown_update_session|].
  apply grown_same_keys; reflexivity.
Qed.

Lemma grown_resolving (sid : nat) (resolves : bool) (s : AppState) :
  grown (world s) (world ((if resolves then resolve sid else skip) s)).
Proof. destruct resolves; [apply grown_resolve | apply grown_refl]. Qed.

Lemma grown_react (f : ReactState -> ReactState) (s : AppState) :
  grown (world s) (world (upd_react f s)).
Proof. apply grown_refl. Qed.

Lemma grown_refs (f : Refs -> Refs) (s : AppState) :
  grown (world s) (world (upd_refs f s)).
Proof. apply grown_refl. Qed.

(** Peel the last statement of a sequence. *)
Ltac grown_peel :=
  repeat first
    [ apply grown_refl
    | eapply grown_trans; [| apply grown_suspend]
    | eapply grown_trans; [| apply grown_stop]
    | eapply grown_trans; [| apply grown_emit]
    | eapply grown_trans; [| apply grown_bump]
    | eapply grown_trans; [| apply grown_react]
    | eapply grown_trans; [| apply grown_refs] ].

Lemma grown_toggle_catch (msg : option string) (s : AppState) :
  grown (world s) (world (toggle_catch msg s)).
Proof. unfold toggle_catch, seq. grown_peel. Qed.

Lemma grown_toggle_stop (s : AppState) : grown (world s) (world (toggle_stop s)).
Proof. unfold toggle_stop, seq. grown_peel. Qed.

Lemma grown_toggle_start (c : Closure) (s : AppState) :
  grown (world s) (world (toggle_start c s)).
Proof.
  unfold toggle_start, seq at 1 2.
  match goal with |- context [keyPresent ?x] => destruct (keyPresent x) end;
    cbn [negb].
  - unfold seq. cbv beta. grown_peel.
    match goal with |- context [if ?c then _ else _] => destruct c end;
      grown_peel.
  - eapply grown_trans; [| apply grown_toggle_catch]. grown_peel.
Qed.

Lemma grown_handleToggleConversation (b : bool) (c : Closure) (s : AppState) :
  grown (world s) (world (handleToggleConversation b c s)).
Proof.
  unfold handleToggleConversation.
  destruct (_ && _); [apply grown_toggle_stop | apply grown_toggle_start].
Qed.

Lemma grown_toggle_granted (c : Closure) (s : AppState) :
  grown (world s) (world (toggle_granted c s)).
Proof.
  unfold toggle_granted, seq, emit, bump. cbn. split; [cbn; lia|].
  intros [Hp Hs]. split; cbn.
  - apply keys_below_le with (fresh (world s)); [lia | exact Hp].
  - apply Forall_app. split.
    + apply keys_below_le with (fresh (world s)); [lia | exact Hs].
    + constructor; [simpl; lia | constructor].
Qed.

Lemma grown_greeting_catch (c : Closure) (s : AppState) :
  grown (world s) (world (greeting_catch c s)).
Proof.
  unfold greeting_catch, seq.
  eapply grown_trans; [| apply grown_handleToggleConversation]. grown_peel.
Qed.

Lemma grown_playGreeting (name : string) (c : Closure) (s : AppState) :
  grown (world s) (world (playGreeting name c s)).
Proof.
  unfold playGreeting.
  destruct (keyPresent s); cbn [negb]; [|apply grown_greeting_catch].
  unfold seq. grown_peel.
Qed.

Lemma grown_greeting_answered (c : Closure) (r : GreetingResult) (s : AppState) :
  grown (world s) (world (greeting_answered c r s)).
Proof.
  unfold greeting_answered.
  destruct r as [|[a|]];
    try apply grown_greeting_catch; try apply grown_handleToggleConversation.
  destruct (negb (truthy (data a))); [apply grown_handleToggleConversation|].
  destruct (outputAudioContextRef (refs s)); [|apply grown_greeting_catch].
  destruct (decoded a); [|apply grown_greeting_catch].
  unfold seq. grown_peel.
Qed.

Lemma grown_handleStartGame (name age : string) (mode : GameMode.t) (s : AppState) :
  grown (world s) (world (handleStartGame name age mode s)).
Proof.
  unfold handleStartGame. destruct (_ || _); [apply grown_refl|].
  unfold seq. eapply grown_trans; [| apply grown_playGreeting]. grown_peel.
Qed.

Lemma grown_handleExitGame (s : AppState) :
  grown (world s) (world (handleExitGame s)).
Proof.
  unfold handleExitGame, seq.
  eapply grown_trans; [apply grown_stop|].
  unfold setGameState. apply grown_react.
Qed.

Lemma grown_onopen (s : AppState) : grown (world s) (world (onopen s)).
Proof.
  unfold onopen, seq. cbv beta.
  match goal with
  | |- context [match ?a with Some _ => _ | None => _ end] => destruct a
  end; [|grown_peel].
  match goal with
  | |- context [match ?a with Some _ => _ | None => _ end] => destruct a
  end; grown_peel.
Qed.

Lemma grown_toolCallBlock (m : Message) (s : AppState) :
  grown (world s) (world (toolCallBlock m s)).
Proof.
  apply grown_outside, toolCallBlock_outside.
Qed.

Lemma grown_audioBlock (m : Message) (now : float) (s : AppState) :
  grown (world s) (world (completion_state (audioBlock m now s))).
Proof.
  unfold audioBlock.
  destruct (modelTurn m) as [a|]; [|apply grown_refl].
  destruct (negb (truthy (data a))); [apply grown_refl|]. cbn -[checkpoint].
  destruct (outputAudioContextRef (refs s)); [|apply grown_refl].
  match goal with
  | |- context [checkpoint ?x] =>
      pose proof (grown_checkpoint x) as Hc;
      change (world x) with (world s) in Hc;
      set (c := checkpoint x) in *; clearbody c
  end.
  destruct (decoded a); [|exact Hc].
  eapply grown_trans; [exact Hc|].
  cbn. split; [cbn; lia|]. intros [Hp Hs]. split; cbn.
  - apply keys_below_le with (fresh (world c)); [lia | exact Hp].
  - apply keys_below_le with (fresh (world c)); [lia | exact Hs].
Qed.

Lemma grown_interruptedBlock (m : Message) (s : AppState) :
  grown (world s) (world (interruptedBlock m s)).
Proof.
  unfold interruptedBlock. destruct (interrupted m); [|apply grown_refl].
  split; [cbn; lia | intros H; exact H].
Qed.

Lemma grown_onmessage (m : Message) (now : float) (s : AppState) :
  grown (world s) (world (onmessage m now s)).
Proof.
  unfold onmessage, seq.
  set (s3 := turnCompleteBlock m (transcriptionBlock m (toolCallBlock m s))).
  assert (H3 : grown (world s) (world s3)).
  { subst s3. rewrite turnCompleteBlock_world, transcriptionBlock_world.
    apply grown_toolCallBlock. }
  pose proof (grown_audioBlock m now s3) as Ha.
  destruct (audioBlock m now s3) as [s4|s4]; cbn in Ha.
  - eapply grown_trans; [|apply grown_interruptedBlock].
    eapply grown_trans; eassumption.
  - eapply grown_trans; eassumption.
Qed.

Lemma grown_onended (source : nat) (s : AppState) :
  grown (world s) (world (onended source s)).
Proof.
  destruct (onended_schedule source s) as (E & _). rewrite E. apply grown_refl.
Qed.

Lemma grown_onerror (s : AppState) : grown (world s) (world (onerror s)).
Proof. unfold onerror, seq. grown_peel. Qed.

Lemma grown_onclose (s : AppState) : grown (world s) (world (onclose s)).
Proof. unfold onclose, seq. grown_peel. Qed.

Lemma grown_reactionEffect (s : AppState) :
  grown (world s) (world (reactionEffect s)).
Proof.
  unfold reactionEffect.
  destruct (GameState.eqb _ _); [apply grown_refl|].
  unfold seq. cbv beta.
  match goal with |- context [hasSound ?r] => destruct (hasSound r) end;
    destruct (open_context (sfxAudioContextRef (refs s))); grown_peel.
Qed.

Lemma ids_ok_take_pending (task : nat) (s : AppState) :
  ids_ok (world s) -> ids_ok (world (take_pending task s)).
Proof.
  intros [Hp Hs]. split; cbn; [now apply keys_below_remove | exact Hs].
Qed.

(** Every step keeps the identities in order. *)
Lemma step_ids_ok (s s' : AppState) (l : Label) :
  ids_ok (world s) -> step s l = Some s' -> ids_ok (world s').
Proof.
  intros H Hstep. destruct l; invert_step Hstep; apply grown_checkpoint.
  - now apply grown_handleStartGame.
  - now apply grown_handleExitGame.
  - now apply grown_handleToggleConversation.
  - apply grown_greeting_answered. now apply ids_ok_take_pending.
  - apply grown_handleToggleConversation. now apply ids_ok_take_pending.
  - apply grown_toggle_granted. now apply ids_ok_take_pending.
  - apply grown_toggle_catch. now apply ids_ok_take_pending.
  - apply grown_resolving, grown_onopen. now apply grown_update_session.
  - now apply grown_onmessage.
  - now apply grown_onerror.
  - apply grown_onclose. now apply grown_update_session.
  - apply grown_onended. exact H.
  - now apply grown_reactionEffect.
Qed.

Lemma run_ids_ok (ls : list Label) (s s' : AppState) :
  ids_ok (world s) -> run s ls = Some s' -> ids_ok (world s').
Proof.
  revert s. induction ls as [|l ls IH]; intros s H Hrun; simpl in Hrun.
  - now injection Hrun as <-.
  - destruct (step s l) as [s1|] eqn:E; [|discriminate].
    apply (IH s1); [|exact Hrun]. eapply step_ids_ok; eassumption.
Qed.

Lemma reachable_ids_ok (s : AppState) : reachable s -> ids_ok (world s).
Proof.
  intros (key & ls & H). eapply run_ids_ok; [|exact H].
  split; constructor.
Qed.

(** ** Teardown twice *)

Lemma release_release (c : option AudioContext) : release (release c) = release c.
Proof.
  unfold release. destruct (open_context c) eqn:E; [reflexivity|]. now rewrite E.
Qed.

Lemma open_context_release (c : option AudioContext) :
  open_context (release c) = false.
Proof.
  unfold release. destruct (open_context c) eqn:E; [reflexivity | exact E].
Qed.

(** X1.  A second [stopAudioProcessing] closes and stops nothing: the React
    state, the refs, the sessions and the suspended calls are those the
    first one left, and the only calls made are the two [disconnect()] of
    the capture nodes, again, when both node refs are set (they are never
    cleared). *)
Theorem stopAudioProcessing_twice (isExiting : bool) (s : AppState) :
  let s1 := stopAudioProcessing isExiting s in
  let s2 := stopAudioProcessing isExiting s1 in
  react s2 = react s1 /\
  refs s2 = refs s1 /\
  sessions (world s2) = sessions (world s1) /\
  pending (world s2) = pending (world s1) /\
  trace (world s2)
  = trace (world s1)
    ++ match scriptProcessorRef (refs s), mediaStreamSourceRef (refs s) with
       | Some p, Some m => [NodeDisconnect m; NodeDisconnect p]
       | _, _ => []
       end.
Proof.
  cbv zeta. rewrite !stopAudioProcessing_spec. cbn.
  unfold stopped_react, stopped_refs, stopped_world, teardownEffects. cbn.
  rewrite !release_release, !open_context_release.
  destruct isExiting; cbn;
    (repeat split; try reflexivity;
     destruct (scriptProcessorRef (refs s)), (mediaStreamSourceRef (refs s));
     cbn; rewrite ?app_nil_r; reflexivity).
Qed.

(** ** The audio context refs *)

(** X2.  In every reachable state no audio context ref holds a closed
    context (so the [state !== 'closed'] tests of the code succeed on
    every context that is held), and the active set of sources is empty
    whenever there is no output context. *)
Theorem reachable_contexts_are_open (s : AppState) :
  reachable s ->
  (forall c, inputAudioContextRef (refs s) = Some c -> ctx_state c <> closed) /\
  (forall c, outputAudioContextRef (refs s) = Some c -> ctx_state c <> closed) /\
  (forall c, sfxAudioContextRef (refs s) = Some c -> ctx_state c <> closed) /\
  (outputAudioContextRef (refs s) = None -> audioSourcesRef (refs s) = []).
Proof.
  intros Hr. destruct (reachable_refs_ok s Hr) as (Hi & Ho & Hs & Hsrc).
  unfold context_ok in *.
  repeat split; try exact Hsrc; intros c E; rewrite E in *; assumption.
Qed.

Lemma reachable_contexts_are_open_witness :
  exists s,
    run (initialState (Some "key")) staleSessionTrace = Some s /\
    reachable s /\
    outputAudioContextRef (refs s) = None /\
    audioSourcesRef (refs s) = [].
Proof.
  eexists. split; [vm_compute; reflexivity|].
  match goal with
  | |- reachable ?s /\ _ =>
      assert (R : reachable s)
        by (exists (Some "key"), staleSessionTrace; vm_compute; reflexivity);
      pose proof (reachable_contexts_are_open s R) as (_ & _ & _ & H)
  end.
  split; [exact R|]. split; [reflexivity|]. apply H. reflexivity.
Defined.

(** ** Function calls *)

Lemma functionCalls_lastReaction (fcs : list FunctionCall) (s : AppState) :
  jerryReaction (react (fold_left handleFunctionCall fcs s))
  = lastReaction fcs (jerryReaction (react s)).
Proof.
  unfold lastReaction.
  revert s. induction fcs as [|fc fcs IH]; intros s; simpl; [reflexivity|].
  rewrite IH. f_equal.
  unfold handleFunctionCall, isReactionCall, acknowledge, seq.
  destruct (fc_name fc =? reactionTool); [|reflexivity].
  destruct (sessionPromiseRef (refs (setJerryReaction (fc_reaction fc) s)));
    rewrite ?then__react; reflexivity.
Qed.

(** X3.  A message with any number of function calls, handled from a
    state with nothing queued: each call named [setJerrysReaction] leaves
    its acknowledgment to a callback on the session promise held, in the
    order of the message.  If that promise has resolved, the
    acknowledgments are sent one by one, in that order, to the session
    held, before anything else is handled; if it is pending, nothing is
    sent and the callbacks wait for the promise, in that order; with no
    promise held nothing is sent.  Calls of another name are skipped
    without an answer; and, the turn not being complete, the reaction left
    is that of the last [setJerrysReaction] call. *)
Theorem function_calls_acknowledged_in_order
    (s : AppState) (m : Message) (now : float) (fcs : list FunctionCall) :
  toolCall m = Some fcs ->
  turnComplete m = false ->
  microtasks (world s) = [] ->
  let s' := checkpoint (onmessage m now s) in
  match sessionPromiseRef (refs s) with
  | Some sid =>
      if is_resolved sid (world s)
      then toolResponses (trace (world s'))
           = toolResponses (trace (world s))
             ++ map (acknowledgment sid) (filter isReactionCall fcs) /\
           thens (world s') = thens (world s)
      else toolResponses (trace (world s')) = toolResponses (trace (world s)) /\
           thens (world s')
           = thens (world s) ++ map (responseJob sid) (filter isReactionCall fcs)
  | None =>
      toolResponses (trace (world s')) = toolResponses (trace (world s)) /\
      thens (world s') = thens (world s)
  end /\
  jerryReaction (react s') = lastReaction fcs (jerryReaction (react s)).
Proof.
  intros Hm Ht Hq s'. split.
  - exact (message_responses s m now fcs Hm Hq).
  - subst s'. rewrite checkpoint_react.
    destruct (onmessage_same_text m now s) as (_ & _ & -> & _).
    unfold seq, turnCompleteBlock. rewrite Ht.
    unfold transcriptionBlock.
    assert (E : jerryReaction (react (toolCallBlock m s))
                = lastReaction fcs (jerryReaction (react s))).
    { unfold toolCallBlock. rewrite Hm. apply functionCalls_lastReaction. }
    destruct (outputTranscription m); [exact E|].
    destruct (inputTranscription m); exact E.
Qed.

Lemma function_calls_acknowledged_in_order_witness :
  exists s s',
    run (initialState (Some "key")) openingTrace = Some s /\
    sessionPromiseRef (refs s) = Some 3 /\
    is_resolved 3 (world s) = true /\
    s' = checkpoint (onmessage twoReactionsAndAnother 0 s) /\
    toolResponses (trace (world s'))
    = [SendToolResponse 3 "a" "setJerrysReaction" "ok";
       SendToolResponse 3 "c" "setJerrysReaction" "ok"] /\
    jerryReaction (react s') = "laughing".
Proof.
  eexists. eexists. split; [vm_compute; reflexivity|].
  split; [reflexivity|]. split; [reflexivity|].
  split; [reflexivity|].
  match goal with
  | |- toolResponses (trace (world (checkpoint (onmessage _ _ ?s)))) = _ /\ _ =>
      pose proof (function_calls_acknowledged_in_order s twoReactionsAndAnother 0 _
                    eq_refl eq_refl eq_refl) as (H1 & H2)
  end.
  split; [rewrite (proj1 H1); reflexivity | rewrite H2; reflexivity].
Defined.

(** ** Transcripts *)

Lemma append_empty_r (a : string) : (a ++ "")%string = a.
Proof. induction a as [|c a IH]; simpl; [reflexivity | now rewrite IH]. Qed.

Lemma append_assoc' (a b c : string) :
  ((a ++ b) ++ c)%string = (a ++ (b ++ c))%string.
Proof. induction a as [|x a IH]; simpl; [reflexivity | now rewrite IH]. Qed.

(** What one message does to the pending buffers and to the transcripts
    on display. *)
Lemma onmessage_text (m : Message) (now : float) (s : AppState) :
  let s' := onmessage m now s in
  let pu := (currentInputTranscriptionRef (refs s) ++ userText m)%string in
  let pc := (currentOutputTranscriptionRef (refs s) ++ characterText m)%string in
  let du := if hasUserText m then pu else userTranscript (react s) in
  let dc := if hasCharacterText m then pc else jerryTranscript (react s) in
  currentInputTranscriptionRef (refs s') = (if turnComplete m then "" else pu) /\
  currentOutputTranscriptionRef (refs s') = (if turnComplete m then "" else pc) /\
  userTranscript (react s') = (if turnComplete m then (du ++ " ")%string else du) /\
  jerryTranscript (react s') = (if turnComplete m then (dc ++ " ")%string else dc).
Proof.
  cbv zeta.
  destruct (onmessage_same_text m now s) as (-> & -> & _ & -> & ->).
  unfold seq.
  pose proof (toolCallBlock_refs m s) as Hr.
  destruct (toolCallBlock_react m s) as (_ & _ & Hu & Hj & _).
  set (s1 := toolCallBlock m s) in *.
  unfold turnCompleteBlock, transcriptionBlock, seq,
    userText, characterText, hasUserText, hasCharacterText.
  destruct (outputTranscription m) as [o|], (inputTranscription m) as [i|],
    (turnComplete m); cbn;
    repeat match goal with
           | |- context [truthy ?x] => destruct (truthy x); cbn
           end;
    rewrite ?Hr, ?Hu, ?Hj, ?append_empty_r; repeat split; reflexivity.
Qed.

Lemma userText_none (m : Message) : hasUserText m = false -> userText m = "".
Proof.
  unfold userText, hasUserText.
  destruct (outputTranscription m), (inputTranscription m);
    intros; try discriminate; reflexivity.
Qed.

Lemma characterText_none (m : Message) :
  hasCharacterText m = false -> characterText m = "".
Proof.
  unfold characterText, hasCharacterText.
  destruct (outputTranscription m); intros; try discriminate; reflexivity.
Qed.

Lemma handle_all_app (s : AppState) (a b : list (Message * float)) :
  handle_all s (a ++ b) = handle_all (handle_all s a) b.
Proof. apply fold_left_app. Qed.

Lemma joined_app (a b : list string) :
  joined (a ++ b) = (joined a ++ joined b)%string.
Proof.
  induction a as [|x a IH]; simpl; [reflexivity|].
  now rewrite IH, append_assoc'.
Qed.

Lemma fragments_pending (es : list (Message * float)) (s : AppState) :
  Forall (fun e => turnComplete (fst e) = false) es ->
  let s' := handle_all s es in
  currentInputTranscriptionRef (refs s')
  = (currentInputTranscriptionRef (refs s)
     ++ joined (map (fun e => userText (fst e)) es))%string /\
  currentOutputTranscriptionRef (refs s')
  = (currentOutputTranscriptionRef (refs s)
     ++ joined (map (fun e => characterText (fst e)) es))%string /\
  (userShown s \/ existsb (fun e => hasUserText (fst e)) es = true ->
   userShown s') /\
  (characterShown s \/ existsb (fun e => hasCharacterText (fst e)) es = true ->
   characterShown s').
Proof.
  intros H. revert s. induction H as [|[m now] es Hm _ IH]; intros s; cbn -[onmessage].
  - rewrite !append_empty_r. repeat split; intros [E|E]; auto; discriminate.
  - cbn in Hm.
    destruct (onmessage_text m now s) as (Hi & Ho & Hu & Hj).
    rewrite Hm in Hi, Ho, Hu, Hj.
    specialize (IH (onmessage m now s)). cbv zeta in IH.
    destruct IH as (IHi & IHo & IHu & IHj).
    fold (handle_all (onmessage m now s) es).
    rewrite IHi, IHo, Hi, Ho, !append_assoc'.
    split; [reflexivity|]. split; [reflexivity|].
    unfold userShown, characterShown in *. split.
    + intros C. apply IHu. rewrite Hu, Hi.
      destruct (hasUserText m) eqn:E; [now left|].
      destruct C as [C|C]; [|now right].
      left. rewrite C.
      now rewrite (userText_none m E), append_empty_r.
    + intros C. apply IHj. rewrite Hj, Ho.
      destruct (hasCharacterText m) eqn:E; [now left|].
      destruct C as [C|C]; [|now right].
      left. rewrite C.
      now rewrite (characterText_none m E), append_empty_r.
Qed.

(** X4.  Within a turn (messages without [turnComplete]) each pending
    buffer grows by the fragments of its channel in arrival order, a user
    fragment counting only in a message without a character fragment;
    and a transcript on display equals its pending buffer once a fragment
    of its channel has arrived (or when it did before the messages). *)
Theorem fragments_accumulate_in_order (es : list (Message * float)) (s : AppState) :
  Forall (fun e => turnComplete (fst e) = false) es ->
  let s' := handle_all s es in
  currentInputTranscriptionRef (refs s')
  = (currentInputTranscriptionRef (refs s)
     ++ joined (map (fun e => userText (fst e)) es))%string /\
  currentOutputTranscriptionRef (refs s')
  = (currentOutputTranscriptionRef (refs s)
     ++ joined (map (fun e => characterText (fst e)) es))%string /\
  (userShown s \/ existsb (fun e => hasUserText (fst e)) es = true ->
   userTranscript (react s') = currentInputTranscriptionRef (refs s')) /\
  (characterShown s \/ existsb (fun e => hasCharacterText (fst e)) es = true ->
   jerryTranscript (react s') = currentOutputTranscriptionRef (refs s')).
Proof. exact (fragments_pending es s). Qed.

Lemma fragments_accumulate_in_order_witness :
  exists s s',
    run (initialState (Some "key")) openingTrace = Some s /\
    s' = handle_all s [(userFragment "Hel", 0%float); (characterFragment "Hi", 0%float);
                       (userFragment "lo", 0%float)] /\
    userTranscript (react s') = "Hello" /\
    jerryTranscript (react s') = "Hi".
Proof.
  eexists. eexists. split; [vm_compute; reflexivity|].
  split; [reflexivity|].
  match goal with
  | |- userTranscript (react (handle_all ?s ?es)) = _ /\ _ =>
      pose proof (fragments_accumulate_in_order es s) as H
  end.
  cbv zeta in H.
  destruct H as (Hi & Ho & Hu & Hj);
    [repeat constructor|].
  split.
  - etransitivity; [exact (Hu (or_intror eq_refl)) | vm_compute; reflexivity].
  - etransitivity; [exact (Hj (or_intror eq_refl)) | vm_compute; reflexivity].
Defined.

(** X5.  At the end of a turn (messages without [turnComplete], then one
    with it) both pending buffers are empty and each transcript on display
    is the text of the turn on its channel followed by one space: what
    the buffer held before the turn and the turn's fragments in order,
    and nothing of what was on display before, as soon as the turn had a
    fragment of the channel. *)
Theorem turn_display_is_turn_text
    (es : list (Message * float)) (m : Message) (now : float) (s : AppState) :
  Forall (fun e => turnComplete (fst e) = false) es ->
  turnComplete m = true ->
  let turn := es ++ [(m, now)] in
  let s' := handle_all s turn in
  currentInputTranscriptionRef (refs s') = "" /\
  currentOutputTranscriptionRef (refs s') = "" /\
  (userShown s \/ existsb (fun e => hasUserText (fst e)) turn = true ->
   userTranscript (react s')
   = ((currentInputTranscriptionRef (refs s)
       ++ joined (map (fun e => userText (fst e)) turn)) ++ " ")%string) /\
  (characterShown s \/ existsb (fun e => hasCharacterText (fst e)) turn = true ->
   jerryTranscript (react s')
   = ((currentOutputTranscriptionRef (refs s)
       ++ joined (map (fun e => characterText (fst e)) turn)) ++ " ")%string).
Proof.
  intros Hes Hm turn s'. subst turn s'.
  rewrite handle_all_app. cbn -[onmessage].
  destruct (fragments_pending es s Hes) as (Hi & Ho & Hu & Hj).
  set (s1 := handle_all s es) in *.
  destruct (onmessage_text m now s1) as (Ei & Eo & Eu & Ej).
  rewrite Hm in Ei, Eo, Eu, Ej.
  rewrite !map_app, !joined_app, !existsb_app. cbn [map joined fold_right existsb fst].
  rewrite !append_empty_r, !orb_false_r, <- !append_assoc', <- Hi, <- Ho.
  split; [exact Ei|]. split; [exact Eo|].
  unfold userShown, characterShown in *. split.
  - intros C. rewrite Eu. f_equal.
    destruct (hasUserText m) eqn:E; [reflexivity|].
    rewrite Hu.
    + now rewrite (userText_none m E), append_empty_r.
    + destruct C as [C|C]; [now left|right].
      apply orb_true_iff in C as [C|C]; [exact C|discriminate].
  - intros C. rewrite Ej. f_equal.
    destruct (hasCharacterText m) eqn:E; [reflexivity|].
    rewrite Hj.
    + now rewrite (characterText_none m E), append_empty_r.
    + destruct C as [C|C]; [now left|right].
      apply orb_true_iff in C as [C|C]; [exact C|discriminate].
Qed.

Lemma turn_display_is_turn_text_witness :
  exists s s' s'',
    run (initialState (Some "key")) openingTrace = Some s /\
    s' = handle_all s [(userFragment "One", 0%float); (turnCompleteEvent, 0%float)] /\
    s'' = handle_all s' [(userFragment "Two", 0%float); (turnCompleteEvent, 0%float)] /\
    userTranscript (react s') = "One " /\
    userTranscript (react s'') = "Two ".
Proof.
  eexists. eexists. eexists. split; [vm_compute; reflexivity|].
  split; [reflexivity|]. split; [reflexivity|].
  match goal with
  | |- userTranscript (react (handle_all ?s _)) = _ /\ _ =>
      pose proof (turn_display_is_turn_text [(userFragment "One", 0%float)]
                    turnCompleteEvent 0%float s) as H;
      pose proof (turn_display_is_turn_text [(userFragment "Two", 0%float)]
                    turnCompleteEvent 0%float
                    (handle_all s [(userFragment "One", 0%float);
                                   (turnCompleteEvent, 0%float)])) as H'
  end.
  cbv zeta in H, H'.
  destruct H as (_ & _ & Hu & _); [repeat constructor | reflexivity |].
  destruct H' as (_ & _ & Hu' & _); [repeat constructor | reflexivity |].
  split.
  - etransitivity; [exact (Hu (or_intror eq_refl)) | vm_compute; reflexivity].
  - etransitivity; [exact (Hu' (or_intror eq_refl)) | vm_compute; reflexivity].
Defined.

(** ** The playback clock *)

Ltac clock_simpl :=
  repeat (rewrite ?stopAudioProcessing_spec; cbn;
          try match goal with
              | |- context [if ?b then _ else _] => destruct b eqn:?
              | |- context [match ?x with _ => _ end] => destruct x eqn:?
              end);
  try reflexivity.

Lemma toggle_catch_clock (msg : option string) (s : AppState) :
  nextStartTimeRef (refs (toggle_catch msg s)) = nextStartTimeRef (refs s).
Proof. unfold toggle_catch, seq. clock_simpl. Qed.

Lemma handleToggleConversation_clock (b : bool) (c : Closure) (s : AppState) :
  nextStartTimeRef (refs (handleToggleConversation b c s))
  = nextStartTimeRef (refs s).
Proof.
  unfold handleToggleConversation, toggle_stop, toggle_start, toggle_catch, suspend, seq.
  clock_simpl.
Qed.

Lemma greeting_catch_clock (c : Closure) (s : AppState) :
  nextStartTimeRef (refs (greeting_catch c s)) = nextStartTimeRef (refs s).
Proof.
  unfold greeting_catch, seq. now rewrite handleToggleConversation_clock.
Qed.

Lemma greeting_answered_clock (c : Closure) (r : GreetingResult) (s : AppState) :
  nextStartTimeRef (refs (greeting_answered c r s)) = nextStartTimeRef (refs s).
Proof.
  unfold greeting_answered.
  destruct r as [|[a|]]; rewrite ?greeting_catch_clock, ?handleToggleConversation_clock;
    try reflexivity.
  destruct (negb (truthy (data a))); [apply handleToggleConversation_clock|].
  destruct (outputAudioContextRef (refs s)), (decoded a);
    try apply greeting_catch_clock.
  reflexivity.
Qed.

Lemma handleStartGame_clock (name age : string) (mode : GameMode.t) (s : AppState) :
  nextStartTimeRef (refs (handleStartGame name age mode s))
  = nextStartTimeRef (refs s).
Proof.
  unfold handleStartGame, seq.
  destruct (_ || _); [reflexivity|].
  unfold playGreeting.
  match goal with |- context [if ?b then _ else _] => destruct b end.
  - now rewrite greeting_catch_clock.
  - reflexivity.
Qed.

Lemma handleExitGame_clock (s : AppState) :
  nextStartTimeRef (refs (handleExitGame s)) = nextStartTimeRef (refs s).
Proof. unfold handleExitGame, seq. clock_simpl. Qed.

Lemma onopen_clock (s : AppState) :
  nextStartTimeRef (refs (onopen s)) = nextStartTimeRef (refs s).
Proof. unfold onopen, seq. clock_simpl. Qed.

Lemma onended_clock (source : nat) (s : AppState) :
  nextStartTimeRef (refs (onended source s)) = nextStartTimeRef (refs s).
Proof. unfold onended, seq. clock_simpl. Qed.

Lemma onerror_clock (s : AppState) :
  nextStartTimeRef (refs (onerror s)) = nextStartTimeRef (refs s).
Proof. unfold onerror, seq. clock_simpl. Qed.

Lemma onclose_clock (s : AppState) :
  nextStartTimeRef (refs (onclose s)) = nextStartTimeRef (refs s).
Proof. unfold onclose, seq. clock_simpl. Qed.

Lemma reactionEffect_clock (s : AppState) :
  nextStartTimeRef (refs (reactionEffect s)) = nextStartTimeRef (refs s).
Proof. unfold reactionEffect, seq. clock_simpl. Qed.

Lemma ltb_not_nan (x y : float) :
  (x <? y)%float = true ->
  PrimFloat.is_nan x = false /\ PrimFloat.is_nan y = false.
Proof. intros H. apply leb_not_nan. now apply ltb_leb. Qed.

Lemma ltb_irrefl (x : float) : (x <? x)%float = false.
Proof.
  destruct (x <? x)%float eqn:E; [|reflexivity].
  pose proof (ltb_leb _ _ E) as L.
  now rewrite (leb_not_ltb _ _ L) in E.
Qed.

(** A step of the schedule does not move [nextStart] back, whatever it
    is; from a time, it leaves a time that is no earlier. *)
Lemma scheduleStep_later (h : bool) (ns : float) (e : Message * float) :
  wellTimed (fst e) (snd e) = true ->
  (snd (scheduleStep h ns e) <? ns)%float = false /\
  (is_time ns = true ->
   (ns <=? snd (scheduleStep h ns e))%float = true /\
   is_time (snd (scheduleStep h ns e)) = true).
Proof.
  intros Hw. unfold wellTimed in Hw. apply andb_true_iff in Hw.
  destruct Hw as [Hnow Hbuf].
  assert (Hsame : (ns <? ns)%float = false /\
                  (is_time ns = true ->
                   (ns <=? ns)%float = true /\ is_time ns = true)).
  { split; [apply ltb_irrefl|]. intros H. split; [now apply time_leb_refl | exact H]. }
  unfold scheduleStep.
  destruct (modelTurn (fst e)) as [a|]; [|exact Hsame].
  destruct (truthy (data a) && h); [|exact Hsame].
  assert (Hmax : is_time ns = true ->
                 (ns <=? Math_max ns (snd e))%float = true /\
                 is_time (Math_max ns (snd e)) = true).
  { intros H. split; [now apply time_max_above | now apply is_time_max]. }
  destruct (decoded a) as [buf|]; cbn [snd].
  - assert (Hsum : PrimFloat.is_nan ns = false ->
                   (ns <=? Math_max ns (snd e) + duration buf)%float = true /\
                   is_time (Math_max ns (snd e) + duration buf) = true).
    { intros Hn.
      pose proof (is_time_not_nan _ Hnow) as Hn'.
      destruct (Math_max_above ns (snd e) Hn Hn') as [L1 L2].
      assert (Hx : is_time (Math_max ns (snd e)) = true).
      { unfold is_time in *. now apply leb_trans with (snd e). }
      split; [|now apply is_time_add].
      apply leb_trans with (Math_max ns (snd e)); [exact L1|].
      now apply add_nonneg_above. }
    split.
    + destruct (Math_max ns (snd e) + duration buf <? ns)%float eqn:E;
        [|reflexivity].
      destruct (ltb_not_nan _ _ E) as [_ Hn].
      destruct (Hsum Hn) as [L _].
      now rewrite (leb_not_ltb _ _ L) in E.
    + intros H. apply Hsum. now apply is_time_not_nan.
  - split; [apply Math_max_not_below | exact Hmax].
Qed.

(** What a step does to the clock. *)
Lemma step_clock (s s' : AppState) (l : Label) :
  step s l = Some s' ->
  match l with
  | SessionMessage _ m now =>
      wellTimed m now = true /\
      nextStartTimeRef (refs s') = nextStartTimeRef (refs (onmessage m now s))
  | _ => nextStartTimeRef (refs s') = nextStartTimeRef (refs s)
  end.
Proof.
  intros H. pose proof (step_timed _ _ _ H) as Ht.
  destruct l; invert_step H; rewrite checkpoint_refs.
  - apply handleStartGame_clock.
  - apply handleExitGame_clock.
  - apply handleToggleConversation_clock.
  - rewrite greeting_answered_clock. reflexivity.
  - rewrite handleToggleConversation_clock. reflexivity.
  - reflexivity.
  - rewrite toggle_catch_clock. reflexivity.
  - rewrite resolving_refs, onopen_clock. reflexivity.
  - split; [exact Ht | reflexivity].
  - apply onerror_clock.
  - rewrite onclose_clock. reflexivity.
  - rewrite onended_clock. reflexivity.
  - apply reactionEffect_clock.
Qed.

(** A message leaves a time on the clock, interrupted or not. *)
Lemma onmessage_clock_is_time (m : Message) (now : float) (s : AppState) :
  wellTimed m now = true ->
  is_time (nextStartTimeRef (refs s)) = true ->
  is_time (nextStartTimeRef (refs (onmessage m now s))) = true.
Proof.
  intros Hw Hns. unfold onmessage.
  destruct (before_audio m s) as (_ & _ & _ & _ & Hn & _).
  set (s3 := (toolCallBlock m ;; transcriptionBlock m ;; turnCompleteBlock m) s) in *.
  destruct (audioBlock_schedule m now s3) as (_ & Hn' & _).
  rewrite Hn in Hn'.
  destruct (scheduleStep_later (held s3) (nextStartTimeRef (refs s)) (m, now) Hw)
    as (_ & Hlater).
  destruct (Hlater Hns) as (_ & Htime). rewrite <- Hn' in Htime.
  destruct (audioBlock m now s3) as [s4|s4]; cbn in Htime; [|exact Htime].
  unfold interruptedBlock. destruct (interrupted m); [reflexivity | exact Htime].
Qed.

Lemma step_clock_is_time (s s' : AppState) (l : Label) :
  step s l = Some s' ->
  is_time (nextStartTimeRef (refs s)) = true ->
  is_time (nextStartTimeRef (refs s')) = true.
Proof.
  intros H Hns. pose proof (step_clock s s' l H) as Hc.
  destruct l; try (now rewrite Hc).
  destruct Hc as (Hw & ->). now apply onmessage_clock_is_time.
Qed.

(** In every reachable state [nextStartTimeRef] holds a time. *)
Lemma reachable_clock_is_time (s : AppState) :
  reachable s -> is_time (nextStartTimeRef (refs s)) = true.
Proof.
  intros (key & ls & H).
  assert (G : forall ls s0 s1, is_time (nextStartTimeRef (refs s0)) = true ->
                               run s0 ls = Some s1 ->
                               is_time (nextStartTimeRef (refs s1)) = true).
  { clear. induction ls as [|l ls IH]; intros s0 s1 H0 Hrun; simpl in Hrun.
    - now injection Hrun as <-.
    - destruct (step s0 l) as [s2|] eqn:E; [|discriminate].
      apply (IH s2 s1); [|exact Hrun]. now apply (step_clock_is_time s0 s2 l). }
  apply (G ls (initialState key) s); [reflexivity | exact H].
Qed.

(** X6.  [nextStartTimeRef] is moved by session messages only: a click
    (start, stop, restart, exit), the outcome of the greeting or of the
    microphone request, the opening, failure or closing of a session, the
    end of a source and the sound effect hook all leave it, so that a
    session started after a stop schedules from the clock the previous
    one left.  A message without the interrupted flag never moves it
    back: the clock it leaves is not below the one it found and, the one
    it found being a time (as it is in every reachable state), is at or
    above it in the order of doubles. *)
Theorem clock_moved_by_messages_only (s s' : AppState) (l : Label) :
  step s l = Some s' ->
  match l with
  | SessionMessage _ m _ =>
      interrupted m = false ->
      (nextStartTimeRef (refs s') <? nextStartTimeRef (refs s))%float = false /\
      (is_time (nextStartTimeRef (refs s)) = true ->
       (nextStartTimeRef (refs s) <=? nextStartTimeRef (refs s'))%float = true) /\
      (reachable s ->
       (nextStartTimeRef (refs s) <=? nextStartTimeRef (refs s'))%float = true)
  | _ => nextStartTimeRef (refs s') = nextStartTimeRef (refs s)
  end.
Proof.
  intros H. pose proof (step_clock s s' l H) as Hc.
  destruct l; try exact Hc.
  destruct Hc as (Hw & ->). intros Hi.
  destruct (onmessage_scheduleStep m now s Hi) as (_ & -> & _).
  destruct (scheduleStep_later (held s) (nextStartTimeRef (refs s)) (m, now) Hw)
    as (Hback & Hlater).
  split; [exact Hback|]. split.
  - intros Hns. now apply Hlater.
  - intros Hr. apply Hlater. now apply reachable_clock_is_time.
Qed.

Lemma clock_moved_by_messages_only_witness :
  exists s s',
    run (initialState (Some "key"))
        (openingTrace
         ++ [SessionMessage 3 (audioDelta "AAAA" oneSecond) 0.5]) = Some s /\
    step s ClickToggle = Some s' /\
    nextStartTimeRef (refs s) = 1.5%float /\
    gameState (react s') = GameState.IDLE /\
    nextStartTimeRef (refs s') = nextStartTimeRef (refs s).
Proof.
  eexists. eexists. split; [vm_compute; reflexivity|].
  split; [vm_compute; reflexivity|].
  split; [reflexivity|]. split; [reflexivity|].
  match goal with
  | |- nextStartTimeRef (refs ?s') = nextStartTimeRef (refs ?s) =>
      assert (E : step s ClickToggle = Some s') by (vm_compute; reflexivity);
      exact (clock_moved_by_messages_only s s' ClickToggle E)
  end.
Defined.

(** ** After an interruption *)

Lemma interrupted_resets_clock (m : Message) (now : float) (s : AppState) :
  interrupted m = true ->
  leaves_in_audio m s = false ->
  nextStartTimeRef (refs (onmessage m now s)) = 0%float /\
  held (onmessage m now s) = held s /\
  audioSourcesRef (refs (onmessage m now s)) = [].
Proof.
  intros Hi Hl. unfold onmessage.
  destruct (before_audio m s) as (_ & _ & _ & Hc & _ & _).
  set (s3 := (toolCallBlock m ;; transcriptionBlock m ;; turnCompleteBlock m) s) in *.
  assert (Hl3 : leaves_in_audio m s3 = false).
  { unfold leaves_in_audio, held in *. now rewrite Hc. }
  destruct (audioBlock_completes m now s3 Hl3) as (s4 & es4 & E4 & _ & _).
  destruct (audioBlock_schedule m now s3) as (_ & _ & Hc4).
  rewrite E4 in *. cbn in Hc4.
  unfold interruptedBlock, stopSources, seq, held. rewrite Hi. cbn.
  rewrite Hc4, Hc. repeat split; reflexivity.
Qed.

(** X7.  The unit that follows an interruption starts at the device time
    of its arrival, not behind the units that were flushed: with
    [nextStart] back at zero, the start time
    [Math.max(nextStart, currentTime)] is the device time (device times
    are not negative; the two are equal as doubles), and [nextStart]
    becomes the double sum of that time and the unit's duration. *)
Theorem unit_after_interruption_starts_at_device_time
    (s : AppState) (mi m : Message) (t now : float) (a : InlineData)
    (buf : AudioBuffer) :
  interrupted mi = true ->
  leaves_in_audio mi s = false ->
  held s = true ->
  interrupted m = false ->
  modelTurn m = Some a ->
  truthy (data a) = true ->
  decoded a = Some buf ->
  is_time now = true ->
  let s1 := onmessage mi t s in
  let s2 := onmessage m now s1 in
  exists startTime,
    scheduled (trace (world s2))
    = scheduled (trace (world s1)) ++ [(startTime, duration buf)] /\
    startTime = Math_max 0 now /\
    (startTime =? now)%float = true /\
    nextStartTimeRef (refs s2) = (startTime + duration buf)%float.
Proof.
  intros Hi Hl Hh Hni Hm Hd Hb Hnow s1 s2. subst s1 s2.
  destruct (interrupted_resets_clock mi t s Hi Hl) as (Hn & Hh1 & _).
  destruct (onmessage_scheduleStep m now (onmessage mi t s) Hni) as (Hs & Hn2 & _).
  rewrite Hh1, Hh, Hn in Hs, Hn2.
  unfold scheduleStep in Hs, Hn2. cbn [fst snd] in Hs, Hn2.
  rewrite Hm, Hd, Hb in Hs, Hn2. cbn [andb fst snd] in Hs, Hn2.
  exists (Math_max 0 now). split; [exact Hs|]. split; [reflexivity|].
  split; [|exact Hn2].
  now apply Math_max_zero.
Qed.

Lemma unit_after_interruption_starts_at_device_time_witness :
  exists s s1 s2,
    run (initialState (Some "key"))
        (openingTrace
         ++ [SessionMessage 3 (audioDelta "AAAA" oneSecond) 0.5;
             SessionMessage 3 (audioDelta "BBBB" oneSecond) 1]) = Some s /\
    nextStartTimeRef (refs s) = 2.5%float /\
    s1 = onmessage interruptedEvent 1.125 s /\
    s2 = onmessage (audioDelta "CCCC" oneSecond) 1.25 s1 /\
    exists startTime,
      scheduled (trace (world s2))
      = scheduled (trace (world s1)) ++ [(startTime, duration oneSecond)] /\
      startTime = 1.25%float.
Proof.
  eexists. eexists. eexists. split; [vm_compute; reflexivity|].
  split; [reflexivity|]. split; [reflexivity|]. split; [reflexivity|].
  match goal with
  | |- exists _, scheduled (trace (world (onmessage ?m ?now (onmessage ?mi ?t ?s)))) = _ /\ _ =>
      pose proof (unit_after_interruption_starts_at_device_time
                    s mi m t now _ oneSecond
                    eq_refl eq_refl eq_refl eq_refl eq_refl eq_refl eq_refl
                    eq_refl) as H
  end.
  cbv zeta in H. destruct H as (st & H1 & H2 & _).
  exists st. split; [exact H1|]. rewrite H2. reflexivity.
Defined.

Lemma onended_last (source : nat) (s : AppState) :
  set_delete source (audioSourcesRef (refs s)) = [] ->
  gameState (react (onended source s)) = GameState.LISTENING /\
  jerryReaction (react (onended source s)) = JerryReaction.IDLE /\
  audioSourcesRef (refs (onended source s)) = [].
Proof.
  intros H. unfold onended, seq. cbn. rewrite H. cbn. repeat split.
Qed.

Lemma onended_sources (source : nat) (s : AppState) :
  audioSourcesRef (refs (onended source s))
  = set_delete source (audioSourcesRef (refs s)).
Proof.
  unfold onended, seq. cbn.
  destruct (set_delete source (audioSourcesRef (refs s))); reflexivity.
Qed.



(** ** The end of playback *)

Lemma run_app (a b : list Label) (s : AppState) :
  run s (a ++ b) = match run s a with
                   | Some s1 => run s1 b
                   | None => None
                   end.
Proof.
  revert s. induction a as [|l a IH]; intros s; simpl; [reflexivity|].
  destruct (step s l); [apply IH | reflexivity].
Qed.

Lemma In_set_delete (x y : nat) (l : list nat) :
  In y (set_delete x l) <-> In y l /\ y <> x.
Proof.
  unfold set_delete. rewrite filter_In.
  split; intros [H1 H2]; split; auto.
  - intros ->. now rewrite Nat.eqb_refl in H2.
  - apply Nat.eqb_neq in H2. now rewrite H2.
Qed.

Lemma step_SourceEnded_sources (s s' : AppState) (x : nat) :
  step s (SourceEnded x) = Some s' ->
  audioSourcesRef (refs s') = set_delete x (audioSourcesRef (refs s)).
Proof.
  intros H. invert_step H. rewrite checkpoint_refs, onended_sources. reflexivity.
Qed.

Lemma run_ended_sources (l : list nat) (s s' : AppState) :
  run s (map SourceEnded l) = Some s' ->
  forall y, In y (audioSourcesRef (refs s')) ->
            In y (audioSourcesRef (refs s)) /\ ~ In y l.
Proof.
  revert s. induction l as [|x l IH]; intros s H y Hy; cbn [map run] in H.
  - injection H as <-. auto.
  - destruct (step s (SourceEnded x)) as [s1|] eqn:E; [|discriminate].
    destruct (IH s1 H y Hy) as (H1 & H2).
    rewrite (step_SourceEnded_sources _ _ _ E) in H1.
    apply In_set_delete in H1 as (H1 & H3).
    split; [exact H1|]. intros C. simpl in C.
    destruct C as [C|C]; [now apply H3 | now apply H2].
Qed.

(** X9.  Playback ends in listening: once the ['ended'] listener has run
    for every source of the active set, in whatever order the sources
    end, and with sources that are no more in the set ending in between,
    the active set is empty, the game state is [LISTENING] and the
    reaction is idle. *)
Theorem playback_drains_to_listening (s s' : AppState) (ended : list nat) :
  ended <> [] ->
  (forall x, In x (audioSourcesRef (refs s)) -> In x ended) ->
  run s (map SourceEnded ended) = Some s' ->
  audioSourcesRef (refs s') = [] /\
  gameState (react s') = GameState.LISTENING /\
  jerryReaction (react s') = JerryReaction.IDLE.
Proof.
  intros Hne Hall Hrun.
  destruct (exists_last Hne) as (l & x & ->).
  rewrite map_app, run_app in Hrun.
  destruct (run s (map SourceEnded l)) as [s1|] eqn:E1; [|discriminate].
  cbn [map run] in Hrun.
  destruct (step s1 (SourceEnded x)) as [s2|] eqn:E2; [|discriminate].
  injection Hrun as <-.
  assert (Hd : set_delete x (audioSourcesRef (refs s1)) = []).
  { destruct (set_delete x (audioSourcesRef (refs s1))) as [|y r] eqn:Ed;
      [reflexivity|exfalso].
    assert (Hy : In y (set_delete x (audioSourcesRef (refs s1))))
      by (rewrite Ed; now left).
    apply In_set_delete in Hy as (Hy & Hyx).
    destruct (run_ended_sources l s s1 E1 y Hy) as (H1 & H2).
    apply Hall in H1. apply in_app_or in H1 as [H1|[H1|[]]]; auto. }
  invert_step E2. rewrite checkpoint_refs, checkpoint_react.
  destruct (onended_last x
              (set_playing (set_delete x (playing (world s1))) s1)) as (A & B & C).
  - exact Hd.
  - repeat split; assumption.
Qed.

Lemma playback_drains_to_listening_witness :
  exists s s',
    run (initialState (Some "key"))
        (openingTrace
         ++ [SessionMessage 3 (audioDelta "AAAA" oneSecond) 0.5;
             SessionMessage 3 (audioDelta "BBBB" oneSecond) 1]) = Some s /\
    audioSourcesRef (refs s) = [6; 7] /\
    gameState (react s) = GameState.TALKING /\
    run s (map SourceEnded [7; 6]) = Some s' /\
    audioSourcesRef (refs s') = [] /\
    gameState (react s') = GameState.LISTENING /\
    jerryReaction (react s') = JerryReaction.IDLE.
Proof.
  eexists. eexists. split; [vm_compute; reflexivity|].
  match goal with
  | |- audioSourcesRef (refs ?s) = _ /\ _ => set (s0 := s)
  end.
  split; [reflexivity|]. split; [reflexivity|].
  split; [vm_compute; reflexivity|].
  apply (playback_drains_to_listening s0 _ [7; 6]).
  - discriminate.
  - intros x Hx. vm_compute in Hx.
    destruct Hx as [<-|[<-|[]]]; simpl; auto.
  - vm_compute. reflexivity.
Defined.

(** ** Steps that are enabled *)

(** A handler that leaves nothing queued, from a state with nothing
    queued, is the whole step. *)
Lemma step_ClickStartGame (s : AppState) (name age : string) (mode : GameMode.t) :
  gameState (react s) = GameState.PRE_GAME ->
  step s (ClickStartGame name age mode)
  = Some (checkpoint (handleStartGame name age mode s)).
Proof. intros H. unfold step, handler. rewrite H. reflexivity. Qed.

Lemma step_ClickExit (s : AppState) :
  gameState (react s) <> GameState.PRE_GAME ->
  step s ClickExit = Some (checkpoint (handleExitGame s)).
Proof. intros H. unfold step, handler. now rewrite (GameState_eqb_neq _ _ H). Qed.

Lemma step_GreetingSettled (s : AppState) (task : nat) (c : Closure)
    (r : GreetingResult) :
  lookup_key task (pending (world s)) = Some (AwaitGenerateContent c) ->
  step s (GreetingSettled task r)
  = Some (checkpoint (greeting_answered c r (take_pending task s))).
Proof. intros H. unfold step, handler. rewrite H. reflexivity. Qed.

Lemma step_MediaGranted (s : AppState) (task : nat) (c : Closure) :
  lookup_key task (pending (world s)) = Some (AwaitUserMedia c) ->
  step s (MediaGranted task)
  = Some (checkpoint (toggle_granted c (take_pending task s))).
Proof. intros H. unfold step, handler. rewrite H. reflexivity. Qed.

Lemma step_MediaDenied (s : AppState) (task : nat) (c : Closure)
    (msg : option string) :
  lookup_key task (pending (world s)) = Some (AwaitUserMedia c) ->
  step s (MediaDenied task msg)
  = Some (checkpoint (toggle_catch msg (take_pending task s))).
Proof. intros H. unfold step, handler. rewrite H. reflexivity. Qed.

Lemma step_SessionOpened (s : AppState) (sid : nat) (resolves : bool) :
  connecting sid (world s) = true ->
  step s (SessionOpened sid resolves)
  = Some (checkpoint ((if resolves then resolve sid else skip)
                        (onopen (mark_open sid s)))).
Proof. intros H. unfold step, handler. rewrite H. reflexivity. Qed.

(** ** The identity a session is configured with *)

Lemma ids_ok_pending (s : AppState) :
  reachable s -> keys_below (fresh (world s)) (pending (world s)).
Proof. intros H. apply (reachable_ids_ok s H). Qed.

Lemma keyPresent_frame (s s' : AppState) :
  API_KEY (world s') = API_KEY (world s) -> keyPresent s' = keyPresent s.
Proof. intros H. unfold keyPresent. now rewrite H. Qed.

Lemma toggle_start_with_key (c : Closure) (s : AppState) :
  keyPresent s = true ->
  toggle_start c s
  = (emit (ContextCreate InputContext) ;;
     set_inputAudioContextRef (Some (newAudioContext (Some 16000%positive))) ;;
     (fun s =>
        if open_context (outputAudioContextRef (refs s)) then s
        else (emit (ContextCreate OutputContext) ;;
              set_outputAudioContextRef
                (Some (newAudioContext (Some 24000%positive)))) s) ;;
     emit GetUserMedia ;;
     suspend (AwaitUserMedia c))
      (setGameState GameState.CONNECTING (setError None s)).
Proof.
  intros Hk.
  assert (Hk' : keyPresent (setGameState GameState.CONNECTING (setError None s))
                = true) by exact Hk.
  unfold toggle_start, seq at 1 2. rewrite Hk'. reflexivity.
Qed.

Lemma playGreeting_with_key (name : string) (c : Closure) (s : AppState) :
  keyPresent s = true ->
  playGreeting name c s
  = (emit (ContextCreate OutputContext) ;;
     set_outputAudioContextRef (Some (newAudioContext (Some 24000%positive))) ;;
     setJerryReaction JerryReaction.MIMICKING ;;
     setGameState GameState.GREETING ;;
     emit (GenerateContent name) ;;
     suspend (AwaitGenerateContent c)) s.
Proof. intros Hk. unfold playGreeting. rewrite Hk. reflexivity. Qed.

Lemma handleStartGame_accepted
    (name age : string) (mode : GameMode.t) (s : AppState) :
  truthy (trim name) = true ->
  truthy age = true ->
  keyPresent s = true ->
  let s' := handleStartGame name age mode s in
  userName (react s') = name /\
  userAge (react s') = age /\
  gameMode (react s') = mode /\
  gameState (react s') = GameState.GREETING /\
  open_context (outputAudioContextRef (refs s')) = true /\
  API_KEY (world s') = API_KEY (world s) /\
  pending (world s')
  = pending (world s)
    ++ [(fresh (world s), AwaitGenerateContent (closure_of s))] /\
  fresh (world s') = S (fresh (world s)) /\
  sessions (world s') = sessions (world s) /\
  trace (world s')
  = trace (world s) ++ [ContextCreate OutputContext; GenerateContent name].
Proof.
  intros Hn Ha Hk. cbv zeta.
  assert (E : handleStartGame name age mode s
              = playGreeting name (closure_of s)
                  (setError None (setGameMode mode (setUserAge age
                     (setUserName name s))))).
  { unfold handleStartGame. rewrite Hn, Ha. reflexivity. }
  rewrite E, playGreeting_with_key by exact Hk.
  unfold seq, suspend, emit, bump. cbn.
  rewrite <- app_assoc.
  split; [reflexivity|]. split; [reflexivity|]. split; [reflexivity|].
  split; [reflexivity|]. split; [reflexivity|]. split; [reflexivity|].
  split; [reflexivity|]. split; [reflexivity|]. split; reflexivity.
Qed.

Lemma handleStartGame_queue
    (name age : string) (mode : GameMode.t) (s : AppState) :
  truthy (trim name) = true ->
  truthy age = true ->
  keyPresent s = true ->
  microtasks (world (handleStartGame name age mode s)) = microtasks (world s).
Proof.
  intros Hn Ha Hk.
  assert (E : handleStartGame name age mode s
              = playGreeting name (closure_of s)
                  (setError None (setGameMode mode (setUserAge age
                     (setUserName name s))))).
  { unfold handleStartGame. rewrite Hn, Ha. reflexivity. }
  rewrite E, playGreeting_with_key by exact Hk. reflexivity.
Qed.

Lemma toggle_start_queue (c : Closure) (s : AppState) :
  keyPresent s = true ->
  microtasks (world (toggle_start c s)) = microtasks (world s).
Proof.
  intros Hk. rewrite toggle_start_with_key by exact Hk.
  unfold seq, suspend, emit, bump. cbn.
  destruct (open_context (outputAudioContextRef (refs s))); reflexivity.
Qed.

(** Every step ends with the checkpoint: between two steps nothing is
    queued. *)
Lemma step_microtasks (s s' : AppState) (l : Label) :
  step s l = Some s' -> microtasks (world s') = [].
Proof.
  intros H. apply step_handler in H as (h & _ & ->). apply checkpoint_microtasks.
Qed.

Lemma run_microtasks (ls : list Label) (s s' : AppState) :
  microtasks (world s) = [] -> run s ls = Some s' -> microtasks (world s') = [].
Proof.
  revert s. induction ls as [|l ls IH]; intros s H Hrun; cbn [run] in Hrun.
  - now injection Hrun as <-.
  - destruct (step s l) as [s1|] eqn:E; [|discriminate].
    apply (IH s1); [|exact Hrun]. now apply (step_microtasks s s1 l).
Qed.

Lemma reachable_microtasks (s : AppState) :
  reachable s -> microtasks (world s) = [].
Proof.
  intros (key & ls & H). apply (run_microtasks ls (initialState key) s); auto.
Qed.

Lemma toggle_start_requests_microphone (c : Closure) (s : AppState) :
  keyPresent s = true ->
  open_context (outputAudioContextRef (refs s)) = true ->
  let s' := toggle_start c s in
  userName (react s') = userName (react s) /\
  userAge (react s') = userAge (react s) /\
  gameMode (react s') = gameMode (react s) /\
  gameState (react s') = GameState.CONNECTING /\
  error (react s') = None /\
  pending (world s') = pending (world s) ++ [(fresh (world s), AwaitUserMedia c)] /\
  fresh (world s') = S (fresh (world s)) /\
  sessions (world s') = sessions (world s) /\
  trace (world s') = trace (world s) ++ [ContextCreate InputContext; GetUserMedia].
Proof.
  intros Hk Ho. cbv zeta. rewrite toggle_start_with_key by exact Hk.
  unfold seq, suspend, emit, bump. cbn. rewrite Ho. cbn.
  rewrite <- app_assoc.
  split; [reflexivity|]. split; [reflexivity|]. split; [reflexivity|].
  split; [reflexivity|]. split; [reflexivity|]. split; [reflexivity|].
  split; [reflexivity|]. split; reflexivity.
Qed.

Lemma greeting_answered_without_audio (c : Closure) (s : AppState) :
  greeting_answered c (GreetingAnswer None) s = toggle_start c s.
Proof. reflexivity. Qed.

Lemma toggle_granted_trace (c : Closure) (s : AppState) :
  react (toggle_granted c s) = react s /\
  trace (world (toggle_granted c s))
  = trace (world s) ++ [LiveConnect (S (fresh (world s))) c].
Proof. split; reflexivity. Qed.

(** X10.  A start configures its session with the identity of the render
    the click belongs to, not with the one entered: the name, age and mode
    passed to [handleStartGame] are recorded in the React state, and the
    greeting is requested for the new name, but the [handleToggleConversation]
    that the greeting calls closes over [gameMode], [userName] and
    [userAge] as they were before these updates, and from them the system
    instruction of [live.connect] is built.  On a first start these are
    the empty name, the empty age and the AI mode. *)
Theorem start_connects_with_previous_identity
    (s : AppState) (name age : string) (mode : GameMode.t) :
  reachable s ->
  gameState (react s) = GameState.PRE_GAME ->
  keyPresent s = true ->
  truthy (trim name) = true ->
  truthy age = true ->
  let task := fresh (world s) in
  exists s',
    run s [ClickStartGame name age mode;
           GreetingSettled task (GreetingAnswer None);
           MediaGranted (S task)] = Some s' /\
    userName (react s') = name /\
    userAge (react s') = age /\
    gameMode (react s') = mode /\
    trace (world s')
    = trace (world s)
      ++ [ContextCreate OutputContext; GenerateContent name;
          ContextCreate InputContext; GetUserMedia;
          LiveConnect (S (S (S task))) (closure_of s)].
Proof.
  intros Hr Hg Hk Hn Ha task. subst task.
  pose proof (ids_ok_pending s Hr) as Hp.
  pose proof (reachable_microtasks s Hr) as Hq.
  set (c := closure_of s).
  destruct (handleStartGame_accepted name age mode s Hn Ha Hk)
    as (U1 & A1 & M1 & _ & O1 & K1 & P1 & F1 & _ & T1).
  pose proof (handleStartGame_queue name age mode s Hn Ha Hk) as Q1.
  rewrite Hq in Q1.
  fold c in P1.
  cbn [run]. rewrite (step_ClickStartGame s name age mode Hg).
  rewrite checkpoint_empty by exact Q1.
  set (s1 := handleStartGame name age mode s) in *. clearbody s1.
  assert (L1 : lookup_key (fresh (world s)) (pending (world s1))
               = Some (AwaitGenerateContent c))
    by (rewrite P1; apply lookup_key_fresh; exact Hp).
  rewrite (step_GreetingSettled s1 _ _ _ L1), greeting_answered_without_audio.
  assert (Hk1 : keyPresent (take_pending (fresh (world s)) s1) = true)
    by (rewrite <- Hk; apply keyPresent_frame; exact K1).
  destruct (toggle_start_requests_microphone c
              (take_pending (fresh (world s)) s1) Hk1 O1)
    as (U2 & A2 & M2 & _ & _ & P2 & F2 & _ & T2).
  pose proof (toggle_start_queue c (take_pending (fresh (world s)) s1) Hk1) as Q2.
  change (microtasks (world (take_pending (fresh (world s)) s1)))
    with (microtasks (world s1)) in Q2.
  rewrite Q1 in Q2.
  rewrite checkpoint_empty by exact Q2.
  cbn [take_pending set_pending upd_world world react pending fresh trace]
    in U2, A2, M2, P2, F2, T2.
  rewrite P1, remove_key_fresh in P2 by exact Hp.
  rewrite F1 in P2, F2. rewrite T1 in T2. rewrite U1 in U2. rewrite A1 in A2.
  rewrite M1 in M2.
  set (s2 := toggle_start c (take_pending (fresh (world s)) s1)) in *.
  clearbody s2.
  assert (L2 : lookup_key (S (fresh (world s))) (pending (world s2))
               = Some (AwaitUserMedia c)).
  { rewrite P2. apply lookup_key_fresh.
    eapply keys_below_le; [apply Nat.le_succ_diag_r | exact Hp]. }
  rewrite (step_MediaGranted s2 _ _ L2).
  rewrite checkpoint_empty by exact Q2.
  eexists. split; [reflexivity|].
  destruct (toggle_granted_trace c (take_pending (S (fresh (world s))) s2))
    as (-> & ->).
  cbn [take_pending set_pending upd_world world react pending fresh trace].
  rewrite U2, A2, M2, T2, F2, <- !app_assoc.
  split; [reflexivity|]. split; [reflexivity|]. split; reflexivity.
Qed.

Lemma start_connects_with_previous_identity_witness :
  exists s',
    run (initialState (Some "key"))
        [ClickStartGame "Alex" "10-18" GameMode.MIMIC;
         GreetingSettled 0 (GreetingAnswer None);
         MediaGranted 1] = Some s' /\
    userName (react s') = "Alex" /\
    userAge (react s') = "10-18" /\
    gameMode (react s') = GameMode.MIMIC /\
    trace (world s')
    = [ContextCreate OutputContext; GenerateContent "Alex";
       ContextCreate InputContext; GetUserMedia;
       LiveConnect 3 {| cl_gameMode := GameMode.AI; cl_userName := "";
                        cl_userAge := "" |}].
Proof.
  assert (R : reachable (initialState (Some "key")))
    by (exists (Some "key"), []; reflexivity).
  destruct (start_connects_with_previous_identity
              (initialState (Some "key")) "Alex" "10-18" GameMode.MIMIC
              R eq_refl eq_refl eq_refl eq_refl)
    as (s' & H1 & H2 & H3 & H4 & H5).
  exists s'.
  split; [exact H1|]. split; [exact H2|]. split; [exact H3|].
  split; [exact H4 | exact H5].
Defined.

(** ** The promises that are waited on *)

Lemma kept_refl (s : AppState) : kept s s.
Proof. split; [lia | tauto]. Qed.

Lemma kept_trans (a b c : AppState) : kept a b -> kept b c -> kept a c.
Proof. intros [H1 H2] [H3 H4]. split; [lia | tauto]. Qed.

(** A statement that takes identities at most, registers nothing, and
    keeps or drops the promise held. *)
Lemma kept_same (s s' : AppState) :
  fresh (world s) <= fresh (world s') ->
  thens (world s') = thens (world s) ->
  sessionPromiseRef (refs s') = sessionPromiseRef (refs s)
  \/ sessionPromiseRef (refs s') = None ->
  kept s s'.
Proof.
  intros Hf Ht Hr. split; [exact Hf|]. intros [H1 H2]. split.
  - rewrite Ht. now apply keys_below_le with (fresh (world s)).
  - intros sid E. destruct Hr as [Hr|Hr]; rewrite Hr in E; [|discriminate].
    specialize (H2 sid E). lia.
Qed.

Lemma kept_emit (e : Effect) (s : AppState) : kept s (emit e s).
Proof. apply kept_same; cbn; auto. Qed.

Lemma kept_bump (s : AppState) : kept s (bump s).
Proof. apply kept_same; cbn; auto. Qed.

Lemma kept_suspend (p : Pending) (s : AppState) : kept s (suspend p s).
Proof. apply kept_same; cbn; auto. Qed.

Lemma kept_react (f : ReactState -> ReactState) (s : AppState) :
  kept s (upd_react f s).
Proof. apply kept_same; cbn; auto. Qed.

Lemma kept_refs (f : Refs -> Refs) (s : AppState) :
  sessionPromiseRef (f (refs s)) = sessionPromiseRef (refs s)
  \/ sessionPromiseRef (f (refs s)) = None ->
  kept s (upd_refs f s).
Proof. intros H. apply kept_same; cbn; auto. Qed.

Lemma kept_then (sid : nat) (j : Job) (s : AppState) :
  sessionPromiseRef (refs s) = Some sid -> kept s (then_ sid j s).
Proof.
  intros E. split.
  - destruct (then__outside sid j s) as (_ & _ & _ & _ & -> & _). lia.
  - intros [H1 H2].
    destruct (then__outside sid j s) as (_ & _ & _ & _ & Hf & _).
    split.
    + rewrite Hf. unfold then_.
      destruct (is_resolved sid (world s)); cbn; [exact H1|].
      apply Forall_app. split; [exact H1|].
      constructor; [cbn; now apply H2 | constructor].
    + rewrite then__refs, Hf. exact H2.
Qed.

Lemma kept_stop (b : bool) (s : AppState) : kept s (stopAudioProcessing b s).
Proof.
  rewrite stopAudioProcessing_spec. split; [cbn; lia|].
  intros [H1 H2]. split; cbn -[holds_resolved closeJob]; [|discriminate].
  destruct (holds_resolved (refs s) (world s)); [exact H1|].
  apply Forall_app. split; [exact H1|].
  unfold closeJob. destruct (sessionPromiseRef (refs s)) as [sid|] eqn:E;
    [|constructor].
  constructor; [cbn; now apply H2 | constructor].
Qed.

Lemma kept_checkpoint (s : AppState) : kept s (checkpoint s).
Proof.
  destruct (checkpoint_world s) as (_ & _ & Ht & _ & _ & Hf & _).
  apply kept_same; [lia | exact Ht | left; now rewrite checkpoint_refs].
Qed.

Lemma kept_update_session (sid : nat) (f : Session -> Session) (s : AppState) :
  kept s (update_session sid f s).
Proof. apply kept_same; cbn; auto. Qed.

Lemma kept_take_pending (task : nat) (s : AppState) : kept s (take_pending task s).
Proof. apply kept_same; cbn; auto. Qed.

Lemma kept_resolve (sid : nat) (s : AppState) : kept s (resolve sid s).
Proof.
  split; [cbn; lia|]. intros [H1 H2]. split; [|exact H2].
  unfold resolve, seq. cbn -[filter].
  unfold keys_below in *. rewrite Forall_forall in *.
  intros p Hp. apply filter_In in Hp. apply H1. tauto.
Qed.

Lemma kept_resolving (sid : nat) (resolves : bool) (s : AppState) :
  kept s ((if resolves then resolve sid else skip) s).
Proof. destruct resolves; [apply kept_resolve | apply kept_refl]. Qed.

(** Peel the last statement of a sequence. *)
Ltac kept_peel :=
  repeat first
    [ apply kept_refl
    | eapply kept_trans; [| apply kept_suspend]
    | eapply kept_trans; [| apply kept_stop]
    | eapply kept_trans; [| apply kept_emit]
    | eapply kept_trans; [| apply kept_bump]
    | eapply kept_trans; [| apply kept_react]
    | eapply kept_trans; [| apply kept_refs; cbn; auto] ].

Lemma kept_toggle_catch (msg : option string) (s : AppState) :
  kept s (toggle_catch msg s).
Proof. unfold toggle_catch, seq. kept_peel. Qed.

Lemma kept_toggle_stop (s : AppState) : kept s (toggle_stop s).
Proof. unfold toggle_stop, seq. kept_peel. Qed.

Lemma kept_toggle_start (c : Closure) (s : AppState) : kept s (toggle_start c s).
Proof.
  unfold toggle_start, seq at 1 2.
  match goal with |- context [keyPresent ?x] => destruct (keyPresent x) end;
    cbn [negb].
  - unfold seq. cbv beta. kept_peel.
    match goal with |- context [if ?c then _ else _] => destruct c end;
      kept_peel.
  - eapply kept_trans; [| apply kept_toggle_catch]. kept_peel.
Qed.

Lemma kept_handleToggleConversation (b : bool) (c : Closure) (s : AppState) :
  kept s (handleToggleConversation b c s).
Proof.
  unfold handleToggleConversation.
  destruct (_ && _); [apply kept_toggle_stop | apply kept_toggle_start].
Qed.

(** The session started takes its identity from the counter. *)
Lemma kept_toggle_granted (c : Closure) (s : AppState) :
  kept s (toggle_granted c s).
Proof.
  unfold toggle_granted, seq, emit, bump. split; [cbn; lia|].
  intros [H1 H2]. split; cbn.
  - apply keys_below_le with (fresh (world s)); [lia | exact H1].
  - intros sid [= <-]. lia.
Qed.

Lemma kept_greeting_catch (c : Closure) (s : AppState) :
  kept s (greeting_catch c s).
Proof.
  unfold greeting_catch, seq.
  eapply kept_trans; [| apply kept_handleToggleConversation]. kept_peel.
Qed.

Lemma kept_playGreeting (name : string) (c : Closure) (s : AppState) :
  kept s (playGreeting name c s).
Proof.
  unfold playGreeting.
  destruct (keyPresent s); cbn [negb]; [|apply kept_greeting_catch].
  unfold seq. kept_peel.
Qed.

Lemma kept_greeting_answered (c : Closure) (r : GreetingResult) (s : AppState) :
  kept s (greeting_answered c r s).
Proof.
  unfold greeting_answered.
  destruct r as [|[a|]];
    try apply kept_greeting_catch; try apply kept_handleToggleConversation.
  destruct (negb (truthy (data a))); [apply kept_handleToggleConversation|].
  destruct (outputAudioContextRef (refs s)); [|apply kept_greeting_catch].
  destruct (decoded a); [|apply kept_greeting_catch].
  unfold seq. kept_peel.
Qed.

Lemma kept_handleStartGame (name age : string) (mode : GameMode.t) (s : AppState) :
  kept s (handleStartGame name age mode s).
Proof.
  unfold handleStartGame. destruct (_ || _); [kept_peel|].
  unfold seq. eapply kept_trans; [| apply kept_playGreeting]. kept_peel.
Qed.

Lemma kept_handleExitGame (s : AppState) : kept s (handleExitGame s).
Proof.
  unfold handleExitGame, seq.
  eapply kept_trans; [apply kept_stop|].
  unfold setGameState. apply kept_react.
Qed.

Lemma kept_onopen (s : AppState) : kept s (onopen s).
Proof.
  unfold onopen, seq. cbv beta.
  match goal with
  | |- context [match ?a with Some _ => _ | None => _ end] => destruct a
  end; [|kept_peel].
  match goal with
  | |- context [match ?a with Some _ => _ | None => _ end] => destruct a
  end; kept_peel.
Qed.

Lemma kept_handleFunctionCall (s : AppState) (fc : FunctionCall) :
  kept s (handleFunctionCall s fc).
Proof.
  unfold handleFunctionCall, acknowledge, seq.
  destruct (fc_name fc =? reactionTool); [|apply kept_refl].
  assert (K : kept s (setJerryReaction (fc_reaction fc) s))
    by (unfold setJerryReaction; apply kept_react).
  eapply kept_trans; [exact K|].
  destruct (sessionPromiseRef (refs (setJerryReaction (fc_reaction fc) s)))
    as [sid|] eqn:E; [|apply kept_refl].
  now apply kept_then.
Qed.

Lemma kept_toolCallBlock (m : Message) (s : AppState) : kept s (toolCallBlock m s).
Proof.
  unfold toolCallBlock. destruct (toolCall m) as [fcs|]; [|apply kept_refl].
  revert s. induction fcs as [|fc fcs IH]; intros s; [apply kept_refl|].
  cbn [fold_left]. eapply kept_trans; [apply kept_handleFunctionCall | apply IH].
Qed.

Lemma kept_text_blocks (m : Message) (s : AppState) :
  kept s (turnCompleteBlock m (transcriptionBlock m s)).
Proof.
  apply kept_same.
  - rewrite turnCompleteBlock_world, transcriptionBlock_world. lia.
  - now rewrite turnCompleteBlock_world, transcriptionBlock_world.
  - left. unfold turnCompleteBlock, transcriptionBlock, seq.
    destruct (turnComplete m), (outputTranscription m), (inputTranscription m);
      cbn; try (destruct (truthy _)); reflexivity.
Qed.

Lemma kept_audioBlock (m : Message) (now : float) (s : AppState) :
  kept s (completion_state (audioBlock m now s)).
Proof.
  unfold audioBlock.
  destruct (modelTurn m) as [a|]; [|apply kept_refl].
  destruct (negb (truthy (data a))); [apply kept_refl|]. cbn -[checkpoint].
  destruct (outputAudioContextRef (refs s)); [|kept_peel].
  match goal with
  | |- context [checkpoint ?x] =>
      assert (Hc : kept s (checkpoint x))
        by (eapply kept_trans; [|apply kept_checkpoint]; kept_peel);
      set (c := checkpoint x) in *; clearbody c
  end.
  destruct (decoded a); [|exact Hc].
  eapply kept_trans; [exact Hc|]. cbn [completion_state].
  apply kept_same; cbn; auto.
Qed.

Lemma kept_interruptedBlock (m : Message) (s : AppState) :
  kept s (interruptedBlock m s).
Proof.
  unfold interruptedBlock. destruct (interrupted m); [|apply kept_refl].
  apply kept_same; cbn; auto.
Qed.

Lemma kept_onmessage (m : Message) (now : float) (s : AppState) :
  kept s (onmessage m now s).
Proof.
  unfold onmessage, seq.
  set (s3 := turnCompleteBlock m (transcriptionBlock m (toolCallBlock m s))).
  assert (H3 : kept s s3).
  { subst s3. eapply kept_trans; [apply kept_toolCallBlock|].
    apply kept_text_blocks. }
  pose proof (kept_audioBlock m now s3) as Ha.
  destruct (audioBlock m now s3) as [s4|s4]; cbn in Ha.
  - eapply kept_trans; [|apply kept_interruptedBlock].
    eapply kept_trans; eassumption.
  - eapply kept_trans; eassumption.
Qed.

Lemma kept_onended (source : nat) (s : AppState) : kept s (onended source s).
Proof.
  unfold onended, seq. cbn.
  destruct (set_delete source (audioSourcesRef (refs s)));
    apply kept_same; cbn; auto.
Qed.

Lemma kept_onerror (s : AppState) : kept s (onerror s).
Proof. unfold onerror, seq. kept_peel. Qed.

Lemma kept_onclose (s : AppState) : kept s (onclose s).
Proof. unfold onclose, seq. kept_peel. Qed.

Lemma kept_reactionEffect (s : AppState) : kept s (reactionEffect s).
Proof.
  unfold reactionEffect.
  destruct (GameState.eqb _ _); [apply kept_refl|].
  unfold seq. cbv beta.
  match goal with |- context [hasSound ?r] => destruct (hasSound r) end;
    destruct (open_context (sfxAudioContextRef (refs s))); kept_peel.
Qed.

(** Every step keeps the promises in order. *)
Lemma step_promises_ok (s s' : AppState) (l : Label) :
  promises_ok s -> step s l = Some s' -> promises_ok s'.
Proof.
  intros H Hstep. destruct l; invert_step Hstep; apply kept_checkpoint.
  - now apply kept_handleStartGame.
  - now apply kept_handleExitGame.
  - now apply kept_handleToggleConversation.
  - apply kept_greeting_answered. now apply kept_take_pending.
  - apply kept_handleToggleConversation. now apply kept_take_pending.
  - apply kept_toggle_granted. now apply kept_take_pending.
  - apply kept_toggle_catch. now apply kept_take_pending.
  - apply kept_resolving, kept_onopen. now apply kept_update_session.
  - now apply kept_onmessage.
  - now apply kept_onerror.
  - apply kept_onclose. now apply kept_update_session.
  - apply kept_onended. now apply (kept_same s); cbn; auto.
  - now apply kept_reactionEffect.
Qed.

Lemma run_promises_ok (ls : list Label) (s s' : AppState) :
  promises_ok s -> run s ls = Some s' -> promises_ok s'.
Proof.
  revert s. induction ls as [|l ls IH]; intros s H Hrun; simpl in Hrun.
  - now injection Hrun as <-.
  - destruct (step s l) as [s1|] eqn:E; [|discriminate].
    apply (IH s1); [|exact Hrun]. eapply step_promises_ok; eassumption.
Qed.

Lemma reachable_promises_ok (s : AppState) : reachable s -> promises_ok s.
Proof.
  intros (key & ls & H). eapply run_promises_ok; [|exact H].
  split; [constructor | discriminate].
Qed.

(** ** The microphone request *)

Lemma handleExitGame_eq (s : AppState) :
  handleExitGame s
  = {| react := {| gameState := GameState.PRE_GAME;
                   gameMode := gameMode (react s);
                   jerryReaction := JerryReaction.IDLE;
                   userTranscript := ""; jerryTranscript := "";
                   error := None;
                   userName := userName (react s);
                   userAge := userAge (react s) |};
       refs := stopped_refs true (refs s);
       world := stopped_world (refs s) (world s) |}.
Proof.
  unfold handleExitGame, seq. rewrite stopAudioProcessing_spec. reflexivity.
Qed.

Lemma onopen_without_input (s : AppState) :
  inputAudioContextRef (refs s) = None ->
  onopen s = setGameState GameState.LISTENING s.
Proof. intros H. unfold onopen, seq. cbn. rewrite H. reflexivity. Qed.

(** The exit and the checkpoint behind it, from a state with nothing
    queued: the calls of the teardown, then [close()] on the session held
    if its promise has resolved. *)
Lemma exit_facts (s : AppState) :
  microtasks (world s) = [] ->
  let s1 := checkpoint (handleExitGame s) in
  gameState (react s1) = GameState.PRE_GAME /\
  refs s1 = stopped_refs true (refs s) /\
  pending (world s1) = pending (world s) /\
  fresh (world s1) = fresh (world s) /\
  map fst (sessions (world s1)) = map fst (sessions (world s)) /\
  thens (world s1)
  = (if holds_resolved (refs s) (world s) then thens (world s)
     else thens (world s) ++ closeJob (refs s)) /\
  microtasks (world s1) = [] /\
  trace (world s1)
  = trace (world s) ++ teardownEffects (refs s) ++ closeCalls (refs s) (world s).
Proof.
  intros Hq. cbv zeta.
  destruct (checkpoint_world (handleExitGame s))
    as (_ & Hp & Ht & Hm & _ & Hf & Hs).
  rewrite checkpoint_react, checkpoint_refs, checkpoint_trace, Hp, Ht, Hm, Hf, Hs.
  rewrite handleExitGame_eq. cbn -[holds_resolved closeJob teardownEffects].
  rewrite Hq. unfold closeCalls.
  split; [reflexivity|]. split; [reflexivity|]. split; [reflexivity|].
  split; [reflexivity|]. split; [reflexivity|]. split; [reflexivity|].
  split; [reflexivity|].
  destruct (holds_resolved (refs s) (world s)); cbn [app map];
    now rewrite <- app_assoc.
Qed.

(** The microphone granted: the stream is kept and a session started. *)
Lemma granted_facts (s1 : AppState) (task : nat) (c : Closure) :
  let s2 := toggle_granted c (take_pending task s1) in
  react s2 = react s1 /\
  mediaStreamRef (refs s2) = Some (fresh (world s1)) /\
  sessionPromiseRef (refs s2) = Some (S (fresh (world s1))) /\
  sessions (world s2)
  = sessions (world s1)
    ++ [(S (fresh (world s1)),
         {| transport := TransportConnecting; resolved := false |})] /\
  trace (world s2) = trace (world s1) ++ [LiveConnect (S (fresh (world s1))) c] /\
  inputAudioContextRef (refs s2) = inputAudioContextRef (refs s1) /\
  scriptProcessorRef (refs s2) = scriptProcessorRef (refs s1) /\
  thens (world s2) = thens (world s1) /\
  microtasks (world s2) = microtasks (world s1).
Proof.
  cbv zeta.
  split; [reflexivity|]. split; [reflexivity|]. split; [reflexivity|].
  split; [reflexivity|]. split; [reflexivity|]. split; [reflexivity|].
  split; [reflexivity|]. split; reflexivity.
Qed.

Lemma filter_key_above {A} (n sid : nat) (l : list (nat * A)) :
  keys_below n l -> n <= sid -> filter (fun p => (fst p =? sid)%nat) l = [].
Proof.
  intros H Hle. induction l as [|[k a] l IH]; [reflexivity|].
  inversion H as [|? ? Hk Hl]; subst. cbn in Hk. cbn [filter fst].
  destruct (k =? sid)%nat eqn:E; [apply Nat.eqb_eq in E; lia|].
  now apply IH.
Qed.

(** The session opens without a capture context: [onopen] stops after
    its first statement, and nothing waited for the session. *)
Lemma opened_without_input (sid : nat) (resolves : bool) (s : AppState) :
  inputAudioContextRef (refs s) = None ->
  microtasks (world s) = [] ->
  filter (fun p => (fst p =? sid)%nat) (thens (world s)) = [] ->
  let s' := checkpoint ((if resolves then resolve sid else skip)
                          (onopen (mark_open sid s))) in
  gameState (react s') = GameState.LISTENING /\
  inputAudioContextRef (refs s') = None /\
  scriptProcessorRef (refs s') = scriptProcessorRef (refs s) /\
  trace (world s') = trace (world s).
Proof.
  intros H Hq Hw. cbv zeta.
  rewrite checkpoint_react, checkpoint_refs, checkpoint_trace.
  rewrite resolving_react, resolving_refs.
  rewrite onopen_without_input by exact H.
  split; [reflexivity|]. split; [exact H|]. split; [reflexivity|].
  destruct resolves; cbn -[filter]; rewrite Hq, ?Hw; cbn; now rewrite app_nil_r.
Qed.

(** X11.  Leaving the game while the browser asks for the microphone
    does not cancel the start.  The exit makes the calls of its teardown
    and, behind them, [close()] on the session it held if the promise of
    that session has resolved.  When the request is granted afterwards,
    [handleToggleConversation] resumes: on the intro screen ([PRE_GAME])
    it keeps the stream and starts a session, which no teardown will
    release.  When that session opens, whether or not its promise
    resolves, [onopen] sets [LISTENING], which brings the game screen
    back, and stops there: the input context is gone, no capture node is
    created or connected. *)
Theorem exit_does_not_cancel_microphone_request
    (s : AppState) (task : nat) (c : Closure) :
  reachable s ->
  gameState (react s) <> GameState.PRE_GAME ->
  lookup_key task (pending (world s)) = Some (AwaitUserMedia c) ->
  let stream := fresh (world s) in
  let sid := S stream in
  exists s2,
    run s [ClickExit; MediaGranted task] = Some s2 /\
    gameState (react s2) = GameState.PRE_GAME /\
    mediaStreamRef (refs s2) = Some stream /\
    sessionPromiseRef (refs s2) = Some sid /\
    lookup_key sid (sessions (world s2))
    = Some {| transport := TransportConnecting; resolved := false |} /\
    trace (world s2)
    = trace (world s) ++ teardownEffects (refs s)
      ++ closeCalls (refs s) (world s) ++ [LiveConnect sid c] /\
    forall resolves,
    exists s3,
      step s2 (SessionOpened sid resolves) = Some s3 /\
      gameState (react s3) = GameState.LISTENING /\
      inputAudioContextRef (refs s3) = None /\
      scriptProcessorRef (refs s3) = scriptProcessorRef (refs s) /\
      trace (world s3) = trace (world s2).
Proof.
  intros Hr Hg Hl stream sid. subst stream sid.
  destruct (reachable_refs_ok s Hr) as (Hi & _). apply release_ok in Hi.
  destruct (reachable_ids_ok s Hr) as (_ & Hs).
  destruct (reachable_promises_ok s Hr) as (Hth & Href).
  pose proof (reachable_microtasks s Hr) as Hq.
  destruct (exit_facts s Hq) as (G1 & R1 & P1 & F1 & S1 & T1 & Q1 & X1).
  pose proof (step_ClickExit s Hg) as E1.
  set (s1 := checkpoint (handleExitGame s)) in *. clearbody s1.
  assert (L1 : lookup_key task (pending (world s1)) = Some (AwaitUserMedia c))
    by (rewrite P1; exact Hl).
  pose proof (step_MediaGranted _ _ _ L1) as E2.
  destruct (granted_facts s1 task c)
    as (G2 & M2 & P2 & S2 & X2 & I2 & C2 & T2 & Q2).
  rewrite checkpoint_empty in E2 by (rewrite Q2; exact Q1).
  set (s2 := toggle_granted c (take_pending task s1)) in *. clearbody s2.
  rewrite F1 in M2, P2, S2, X2.
  assert (K1 : keys_below (fresh (world s)) (sessions (world s1)))
    by (now apply (keys_below_same_keys _ (sessions (world s)))).
  assert (L2 : lookup_key (S (fresh (world s))) (sessions (world s2))
               = Some {| transport := TransportConnecting; resolved := false |}).
  { rewrite S2. apply lookup_key_fresh.
    eapply keys_below_le; [apply Nat.le_succ_diag_r | exact K1]. }
  assert (W2 : filter (fun p => (fst p =? S (fresh (world s)))%nat)
                      (thens (world s2)) = []).
  { rewrite T2, T1. apply (filter_key_above (fresh (world s))); [|lia].
    destruct (holds_resolved (refs s) (world s)); [exact Hth|].
    apply Forall_app. split; [exact Hth|].
    unfold closeJob. destruct (sessionPromiseRef (refs s)) as [sid0|] eqn:E;
      [|constructor].
    constructor; [cbn; now apply Href | constructor]. }
  exists s2.
  split; [cbn [run]; rewrite E1, E2; reflexivity|].
  split; [rewrite G2; exact G1|]. split; [exact M2|].
  split; [exact P2|]. split; [exact L2|].
  split; [rewrite X2, X1, <- !app_assoc; reflexivity|].
  intros resolves.
  assert (I2' : inputAudioContextRef (refs s2) = None)
    by (rewrite I2, R1; exact Hi).
  assert (Q2' : microtasks (world s2) = []) by (rewrite Q2; exact Q1).
  destruct (opened_without_input (S (fresh (world s))) resolves s2 I2' Q2' W2)
    as (G3 & I3 & C3 & X3).
  eexists. split.
  - apply step_SessionOpened. unfold connecting, transport_of. now rewrite L2.
  - split; [exact G3|]. split; [exact I3|].
    split; [rewrite C3, C2, R1; reflexivity | exact X3].
Qed.

Lemma exit_does_not_cancel_microphone_request_witness :
  exists s,
    run (initialState (Some "key"))
        [ClickStartGame "Alex" "10-18" GameMode.AI;
         GreetingSettled 0 (GreetingAnswer None)] = Some s /\
    gameState (react s) = GameState.CONNECTING /\
    exists s2 s3,
      run s [ClickExit; MediaGranted 1] = Some s2 /\
      gameState (react s2) = GameState.PRE_GAME /\
      sessionPromiseRef (refs s2) = Some 3 /\
      mediaStreamRef (refs s2) = Some 2 /\
      step s2 (SessionOpened 3 true) = Some s3 /\
      gameState (react s3) = GameState.LISTENING /\
      scriptProcessorRef (refs s3) = None.
Proof.
  eexists. split; [vm_compute; reflexivity|]. split; [reflexivity|].
  match goal with
  | |- exists s2 s3, run ?s _ = _ /\ _ =>
      assert (R : reachable s)
        by (exists (Some "key"),
              [ClickStartGame "Alex" "10-18" GameMode.AI;
               GreetingSettled 0 (GreetingAnswer None)];
            vm_compute; reflexivity);
      assert (N : gameState (react s) <> GameState.PRE_GAME) by discriminate;
      destruct (exit_does_not_cancel_microphone_request s 1
                  {| cl_gameMode := GameMode.AI; cl_userName := "";
                     cl_userAge := "" |} R N eq_refl)
        as (s2 & H1 & H2 & H3 & H4 & _ & _ & H5)
  end.
  destruct (H5 true) as (s3 & H6 & H7 & _ & H8 & _).
  exists s2, s3.
  split; [exact H1|]. split; [exact H2|]. split; [exact H4|].
  split; [exact H3|]. split; [exact H6|]. split; [exact H7 | exact H8].
Defined.

Lemma toggle_catch_facts (msg : option string) (s : AppState) :
  let s' := toggle_catch msg s in
  error (react s')
  = Some (match msg with
          | Some m => m
          | None => "An unknown error occurred."
          end) /\
  pending (world s') = pending (world s) /\
  fresh (world s') = fresh (world s) /\
  sessions (world s') = sessions (world s).
Proof.
  cbv zeta. unfold toggle_catch, seq. rewrite stopAudioProcessing_spec.
  split; [reflexivity|]. split; [reflexivity|]. split; reflexivity.
Qed.

Lemma lookup_key_keys {A} (k : nat) (l l' : list (nat * A)) :
  map fst l' = map fst l ->
  lookup_key k l' <> None -> lookup_key k l <> None.
Proof.
  revert l'. induction l as [|[k1 a1] l IH]; intros [|[k2 a2] l'] E;
    try discriminate; [auto|].
  cbn in E. injection E as -> E. cbn.
  destruct (k1 =? k)%nat; [discriminate|]. now apply IH.
Qed.

(** X12.  When the microphone request is rejected, the [catch] of
    [handleToggleConversation] runs: the game state is [IDLE], the error
    shown is the message of the rejection, or "An unknown error
    occurred." when the rejection is not an [Error], the resources of
    the attempt are torn down (the input context created before the
    request is closed; the close of a session held is asked for on its
    promise), and no session is started. *)
Theorem microphone_denied_outcome
    (s : AppState) (task : nat) (c : Closure) (msg : option string) :
  reachable s ->
  lookup_key task (pending (world s)) = Some (AwaitUserMedia c) ->
  exists s',
    step s (MediaDenied task msg) = Some s' /\
    gameState (react s') = GameState.IDLE /\
    error (react s')
    = Some (match msg with
            | Some m => m
            | None => "An unknown error occurred."
            end) /\
    torn_down s s' /\
    lookup_key task (pending (world s')) = None /\
    fresh (world s') = fresh (world s) /\
    forall sid, lookup_key sid (sessions (world s')) <> None ->
                lookup_key sid (sessions (world s)) <> None.
Proof.
  intros Hr Hl.
  pose proof (reachable_refs_ok s Hr) as Hok.
  exists (checkpoint (toggle_catch msg (take_pending task s))).
  split; [apply (step_MediaDenied s task c msg Hl)|].
  pose proof (toggle_catch_gs msg (take_pending task s)) as Hg.
  destruct (toggle_catch_facts msg (take_pending task s)) as (He & Hp & Hf & Hs).
  destruct (checkpoint_world (toggle_catch msg (take_pending task s)))
    as (_ & Hp' & _ & _ & _ & Hf' & Hs').
  rewrite checkpoint_react, Hp', Hf'.
  split; [exact Hg|]. split; [exact He|].
  split.
  { apply toggle_catch_torn_down; [exact Hok|].
    split; [reflexivity|]. split; [reflexivity|].
    exists []. cbn. now rewrite app_nil_r. }
  split; [rewrite Hp; apply lookup_remove_key|].
  split; [rewrite Hf; reflexivity|].
  intros sid. apply lookup_key_keys. rewrite Hs', Hs. reflexivity.
Qed.

Lemma microphone_denied_outcome_witness :
  exists s,
    run (initialState (Some "key"))
        [ClickStartGame "Alex" "10-18" GameMode.AI;
         GreetingSettled 0 (GreetingAnswer None)] = Some s /\
    inputAudioContextRef (refs s) <> None /\
    exists s',
      step s (MediaDenied 1 (Some "Permission denied")) = Some s' /\
      gameState (react s') = GameState.IDLE /\
      error (react s') = Some "Permission denied" /\
      inputAudioContextRef (refs s') = None.
Proof.
  eexists. split; [vm_compute; reflexivity|]. split; [discriminate|].
  match goal with
  | |- exists s', step ?s _ = _ /\ _ =>
      assert (R : reachable s)
        by (exists (Some "key"),
              [ClickStartGame "Alex" "10-18" GameMode.AI;
               GreetingSettled 0 (GreetingAnswer None)];
            vm_compute; reflexivity);
      destruct (microphone_denied_outcome s 1
                  {| cl_gameMode := GameMode.AI; cl_userName := "";
                     cl_userAge := "" |} (Some "Permission denied") R eq_refl)
        as (s' & H1 & H2 & H3 & H4 & _)
  end.
  exists s'. split; [exact H1|]. split; [exact H2|]. split; [exact H3|].
  destruct H4 as (es & _ & _ & _ & _ & _ & H & _). exact H.
Defined.

(** ** The greeting *)

Lemma toggle_start_started (c : Closure) (s : AppState) :
  keyPresent s = true ->
  error (react (toggle_start c s)) = None /\
  gameState (react (toggle_start c s)) = GameState.CONNECTING /\
  exists es, trace (world (toggle_start c s)) = trace (world s) ++ es.
Proof.
  intros Hk. rewrite toggle_start_with_key by exact Hk.
  unfold seq, suspend, emit, bump. cbn.
  destruct (open_context (outputAudioContextRef (refs s))); cbn;
    (split; [reflexivity|]; split; [reflexivity|]);
    rewrite <- ?app_assoc; eexists; reflexivity.
Qed.

Lemma toggle_catch_trace (msg : option string) (s : AppState) :
  exists es, trace (world (toggle_catch msg s)) = trace (world s) ++ es.
Proof.
  unfold toggle_catch, seq. rewrite stopAudioProcessing_spec. cbn.
  rewrite <- app_assoc. eexists. reflexivity.
Qed.

Lemma greeting_catch_eq (c : Closure) (s : AppState) :
  greeting_catch c s
  = toggle_start c (setError (Some greetingFailureMessage)
                      (emit (ConsoleError "Greeting error:") s)).
Proof. reflexivity. Qed.

(** X13.  The message "Couldn't say hello! Starting conversation anyway."
    is never what a failed greeting leaves on display: the [catch] of
    [playGreeting] sets it and calls [handleToggleConversation(true)] at
    once, whose start branch clears the error; with the API key missing
    (the one failure before the request) the start fails in turn and the
    error left is the missing key message, in state [IDLE]. *)
Theorem greeting_failure_message_is_overwritten (c : Closure) (s : AppState) :
  let s' := greeting_catch c s in
  error (react s')
  = (if keyPresent s then None else Some missingKeyMessage) /\
  error (react s') <> Some greetingFailureMessage /\
  gameState (react s')
  = (if keyPresent s then GameState.CONNECTING else GameState.IDLE) /\
  exists es, trace (world s')
             = trace (world s) ++ ConsoleError "Greeting error:" :: es.
Proof.
  cbv zeta. rewrite greeting_catch_eq.
  set (s0 := setError (Some greetingFailureMessage)
               (emit (ConsoleError "Greeting error:") s)).
  assert (Hk0 : keyPresent s0 = keyPresent s) by reflexivity.
  assert (Ht0 : trace (world s0) = trace (world s) ++ [ConsoleError "Greeting error:"])
    by reflexivity.
  clearbody s0.
  destruct (keyPresent s) eqn:Hk.
  - destruct (toggle_start_started c s0 Hk0) as (-> & -> & es & ->).
    split; [reflexivity|]. split; [discriminate|]. split; [reflexivity|].
    exists es. rewrite Ht0, <- app_assoc. reflexivity.
  - rewrite (toggle_start_missing_key c s0 Hk0).
    set (s1 := setGameState GameState.CONNECTING (setError None s0)).
    assert (Ht1 : trace (world s1) = trace (world s0)) by reflexivity.
    clearbody s1.
    destruct (toggle_catch_facts (Some missingKeyMessage) s1) as (-> & _).
    pose proof (toggle_catch_gs (Some missingKeyMessage) s1) as Hg.
    unfold gs in Hg. rewrite Hg.
    destruct (toggle_catch_trace (Some missingKeyMessage) s1) as (es & ->).
    split; [reflexivity|]. split; [discriminate|]. split; [reflexivity|].
    exists es. rewrite Ht1, Ht0, <- app_assoc. reflexivity.
Qed.

(** ** Audio contexts outside a session *)

Lemma stopped_released (b : bool) (f : Refs) :
  refs_ok f ->
  inputAudioContextRef (stopped_refs b f) = None /\
  outputAudioContextRef (stopped_refs b f) = None.
Proof.
  intros (Hi & Ho & _). cbn. now rewrite !release_ok.
Qed.

Ltac released_by_stop :=
  intros Hok _; unfold pipeline_released; intros _;
  rewrite stopAudioProcessing_spec; cbn [refs];
  apply stopped_released; exact Hok.

Lemma toggle_catch_released (msg : option string) (s : AppState) :
  refs_ok (refs s) -> pipeline_released s -> pipeline_released (toggle_catch msg s).
Proof. unfold toggle_catch, seq. released_by_stop. Qed.

Lemma toggle_stop_released (s : AppState) :
  refs_ok (refs s) -> pipeline_released s -> pipeline_released (toggle_stop s).
Proof.
  intros Hok _. unfold pipeline_released, toggle_stop, seq. intros _.
  rewrite stopAudioProcessing_spec. cbn.
  destruct Hok as (Hi & Ho & _). now rewrite !release_ok.
Qed.

Lemma toggle_start_released (c : Closure) (s : AppState) :
  refs_ok (refs s) -> pipeline_released s -> pipeline_released (toggle_start c s).
Proof.
  intros Hok _. unfold toggle_start, seq at 1 2.
  match goal with |- context [keyPresent ?x] => destruct (keyPresent x) end; cbn [negb].
  - unfold pipeline_released, seq, emit, suspend, bump. cbn.
    destruct (open_context (outputAudioContextRef (refs s))); cbn;
      intros [C|C]; discriminate.
  - apply toggle_catch_released; [exact Hok|].
    unfold pipeline_released. cbn. intros [C|C]; discriminate.
Qed.

Lemma handleToggleConversation_released (b : bool) (c : Closure) (s : AppState) :
  refs_ok (refs s) -> pipeline_released s ->
  pipeline_released (handleToggleConversation b c s).
Proof.
  intros Hok H. unfold handleToggleConversation.
  destruct (_ && _); [now apply toggle_stop_released | now apply toggle_start_released].
Qed.

Lemma greeting_catch_released (c : Closure) (s : AppState) :
  refs_ok (refs s) -> pipeline_released s -> pipeline_released (greeting_catch c s).
Proof.
  intros Hok H. unfold greeting_catch, seq.
  apply handleToggleConversation_released; [exact Hok | exact H].
Qed.

Lemma greeting_answered_released (c : Closure) (r : GreetingResult) (s : AppState) :
  refs_ok (refs s) -> pipeline_released s ->
  pipeline_released (greeting_answered c r s).
Proof.
  intros Hok H. unfold greeting_answered.
  destruct r as [|[a|]];
    try (now apply greeting_catch_released);
    try (now apply handleToggleConversation_released).
  destruct (negb (truthy (data a))); [now apply handleToggleConversation_released|].
  destruct (outputAudioContextRef (refs s)) eqn:E;
    [|now apply greeting_catch_released].
  destruct (decoded a); [|now apply greeting_catch_released].
  unfold pipeline_released, seq, emit, suspend, bump in *. cbn. rewrite E in *.
  exact H.
Qed.

Lemma handleStartGame_released (name age : string) (mode : GameMode.t) (s : AppState) :
  refs_ok (refs s) -> pipeline_released s ->
  pipeline_released (handleStartGame name age mode s).
Proof.
  intros Hok H. unfold handleStartGame.
  destruct (_ || _); [exact H|].
  unfold seq, playGreeting.
  match goal with |- context [keyPresent ?x] => destruct (keyPresent x) end; cbn [negb].
  - unfold pipeline_released, seq. cbn. intros [C|C]; discriminate.
  - now apply greeting_catch_released.
Qed.

Lemma handleExitGame_released (s : AppState) :
  refs_ok (refs s) -> pipeline_released s -> pipeline_released (handleExitGame s).
Proof.
  intros Hok _. rewrite handleExitGame_eq. unfold pipeline_released. cbn [refs].
  intros _. now apply stopped_released.
Qed.

Lemma onmessage_contexts (m : Message) (now : float) (s : AppState) :
  inputAudioContextRef (refs (onmessage m now s)) = inputAudioContextRef (refs s) /\
  outputAudioContextRef (refs (onmessage m now s)) = outputAudioContextRef (refs s).
Proof.
  unfold onmessage.
  set (s3 := (toolCallBlock m ;; transcriptionBlock m ;; turnCompleteBlock m) s).
  assert (H3 : inputAudioContextRef (refs s3) = inputAudioContextRef (refs s) /\
               outputAudioContextRef (refs s3) = outputAudioContextRef (refs s)).
  { subst s3. unfold seq. pose proof (toolCallBlock_refs m s) as Hr.
    unfold turnCompleteBlock, transcriptionBlock, seq.
    destruct (turnComplete m), (outputTranscription m), (inputTranscription m);
      cbn; try (destruct (truthy _)); cbn; rewrite Hr; split; reflexivity. }
  destruct H3 as (<- & <-). clearbody s3.
  unfold audioBlock, interruptedBlock, stopSources, seq.
  destruct (modelTurn m) as [a|]; [destruct (negb (truthy (data a)))|].
  - destruct (interrupted m); split; reflexivity.
  - cbn -[checkpoint].
    destruct (outputAudioContextRef (refs s3)) eqn:E; cbn -[checkpoint];
      [|now rewrite E].
    destruct (decoded a); cbn -[checkpoint];
      [|rewrite checkpoint_refs; cbn; now rewrite E].
    destruct (interrupted m); cbn -[checkpoint]; rewrite checkpoint_refs; cbn;
      rewrite E; split; reflexivity.
  - destruct (interrupted m); split; reflexivity.
Qed.

Lemma onmessage_released (m : Message) (now : float) (s : AppState) :
  pipeline_released s -> pipeline_released (onmessage m now s).
Proof.
  intros H. unfold pipeline_released in *.
  destruct (onmessage_contexts m now s) as (-> & ->).
  rewrite onmessage_gameState.
  destruct (carries_audio m); [intros [C|C]; discriminate|].
  intros C. apply H. revert C.
  unfold seq. destruct (toolCallBlock_react m s) as (Hg & _).
  unfold turnCompleteBlock, transcriptionBlock, seq.
  destruct (turnComplete m), (outputTranscription m), (inputTranscription m);
    cbn; try (destruct (truthy _)); cbn; rewrite ?Hg; auto;
    intros [C|C]; discriminate.
Qed.

Lemma onended_released (source : nat) (s : AppState) :
  pipeline_released s -> pipeline_released (onended source s).
Proof.
  intros H. unfold pipeline_released, onended, seq in *. cbn.
  destruct (set_delete source (audioSourcesRef (refs s))); cbn; [|exact H].
  intros [C|C]; discriminate.
Qed.

Lemma reactionEffect_released (s : AppState) :
  pipeline_released s -> pipeline_released (reactionEffect s).
Proof.
  intros H. unfold pipeline_released, reactionEffect, seq, emit in *.
  destruct (GameState.eqb _ _); [exact H|].
  destruct (open_context (sfxAudioContextRef (refs s)));
    match goal with |- context [hasSound ?r] => destruct (hasSound r) end;
    cbn; exact H.
Qed.

Lemma step_released (s s' : AppState) (l : Label) :
  refs_ok (refs s) -> pipeline_released s -> step s l = Some s' ->
  pipeline_released s'.
Proof.
  intros Hok H Hstep.
  assert (C : forall x, pipeline_released x -> pipeline_released (checkpoint x)).
  { intros x Hx. unfold pipeline_released.
    now rewrite checkpoint_react, checkpoint_refs. }
  destruct l; invert_step Hstep; apply C.
  - now apply handleStartGame_released.
  - now apply handleExitGame_released.
  - now apply handleToggleConversation_released.
  - now apply greeting_answered_released.
  - now apply handleToggleConversation_released.
  - exact H.
  - now apply toggle_catch_released.
  - unfold pipeline_released. rewrite resolving_react, resolving_refs.
    unfold onopen, seq. cbn.
    destruct (inputAudioContextRef (refs s)), (mediaStreamRef (refs s)); cbn;
      intros [C'|C']; discriminate.
  - now apply onmessage_released.
  - unfold onerror, seq. revert Hok H. released_by_stop.
  - unfold onclose, seq. revert Hok H. released_by_stop.
  - now apply onended_released.
  - now apply reactionEffect_released.
Qed.

Lemma run_released (ls : list Label) (s s' : AppState) :
  refs_ok (refs s) -> pipeline_released s -> run s ls = Some s' ->
  pipeline_released s'.
Proof.
  revert s. induction ls as [|l ls IH]; intros s Hok H Hrun; cbn [run] in Hrun.
  - now injection Hrun as <-.
  - destruct (step s l) as [s1|] eqn:E; [|discriminate].
    apply (IH s1); [| |exact Hrun].
    + eapply step_refs_ok; eassumption.
    + eapply step_released; eassumption.
Qed.

Lemma reachable_released (s : AppState) : reachable s -> pipeline_released s.
Proof.
  intros (key & ls & Hrun).
  eapply run_released; [| |exact Hrun].
  - unfold refs_ok; cbn; tauto.
  - unfold pipeline_released; cbn; tauto.
Qed.

(** X14.  Outside a session no audio pipeline is held: in every reachable
    state whose game state is [PRE_GAME] or [IDLE], the capture context
    and the playback context are both released (every way into these two
    states closes them, and nothing creates one without leaving them),
    and so no source is in the active set. *)
Theorem no_pipeline_when_idle_or_pre_game (s : AppState) :
  reachable s ->
  gameState (react s) = GameState.PRE_GAME \/ gameState (react s) = GameState.IDLE ->
  inputAudioContextRef (refs s) = None /\
  outputAudioContextRef (refs s) = None /\
  audioSourcesRef (refs s) = [].
Proof.
  intros Hr Hg.
  pose proof (reachable_refs_ok s Hr) as (_ & _ & _ & Hsrc).
  destruct (reachable_released s Hr Hg) as (Hi & Ho). auto.
Qed.

Lemma no_pipeline_when_idle_or_pre_game_witness :
  exists s,
    run (initialState (Some "key")) staleSessionTrace = Some s /\
    gameState (react s) = GameState.IDLE /\
    inputAudioContextRef (refs s) = None /\
    outputAudioContextRef (refs s) = None /\
    audioSourcesRef (refs s) = [].
Proof.
  eexists. split; [vm_compute; reflexivity|]. split; [reflexivity|].
  match goal with
  | |- inputAudioContextRef (refs ?s) = _ /\ _ =>
      apply (no_pipeline_when_idle_or_pre_game s);
        [exists (Some "key"), staleSessionTrace; vm_compute; reflexivity
        |right; reflexivity]
  end.
Defined.

(** ** The sound effect hook *)

Lemma reactionEffect_facts (s : AppState) :
  gameState (react s) <> GameState.IDLE ->
  let s1 := reactionEffect s in
  react s1 = react s /\
  open_context (sfxAudioContextRef (refs s1)) = true /\
  (open_context (sfxAudioContextRef (refs s)) = true -> refs s1 = refs s) /\
  trace (world s1)
  = trace (world s)
    ++ (if open_context (sfxAudioContextRef (refs s))
        then [] else [ContextCreate SfxContext])
    ++ (if hasSound (jerryReaction (react s))
        then [PlaySound (jerryReaction (react s))] else []).
Proof.
  intros H. apply GameState_eqb_neq in H. cbv zeta.
  unfold reactionEffect. rewrite H. unfold seq, emit.
  destruct (open_context (sfxAudioContextRef (refs s))) eqn:E.
  - destruct (hasSound (jerryReaction (react s))); cbn;
      rewrite ?app_nil_r; (split; [reflexivity|]); (split; [exact E|]);
      split; reflexivity.
  - cbn. destruct (hasSound (jerryReaction (react s))); cbn;
      rewrite <- ?app_assoc, ?app_nil_r; (split; [reflexivity|]);
      (split; [reflexivity|]); (split; [discriminate|]); reflexivity.
Qed.

(** X15.  Outside [IDLE] a run of the sound effect hook leaves an open
    sound context behind, creating one only when none was open, and plays
    the sound of the reaction when the reaction is one of surprised, sad,
    laughing, smart; the next run, for whatever reaction, finds that
    context and creates none.  In [IDLE] the hook does nothing. *)
Theorem sound_hook_reuses_context (s : AppState) (next : string) :
  let r := jerryReaction (react s) in
  let s1 := reactionEffect s in
  let s2 := reactionEffect (setJerryReaction next s1) in
  (gameState (react s) = GameState.IDLE -> s1 = s) /\
  (gameState (react s) <> GameState.IDLE ->
   open_context (sfxAudioContextRef (refs s1)) = true /\
   trace (world s1)
   = trace (world s)
     ++ (if open_context (sfxAudioContextRef (refs s))
         then [] else [ContextCreate SfxContext])
     ++ (if hasSound r then [PlaySound r] else []) /\
   refs s2 = refs s1 /\
   trace (world s2)
   = trace (world s1) ++ (if hasSound next then [PlaySound next] else [])).
Proof.
  cbv zeta. split.
  - intros H. unfold reactionEffect. rewrite H. reflexivity.
  - intros H.
    destruct (reactionEffect_facts s H) as (R1 & O1 & _ & T1).
    set (s1 := reactionEffect s) in *. clearbody s1.
    assert (H' : gameState (react (setJerryReaction next s1)) <> GameState.IDLE)
      by (cbn; rewrite R1; exact H).
    destruct (reactionEffect_facts (setJerryReaction next s1) H')
      as (_ & _ & F2 & T2).
    specialize (F2 O1).
    split; [exact O1|]. split; [exact T1|]. split; [exact F2|].
    rewrite T2.
    change (refs (setJerryReaction next s1)) with (refs s1). rewrite O1.
    reflexivity.
Qed.

(** ** The greeting with audio *)






(** ** Restarting *)

Lemma toggle_start_creates_both (c : Closure) (s : AppState) :
  keyPresent s = true ->
  outputAudioContextRef (refs s) = None ->
  let s' := toggle_start c s in
  gameState (react s') = GameState.CONNECTING /\
  error (react s') = None /\
  userTranscript (react s') = userTranscript (react s) /\
  jerryTranscript (react s') = jerryTranscript (react s) /\
  inputAudioContextRef (refs s') = Some (newAudioContext (Some 16000%positive)) /\
  outputAudioContextRef (refs s') = Some (newAudioContext (Some 24000%positive)) /\
  nextStartTimeRef (refs s') = nextStartTimeRef (refs s) /\
  pending (world s') = pending (world s) ++ [(fresh (world s), AwaitUserMedia c)] /\
  trace (world s')
  = trace (world s)
    ++ [ContextCreate InputContext; ContextCreate OutputContext; GetUserMedia].
Proof.
  intros Hk Ho. cbv zeta. rewrite toggle_start_with_key by exact Hk.
  unfold seq, suspend, emit, bump. cbn. rewrite Ho. cbn.
  rewrite <- !app_assoc.
  split; [reflexivity|]. split; [reflexivity|]. split; [reflexivity|].
  split; [reflexivity|]. split; [reflexivity|]. split; [reflexivity|].
  split; [reflexivity|]. split; reflexivity.
Qed.

(** X17.  A restart from [IDLE] builds the whole pipeline anew: no
    context being held there, the toggle creates the capture context and
    the playback context, requests the microphone and goes to
    [CONNECTING] with the error cleared.  It configures the session to
    come with the identity on display (the render of the click), keeps
    what the transcripts show, and keeps the playback clock of the
    session before. *)
Theorem restart_from_idle_builds_pipeline (s : AppState) :
  reachable s ->
  gameState (react s) = GameState.IDLE ->
  keyPresent s = true ->
  exists s',
    step s ClickToggle = Some s' /\
    gameState (react s') = GameState.CONNECTING /\
    error (react s') = None /\
    userTranscript (react s') = userTranscript (react s) /\
    jerryTranscript (react s') = jerryTranscript (react s) /\
    nextStartTimeRef (refs s') = nextStartTimeRef (refs s) /\
    pending (world s')
    = pending (world s) ++ [(fresh (world s), AwaitUserMedia (closure_of s))] /\
    trace (world s')
    = trace (world s)
      ++ [ContextCreate InputContext; ContextCreate OutputContext; GetUserMedia].
Proof.
  intros Hr Hg Hk.
  destruct (reachable_released s Hr (or_intror Hg)) as (_ & Ho).
  destruct (toggle_start_creates_both (closure_of s) s Hk Ho)
    as (G & E & U & J & _ & _ & N & P & T).
  pose proof (toggle_start_queue (closure_of s) s Hk) as Q.
  rewrite (reachable_microtasks s Hr) in Q.
  exists (toggle_start (closure_of s) s).
  split.
  { assert (E0 : handleToggleConversation false (closure_of s) s
                 = toggle_start (closure_of s) s)
      by (unfold handleToggleConversation; rewrite Hg; reflexivity).
    unfold step, handler. rewrite Hg.
    change (GameState.eqb GameState.IDLE GameState.PRE_GAME) with false.
    cbv iota. rewrite E0, checkpoint_empty by exact Q. reflexivity. }
  split; [exact G|]. split; [exact E|]. split; [exact U|]. split; [exact J|].
  split; [exact N|]. split; [exact P | exact T].
Qed.

Lemma restart_from_idle_builds_pipeline_witness :
  exists s,
    run (initialState (Some "key")) (openingTrace ++ [SessionError 3]) = Some s /\
    gameState (react s) = GameState.IDLE /\
    error (react s) = Some sessionErrorMessage /\
    exists s',
      step s ClickToggle = Some s' /\
      gameState (react s') = GameState.CONNECTING /\
      error (react s') = None.
Proof.
  eexists. split; [vm_compute; reflexivity|].
  split; [reflexivity|]. split; [reflexivity|].
  match goal with
  | |- exists s', step ?s _ = _ /\ _ =>
      assert (R : reachable s)
        by (exists (Some "key"), (openingTrace ++ [SessionError 3]);
            vm_compute; reflexivity);
      destruct (restart_from_idle_builds_pipeline s R eq_refl eq_refl)
        as (s' & H1 & H2 & H3 & _)
  end.
  exists s'. split; [exact H1|]. split; [exact H2 | exact H3].
Defined.

(** ** What a message may do *)













